(** * A left-leaning red-black tree (LLRB): model and verification.

    The development embeds the class [RedBlackTree] of the core library: the
    colour and rotation primitives, [fixUp], the recursive insert and the three
    deletions, the queries and the in-order iterators.  Mutation of a node is
    modelled by rebuilding it: every subtree has exactly one owner, so no
    aliasing is lost.  The private counter [#size] is threaded through the
    recursive methods as an explicit state.  A private method [#name] is
    written [name_].  In this model a failed assertion ends the call and the
    run it is part of.  What the node objects hold after a failed assertion,
    for a caller who catches the error and goes on, is the subject of a
    second model, [Objects], in which the nodes are mutated in place. *)

From Stdlib Require Import List ZArith Bool Lia Sorted.
Import ListNotations.
Local Open Scope Z_scope.

Set Implicit Arguments.

(** ** Collaborator capabilities *)

(** Modelled from the spec: the module [./equatable] is not part of the
    sources; [equality] is the equality capability on keys. *)
Class Equatable (K : Type) := equality : K -> K -> bool.

(** Modelled from the spec: the module [./comparable] is not part of the
    sources; these are the three comparisons the tree imports from it. *)
Class Comparable (K : Type) := {
  lessThan : K -> K -> bool;
  lessThanOrEqual : K -> K -> bool;
  greaterThanOrEqual : K -> K -> bool
}.

(** The contract of the capabilities (spec, section 6): [lessThan] is a strict
    total order, the other comparisons agree with it, and [equality] holds
    exactly when neither key is below the other. *)
Class TotalOrder (K : Type) {E : Equatable K} {C : Comparable K} : Prop := {
  lessThan_irrefl : forall a : K, lessThan a a = false;
  lessThan_trans : forall a b c : K,
      lessThan a b = true -> lessThan b c = true -> lessThan a c = true;
  lessThan_total : forall a b : K,
      lessThan a b = false -> lessThan b a = false -> a = b;
  equality_spec : forall a b : K, equality a b = true <-> a = b;
  lessThanOrEqual_spec : forall a b : K,
      lessThanOrEqual a b = negb (lessThan b a);
  greaterThanOrEqual_spec : forall a b : K,
      greaterThanOrEqual a b = negb (lessThan a b)
}.

Arguments TotalOrder K {E C}.

#[export] Instance Equatable_Z : Equatable Z := Z.eqb.
#[export] Instance Comparable_Z : Comparable Z := {
  lessThan := Z.ltb;
  lessThanOrEqual := Z.leb;
  greaterThanOrEqual := Z.geb
}.

(** ** Outcomes of a call *)

(** [AssertionError]: an [assert] of the source failed.  [TypeError]: a
    property of [null] was read; the TypeScript types rule it out, the model's
    nodes are nullable throughout. *)
Inductive Error : Set := AssertionError | TypeError.

(** [OutOfFuel] belongs to the model only: the deletions do not recurse on a
    subterm of their argument and take a bound on the recursion depth. *)
Inductive Result (A : Type) : Type :=
| Ok (a : A)
| Throw (e : Error)
| OutOfFuel.

Arguments Ok {A} a.
Arguments Throw {A} e.
Arguments OutOfFuel {A}.

Definition bind {A B : Type} (m : Result A) (f : A -> Result B) : Result B :=
  match m with
  | Ok a => f a
  | Throw e => Throw e
  | OutOfFuel => OutOfFuel
  end.

Notation "x <- m ;; f" := (bind m (fun x => f))
  (at level 61, m at next level, right associativity).
Notation "' p <- m ;; f" := (bind m (fun x => match x with p => f end))
  (at level 61, p pattern, m at next level, right associativity).

(** Modelled from the spec: [assert] of [../shared] is not part of the sources;
    it fails fast. *)
Definition assert (b : bool) : Result unit :=
  if b then Ok tt else Throw AssertionError.

(** ** Nodes *)

(** Modelled from the spec: the module [./red-black-node] is not part of the
    sources.  A node has a colour, a key, a value and two optional children;
    [null] is the absent node. *)
Inductive Color : Set := Red | Black.

Inductive Node (Key Value : Type) : Type :=
| null
| mkNode (color : Color) (left : Node Key Value) (key : Key) (value : Value)
         (right : Node Key Value).

Arguments null {Key Value}.
Arguments mkNode {Key Value} color left key value right.

(** Modelled from the spec: [new Node(key, value)] is red and has no child. *)
Definition newNode {Key Value : Type} (key : Key) (value : Value)
  : Node Key Value :=
  mkNode Red null key value null.

Section Primitives.
Context {Key Value : Type}.
Local Abbreviation Node := (Node Key Value).

Definition isNull (node : Node) : bool :=
  match node with null => true | mkNode _ _ _ _ _ => false end.

Definition isRed (node : Node) : bool :=
  match node with
  | null => false
  | mkNode Red _ _ _ _ => true
  | mkNode Black _ _ _ _ => false
  end.

Definition flipColor (node : Node) : Result Node :=
  match node with
  | null => Throw TypeError
  | mkNode _ l k v r =>
      Ok (mkNode (if isRed node then Black else Red) l k v r)
  end.

Definition flipColors (node : Node) : Result Node :=
  node <- flipColor node ;;
  match node with
  | null => Throw TypeError
  | mkNode c l k v r =>
      _ <- assert (negb (isNull l)) ;;
      l <- flipColor l ;;
      _ <- assert (negb (isNull r)) ;;
      r <- flipColor r ;;
      Ok (mkNode c l k v r)
  end.

Definition rotateLeft (node : Node) : Result Node :=
  match node with
  | null => Throw TypeError
  | mkNode c l k v r =>
      match r with
      | null => Throw AssertionError
      | mkNode _ rl rk rv rr =>
          (* node.right = right.left; right.left = node;
             right.color = node.color; node.color = Red *)
          Ok (mkNode c (mkNode Red l k v rl) rk rv rr)
      end
  end.

Definition rotateRight (node : Node) : Result Node :=
  match node with
  | null => Throw TypeError
  | mkNode c l k v r =>
      match l with
      | null => Throw AssertionError
      | mkNode _ ll lk lv lr =>
          (* node.left = left.right; left.right = node;
             left.color = node.color; node.color = Red *)
          Ok (mkNode c ll lk lv (mkNode Red lr k v r))
      end
  end.

Definition moveRedLeft (node : Node) : Result Node :=
  node <- flipColors node ;;
  match node with
  | null => Throw TypeError
  | mkNode c l k v r =>
      match r with
      | null => Throw AssertionError
      | mkNode _ rl _ _ _ =>
          if isRed rl then
            r <- rotateRight r ;;
            node <- rotateLeft (mkNode c l k v r) ;;
            flipColors node
          else Ok node
      end
  end.

Definition moveRedRight (node : Node) : Result Node :=
  node <- flipColors node ;;
  match node with
  | null => Throw TypeError
  | mkNode _ l _ _ _ =>
      match l with
      | null => Throw AssertionError
      | mkNode _ ll _ _ _ =>
          if isRed ll then
            node <- rotateRight node ;;
            flipColors node
          else Ok node
      end
  end.

Definition fixUp (node : Node) : Result Node :=
  node <- match node with
          | null => Throw TypeError
          | mkNode _ l _ _ r =>
              if isRed r && negb (isRed l) then rotateLeft node else Ok node
          end ;;
  node <- match node with
          | null => Throw TypeError
          | mkNode _ l _ _ _ =>
              if isRed l then
                match l with
                | null => Throw AssertionError
                | mkNode _ ll _ _ _ =>
                    if isRed ll then rotateRight node else Ok node
                end
              else Ok node
          end ;;
  match node with
  | null => Throw TypeError
  | mkNode _ l _ _ r =>
      if isRed l && isRed r then flipColors node else Ok node
  end.

End Primitives.

(** ** The class [RedBlackTree] *)

Section Tree.
Context {Key Value : Type} {E : Equatable Key} {C : Comparable Key}.
Local Abbreviation Node := (Node Key Value).

(** The two private fields [#root] and [#size]. *)
Record RedBlackTree : Type := {
  root : Node;
  size : Z
}.

(** [new RedBlackTree()]. *)
Definition empty : RedBlackTree := {| root := null; size := 0 |}.

(** Number of nodes of a subtree; it bounds the recursion depth of the
    deletions. *)
Fixpoint nodes (node : Node) : nat :=
  match node with
  | null => O
  | mkNode _ l _ _ r => S (nodes l + nodes r)
  end.

(** *** Private methods *)

Fixpoint get_ (node : Node) (key : Key) : Node :=
  match node with
  | null => null
  | mkNode _ l k _ r =>
      if equality key k then node
      else if lessThan key k then get_ l key
      else get_ r key
  end.

Fixpoint min_ (node : Node) : Result Node :=
  match node with
  | null => Throw TypeError
  | mkNode _ l _ _ _ =>
      match l with
      | null => Ok node
      | mkNode _ _ _ _ _ => min_ l
      end
  end.

Fixpoint max_ (node : Node) : Result Node :=
  match node with
  | null => Throw TypeError
  | mkNode _ _ _ _ r =>
      match r with
      | null => Ok node
      | mkNode _ _ _ _ _ => max_ r
      end
  end.

Fixpoint previous_ (node : Node) (key : Key) : Node :=
  match node with
  | null => null
  | mkNode _ l k _ r =>
      if lessThanOrEqual key k then previous_ l key
      else
        match previous_ r key with
        | null => node
        | mkNode _ _ _ _ _ as previous => previous
        end
  end.

Fixpoint next_ (node : Node) (key : Key) : Node :=
  match node with
  | null => null
  | mkNode _ l k _ r =>
      if greaterThanOrEqual key k then next_ r key
      else
        match next_ l key with
        | null => node
        | mkNode _ _ _ _ _ as next => next
        end
  end.

Fixpoint set_ (node : Node) (key : Key) (value : Value) (size : Z)
  : Result (Node * Z) :=
  match node with
  | null => Ok (newNode key value, size + 1)
  | mkNode c l k v r =>
      '(node, size) <-
        (if equality key k then Ok (mkNode c l k value r, size)
         else if lessThan key k then
           '(l, size) <- set_ l key value size ;;
           Ok (mkNode c l k v r, size)
         else
           '(r, size) <- set_ r key value size ;;
           Ok (mkNode c l k v r, size)) ;;
      node <- fixUp node ;;
      Ok (node, size)
  end.

Fixpoint deleteMin_ (fuel : nat) (node : Node) (size : Z)
  : Result (Node * Z) :=
  match fuel with
  | O => OutOfFuel
  | S fuel =>
      match node with
      | null => Throw TypeError
      | mkNode _ null _ _ _ => Ok (null, size - 1)
      | mkNode _ (mkNode _ ll _ _ _ as l) _ _ _ =>
          node <- (if negb (isRed l) && negb (isRed ll)
                   then moveRedLeft node else Ok node) ;;
          match node with
          | null => Throw TypeError
          | mkNode c l k v r =>
              _ <- assert (negb (isNull l)) ;;
              '(l, size) <- deleteMin_ fuel l size ;;
              node <- fixUp (mkNode c l k v r) ;;
              Ok (node, size)
          end
      end
  end.

Fixpoint deleteMax_ (fuel : nat) (node : Node) (size : Z)
  : Result (Node * Z) :=
  match fuel with
  | O => OutOfFuel
  | S fuel =>
      node <- match node with
              | null => Throw TypeError
              | mkNode _ l _ _ _ =>
                  if isRed l then rotateRight node else Ok node
              end ;;
      match node with
      | null => Throw TypeError
      | mkNode _ _ _ _ null => Ok (null, size - 1)
      | mkNode _ _ _ _ (mkNode _ rl _ _ _ as r) =>
          node <- (if negb (isRed r) && negb (isRed rl)
                   then moveRedRight node else Ok node) ;;
          match node with
          | null => Throw TypeError
          | mkNode c l k v r =>
              _ <- assert (negb (isNull r)) ;;
              '(r, size) <- deleteMax_ fuel r size ;;
              node <- fixUp (mkNode c l k v r) ;;
              Ok (node, size)
          end
      end
  end.

Fixpoint delete_ (fuel : nat) (node : Node) (key : Key) (size : Z)
  : Result (Node * Z) :=
  match fuel with
  | O => OutOfFuel
  | S fuel =>
      match node with
      | null => Throw TypeError
      | mkNode _ l k _ _ =>
          if lessThan key k then
            match l with
            | null => Throw AssertionError
            | mkNode _ ll _ _ _ =>
                node <- (if negb (isRed l) then
                           if negb (isRed ll) then moveRedLeft node
                           else Ok node
                         else Ok node) ;;
                match node with
                | null => Throw TypeError
                | mkNode c l k v r =>
                    _ <- assert (negb (isNull l)) ;;
                    '(l, size) <- delete_ fuel l key size ;;
                    node <- fixUp (mkNode c l k v r) ;;
                    Ok (node, size)
                end
            end
          else
            node <- (if isRed l then rotateRight node else Ok node) ;;
            match node with
            | null => Throw TypeError
            | mkNode _ _ k _ r =>
                if equality key k && isNull r then Ok (null, size - 1)
                else
                  node <- (if negb (isRed r) then
                             match r with
                             | null => Ok node
                             | mkNode _ rl _ _ _ =>
                                 if negb (isRed rl) then moveRedRight node
                                 else Ok node
                             end
                           else Ok node) ;;
                  match node with
                  | null => Throw TypeError
                  | mkNode c l k v r =>
                      if equality key k then
                        _ <- assert (negb (isNull r)) ;;
                        min <- min_ r ;;
                        match min with
                        | null => Throw TypeError
                        | mkNode _ _ mk mv _ =>
                            '(r, size) <- deleteMin_ fuel r size ;;
                            node <- fixUp (mkNode c l mk mv r) ;;
                            Ok (node, size)
                        end
                      else
                        '(r, size) <-
                          (if negb (isNull r) then delete_ fuel r key size
                           else Ok (r, size)) ;;
                        node <- fixUp (mkNode c l k v r) ;;
                        Ok (node, size)
                  end
            end
      end
  end.

(** *** Public methods *)

(** [this.#root.color = Color.Black]. *)
Definition blacken (node : Node) : Result Node :=
  match node with
  | null => Throw TypeError
  | mkNode _ l k v r => Ok (mkNode Black l k v r)
  end.

Definition get (t : RedBlackTree) (key : Key) : option Value :=
  match get_ (root t) key with
  | null => None
  | mkNode _ _ _ v _ => Some v
  end.

Definition keyOf (node : Node) : Result (option Key) :=
  match node with
  | null => Throw TypeError
  | mkNode _ _ k _ _ => Ok (Some k)
  end.

Definition min (t : RedBlackTree) : Result (option Key) :=
  match root t with
  | null => Ok None
  | mkNode _ _ _ _ _ as root => node <- min_ root ;; keyOf node
  end.

Definition max (t : RedBlackTree) : Result (option Key) :=
  match root t with
  | null => Ok None
  | mkNode _ _ _ _ _ as root => node <- max_ root ;; keyOf node
  end.

Definition previous (t : RedBlackTree) (key : Key) : option Key :=
  match previous_ (root t) key with
  | null => None
  | mkNode _ _ k _ _ => Some k
  end.

Definition next (t : RedBlackTree) (key : Key) : option Key :=
  match next_ (root t) key with
  | null => None
  | mkNode _ _ k _ _ => Some k
  end.

(** [set] returns [this]: the result is the tree after the call. *)
Definition set (t : RedBlackTree) (key : Key) (value : Value)
  : Result RedBlackTree :=
  '(node, size) <- set_ (root t) key value (size t) ;;
  node <- blacken node ;;
  Ok {| root := node; size := size |}.

(** The three deletions share their public wrapper: [run] is the private
    method applied to the non-null root. *)
Definition deletion (run : Node -> Z -> Result (Node * Z)) (t : RedBlackTree)
  : Result (bool * RedBlackTree) :=
  match root t with
  | null => Ok (false, t)
  | mkNode _ _ _ _ _ as node =>
      let size0 := size t in
      '(node, size) <- run node size0 ;;
      match node with
      | null => Ok (size <? size0, {| root := null; size := size |})
      | mkNode _ _ _ _ _ =>
          node <- blacken node ;;
          Ok (size <? size0, {| root := node; size := size |})
      end
  end.

Definition deleteMin (t : RedBlackTree) : Result (bool * RedBlackTree) :=
  deletion (deleteMin_ (S (nodes (root t)))) t.

Definition deleteMax (t : RedBlackTree) : Result (bool * RedBlackTree) :=
  deletion (deleteMax_ (S (nodes (root t)))) t.

Definition delete (t : RedBlackTree) (key : Key)
  : Result (bool * RedBlackTree) :=
  deletion (fun node => delete_ (S (nodes (root t))) node key) t.

Definition clear (t : RedBlackTree) : RedBlackTree :=
  {| root := null; size := 0 |}.

(** [new RedBlackTree(iterable)]: every entry is [set] in turn. *)
Fixpoint setAll (iterable : list (Key * Value)) (t : RedBlackTree)
  : Result RedBlackTree :=
  match iterable with
  | [] => Ok t
  | entry :: rest => t <- set t (fst entry) (snd entry) ;; setAll rest t
  end.

Definition construct (iterable : list (Key * Value)) : Result RedBlackTree :=
  setAll iterable empty.

(** *** Iterators *)

(** [{ done: true, value: undefined }] and [{ done: false, value }]. *)
Inductive IteratorResult (A : Type) : Type :=
| Done
| Yield (value : A).

(** The variables [node] and [stack] that the closure returned by [entries]
    captures.  The head of the list is the top of the stack. *)
Record EntriesIterator : Type := {
  it_node : Node;
  it_stack : list Node
}.

Definition entries (t : RedBlackTree) : EntriesIterator :=
  {| it_node := root t; it_stack := [] |}.

(** The loop of [next]: while [node] is present it is pushed and replaced by
    its left child; then the top of the stack is popped and yielded.  The loop
    ends without a result when both are exhausted. *)
Fixpoint entriesLoop (node : Node) (stack : list Node)
  : Result (IteratorResult (Key * Value) * EntriesIterator) :=
  match node with
  | mkNode _ l _ _ _ => entriesLoop l (node :: stack)
  | null =>
      match stack with
      | [] => Ok (Done _, {| it_node := null; it_stack := [] |})
      | last :: stack =>
          match last with
          | null => Throw TypeError
          | mkNode _ _ k v r =>
              Ok (Yield (k, v), {| it_node := r; it_stack := stack |})
          end
      end
  end.

Definition entriesNext (it : EntriesIterator)
  : Result (IteratorResult (Key * Value) * EntriesIterator) :=
  entriesLoop (it_node it) (it_stack it).

(** [[Symbol.iterator]()]. *)
Definition symbolIterator (t : RedBlackTree) : EntriesIterator := entries t.

(** The closure returned by [keys] captures [iterator]. *)
Record KeysIterator : Type := { keys_iterator : EntriesIterator }.

Definition keys (t : RedBlackTree) : KeysIterator :=
  {| keys_iterator := entries t |}.

Definition keysNext (it : KeysIterator)
  : Result (IteratorResult Key * KeysIterator) :=
  '(next, iterator) <- entriesNext (keys_iterator it) ;;
  match next with
  | Done _ => Ok (Done _, {| keys_iterator := iterator |})
  | Yield entry => Ok (Yield (fst entry), {| keys_iterator := iterator |})
  end.

(** The closure returned by [values] captures [iterator]. *)
Record ValuesIterator : Type := { values_iterator : EntriesIterator }.

Definition values (t : RedBlackTree) : ValuesIterator :=
  {| values_iterator := entries t |}.

Definition valuesNext (it : ValuesIterator)
  : Result (IteratorResult Value * ValuesIterator) :=
  '(next, iterator) <- entriesNext (values_iterator it) ;;
  match next with
  | Done _ => Ok (Done _, {| values_iterator := iterator |})
  | Yield entry => Ok (Yield (snd entry), {| values_iterator := iterator |})
  end.

(** *** Sequences of public calls *)

Inductive Call : Type :=
| CallSet (key : Key) (value : Value)
| CallDelete (key : Key)
| CallDeleteMin
| CallDeleteMax
| CallClear.

Definition call (c : Call) (t : RedBlackTree) : Result RedBlackTree :=
  match c with
  | CallSet key value => set t key value
  | CallDelete key => '(_, t) <- delete t key ;; Ok t
  | CallDeleteMin => '(_, t) <- deleteMin t ;; Ok t
  | CallDeleteMax => '(_, t) <- deleteMax t ;; Ok t
  | CallClear => Ok (clear t)
  end.

(** The calls are made in order; a call that throws ends the run. *)
Fixpoint run (calls : list Call) (t : RedBlackTree) : Result RedBlackTree :=
  match calls with
  | [] => Ok t
  | c :: rest => t <- call c t ;; run rest t
  end.

(** A tree one can hold when no call has thrown: constructed, from an
    iterable or from nothing ([construct []] is the empty tree), then used
    through public calls that all returned. *)
Definition reachable (t : RedBlackTree) : Prop :=
  exists iterable calls t0, construct iterable = Ok t0 /\ run calls t0 = Ok t.

(** [while (tree.min() !== undefined) { observe tree.min(); tree.deleteMin() }] *)
Fixpoint drainMin (fuel : nat) (t : RedBlackTree) : Result (list Key) :=
  match fuel with
  | O => OutOfFuel
  | S fuel =>
      m <- min t ;;
      match m with
      | None => Ok []
      | Some k =>
          '(_, t) <- deleteMin t ;;
          rest <- drainMin fuel t ;;
          Ok (k :: rest)
      end
  end.

(** [while (tree.max() !== undefined) { observe tree.max(); tree.deleteMax() }] *)
Fixpoint drainMax (fuel : nat) (t : RedBlackTree) : Result (list Key) :=
  match fuel with
  | O => OutOfFuel
  | S fuel =>
      m <- max t ;;
      match m with
      | None => Ok []
      | Some k =>
          '(_, t) <- deleteMax t ;;
          rest <- drainMax fuel t ;;
          Ok (k :: rest)
      end
  end.

(** ** Specification vocabulary *)

(** The entries of a subtree in in-order. *)
Fixpoint inorder (node : Node) : list (Key * Value) :=
  match node with
  | null => []
  | mkNode _ l k v r => inorder l ++ (k, v) :: inorder r
  end.

Definition keysOf (node : Node) : list Key := map fst (inorder node).

Definition left (node : Node) : Node :=
  match node with null => null | mkNode _ l _ _ _ => l end.

Definition right (node : Node) : Node :=
  match node with null => null | mkNode _ _ _ _ r => r end.

(** Invariant 1, first half: no node has a red right child. *)
Fixpoint noRedRight (node : Node) : Prop :=
  match node with
  | null => True
  | mkNode _ l _ _ r => isRed r = false /\ noRedRight l /\ noRedRight r
  end.

(** Invariant 1, second half: no node has a red left child whose own left child
    is red. *)
Fixpoint noRedLeftLeft (node : Node) : Prop :=
  match node with
  | null => True
  | mkNode _ l _ _ r =>
      (isRed l = true -> isRed (left l) = false)
      /\ noRedLeftLeft l /\ noRedLeftLeft r
  end.

(** The number of black links on each path from a node down to a null leaf,
    the link into the node included. *)
Fixpoint blackLinks (node : Node) : list nat :=
  match node with
  | null => [O]
  | mkNode c l _ _ r =>
      map (fun n => if isRed node then n else S n)
          (blackLinks l ++ blackLinks r)
  end.

(** Invariant 2: every path crosses the same number of black links. *)
Definition blackBalanced (node : Node) : Prop :=
  exists n, Forall (fun m => m = n) (blackLinks node).

(** Invariants 1 to 3 of the spec, on the root. *)
Definition llrb (node : Node) : Prop :=
  noRedRight node /\ noRedLeftLeft node /\ blackBalanced node
  /\ isRed node = false.

(** [rb n node]: an LLRB subtree of black height [n]; its root may be red, a red
    node has black children, a right child is never red. *)
Inductive rb : nat -> Node -> Prop :=
| rb_null : rb O null
| rb_red n l k v r :
    rb n l -> rb n r -> isRed l = false -> isRed r = false ->
    rb n (mkNode Red l k v r)
| rb_black n l k v r :
    rb n l -> rb n r -> isRed r = false ->
    rb (S n) (mkNode Black l k v r).

(** What the recursive insert returns for a red subtree: an LLRB subtree, or a
    red node whose left child is red too; the parent repairs it. *)
Inductive almost : nat -> Node -> Prop :=
| almost_rb n node : rb n node -> almost n node
| almost_red n l k v r :
    rb n l -> rb n r -> isRed r = false -> almost n (mkNode Red l k v r).

(** What the recursive deletions are called on: a red node, a black node with
    a red left child, or a black node with a red right child (the state
    [moveRedRight] leaves behind on the right). *)
Inductive delpre : nat -> Node -> Prop :=
| delpre_red n node : rb n node -> isRed node = true -> delpre n node
| delpre_left n l k v r :
    rb n (mkNode Black l k v r) -> isRed l = true ->
    delpre n (mkNode Black l k v r)
| delpre_right n l k v r :
    rb n l -> isRed l = false -> rb n r -> isRed r = true ->
    delpre (S n) (mkNode Black l k v r).

(** The colour of the root exchanged; [null] has none. *)
Definition flipped (c : Color) : Color :=
  match c with Red => Black | Black => Red end.

Definition toggle (node : Node) : Node :=
  match node with
  | null => null
  | mkNode c l k v r => mkNode (flipped c) l k v r
  end.

Definition toggleFst (p : Node * Z) : Node * Z := (toggle (fst p), snd p).

(** The root as the public deletions leave it: black when there is one. *)
Definition paint (node : Node) : Node :=
  match node with
  | null => null
  | mkNode _ l k v r => mkNode Black l k v r
  end.

(** [allKeys P node]: every key of the subtree satisfies [P]. *)
Fixpoint allKeys (P : Key -> Prop) (node : Node) : Prop :=
  match node with
  | null => True
  | mkNode _ l k _ r => allKeys P l /\ P k /\ allKeys P r
  end.

(** Invariant 4, node by node: the keys on the left of a node are below its
    key, the keys on its right are above it. *)
Fixpoint bst (node : Node) : Prop :=
  match node with
  | null => True
  | mkNode _ l k _ r =>
      bst l /\ bst r
      /\ allKeys (fun x => lessThan x k = true) l
      /\ allKeys (fun x => lessThan k x = true) r
  end.

(** Strictly increasing lists of keys: every element is below all later ones. *)
Fixpoint ordered (l : list Key) : Prop :=
  match l with
  | [] => True
  | a :: l' => Forall (fun b => lessThan a b = true) l' /\ ordered l'
  end.

(** Invariant 5: [size] is the number of nodes. *)
Definition sizeOk (t : RedBlackTree) : Prop := size t = Z.of_nat (nodes (root t)).

(** Invariants 1 to 5 together. *)
Definition Inv (t : RedBlackTree) : Prop :=
  (exists n, rb n (root t)) /\ isRed (root t) = false
  /\ bst (root t) /\ sizeOk t.

(** Association-list counterparts of the operations. *)
Fixpoint lookup (key : Key) (l : list (Key * Value)) : option Value :=
  match l with
  | [] => None
  | (k, v) :: l' => if equality key k then Some v else lookup key l'
  end.

Fixpoint ins_list (key : Key) (value : Value) (l : list (Key * Value))
  : list (Key * Value) :=
  match l with
  | [] => [(key, value)]
  | (k, v) :: l' =>
      if equality key k then (k, value) :: l'
      else if lessThan key k then (key, value) :: l
      else (k, v) :: ins_list key value l'
  end.

(** The entries whose key is not [key], in their order. *)
Definition del_list (key : Key) (l : list (Key * Value)) : list (Key * Value) :=
  filter (fun entry => negb (equality key (fst entry))) l.

(** What an iterator of [entries] has yet to yield: the subtree of [node], then
    every stacked node with its right subtree, from the top of the stack. *)
Definition stackEntries (stack : list Node) : list (Key * Value) :=
  flat_map (fun node => match node with
                        | null => []
                        | mkNode _ _ k v r => (k, v) :: inorder r
                        end) stack.

Definition pending (it : EntriesIterator) : list (Key * Value) :=
  inorder (it_node it) ++ stackEntries (it_stack it).

(** Only nodes are pushed. *)
Definition stackOk (it : EntriesIterator) : Prop :=
  Forall (fun node => isNull node = false) (it_stack it).

(** [r] is the largest of [ks] below [key], if any. *)
Definition isPredecessor (ks : list Key) (key : Key) (r : option Key) : Prop :=
  match r with
  | Some p =>
      In p ks /\ lessThan p key = true
      /\ forall q, In q ks -> lessThan q key = true -> lessThan p q = false
  | None => forall q, In q ks -> lessThan q key = false
  end.

(** [r] is the smallest of [ks] above [key], if any. *)
Definition isSuccessor (ks : list Key) (key : Key) (r : option Key) : Prop :=
  match r with
  | Some p =>
      In p ks /\ lessThan key p = true
      /\ forall q, In q ks -> lessThan key q = true -> lessThan q p = false
  | None => forall q, In q ks -> lessThan key q = false
  end.

(** The key of a node that a query found, if it found one. *)
Definition foundKey (node : Node) : option Key :=
  match node with
  | null => None
  | mkNode _ _ k _ _ => Some k
  end.

Definition foundValue (node : Node) : option Value :=
  match node with
  | null => None
  | mkNode _ _ _ v _ => Some v
  end.

(** No node of the subtree holds [key]. *)
Definition absent (key : Key) (node : Node) : Prop :=
  allKeys (fun x => equality key x = false) node.

(** What the recursive [#delete] owes its caller on a subtree of black height
    [n]: it returns an LLRB subtree of that height with the entry of [key]
    removed and the counter adjusted, or its assertion fails and [key] was not
    there. *)
Definition deleted (key : Key) (n : nat) (node : Node) (s : Z)
  (res : Result (Node * Z)) : Prop :=
  match res with
  | Ok (node', s') =>
      rb n node'
      /\ (isRed node' = true -> isRed node = true)
      /\ inorder node' = del_list key (inorder node)
      /\ s' - Z.of_nat (nodes node') = s - Z.of_nat (nodes node)
  | Throw AssertionError => absent key node
  | Throw TypeError => False
  | OutOfFuel => False
  end.

(** The outcome of [#delete] on the root of a tree. *)
Definition deletedRoot (key : Key) (node : Node) (s : Z)
  (res : Result (Node * Z)) : Prop :=
  match res with
  | Ok (node', s') =>
      (exists m, rb m (paint node'))
      /\ inorder node' = del_list key (inorder node)
      /\ s' - Z.of_nat (nodes node') = s - Z.of_nat (nodes node)
  | Throw AssertionError => absent key node
  | Throw TypeError => False
  | OutOfFuel => False
  end.

(** The number of nodes on the longest path from a node down to a null
    leaf. *)
Fixpoint height (node : Node) : nat :=
  match node with
  | null => O
  | mkNode _ l _ _ r => S (Nat.max (height l) (height r))
  end.

(** [f] fails its assertion on [node] when [P] holds; otherwise it returns a
    node with the same in-order sequence. *)
Definition assertsWhen (f : Node -> Result Node) (node : Node) (P : Prop)
  : Prop :=
  (P -> f node = Throw AssertionError)
  /\ (~ P -> exists node', f node = Ok node' /\ inorder node' = inorder node).

(** Association-list counterpart of a public call: [deleteMin] drops the first
    entry, [deleteMax] the last one. *)
Definition call_list (c : Call) (l : list (Key * Value)) : list (Key * Value) :=
  match c with
  | CallSet key value => ins_list key value l
  | CallDelete key => del_list key l
  | CallDeleteMin => tl l
  | CallDeleteMax => removelast l
  | CallClear => []
  end.

Definition run_list (calls : list Call) (l : list (Key * Value))
  : list (Key * Value) :=
  fold_left (fun l c => call_list c l) calls l.

(** The iterator of [entries] after [n] calls of [next]. *)
Fixpoint advance (n : nat) (it : EntriesIterator) : Result EntriesIterator :=
  match n with
  | O => Ok it
  | S n => '(_, it) <- entriesNext it ;; advance n it
  end.

(** What the call of [next] after [n] earlier ones returns when [l] is what
    the iterator had to yield at the start. *)
Definition nthResult (l : list (Key * Value)) (n : nat)
  : IteratorResult (Key * Value) :=
  match nth_error l n with
  | Some entry => Yield entry
  | None => Done _
  end.

(** Every stacked node leaves room for its right subtree: the stack of an
    iterator never grows beyond [h]. *)
Fixpoint stackBound (h : nat) (stack : list Node) : Prop :=
  match stack with
  | [] => True
  | node :: stack =>
      (height (right node) + length stack <= h)%nat /\ stackBound h stack
  end.

End Tree.

(** A subtree without its values: the shape, the keys and the colours. *)
Fixpoint shape {Key Value : Type} (node : Node Key Value) : Node Key unit :=
  match node with
  | null => null
  | mkNode c l k _ r => mkNode c (shape l) k tt (shape r)
  end.

(** The outcome of a call with its result transformed. *)
Definition mapResult {A B : Type} (f : A -> B) (m : Result A) : Result B :=
  match m with
  | Ok a => Ok (f a)
  | Throw e => Throw e
  | OutOfFuel => OutOfFuel
  end.

(** Everything an iterator yields until it is done, as [Array.from] collects
    it; [fuel] bounds the number of calls of [next]. *)
Fixpoint collect {S A : Type} (next : S -> Result (IteratorResult A * S))
  (fuel : nat) (it : S) : Result (list A) :=
  match fuel with
  | O => OutOfFuel
  | Datatypes.S fuel =>
      '(r, it) <- next it ;;
      match r with
      | Done _ => Ok []
      | Yield a => rest <- collect next fuel it ;; Ok (a :: rest)
      end
  end.

(** The result of a call that returned; [d] otherwise. *)
Definition resultOr {A : Type} (d : A) (m : Result A) : A :=
  match m with
  | Ok a => a
  | Throw _ => d
  | OutOfFuel => d
  end.

Arguments RedBlackTree Key Value : clear implicits.
Arguments EntriesIterator Key Value : clear implicits.
Arguments KeysIterator Key Value : clear implicits.
Arguments ValuesIterator Key Value : clear implicits.
Arguments Call Key Value : clear implicits.

(** * The tree as the code has it: objects mutated in place *)

(** The model above rebuilds a node where the code assigns to a field.  That
    loses nothing as long as every call returns.  When a call throws, the
    assignments made before the throw stay in the node objects and [#root]
    keeps pointing at the object it pointed at.  This second model keeps
    that: the nodes are objects in a store, the methods read and write their
    fields in the order of the source, and a throw leaves the store as it is
    at that moment. *)
Module Objects.

Declare Scope objects_scope.

Section Objects.
Context {Key Value : Type} {E : Equatable Key} {C : Comparable Key}.

(** A reference to a node object; [None] is [null]. *)
Definition Ref : Set := option nat.

Record Object : Type := {
  color : Color;
  left : Ref;
  key : Key;
  value : Value;
  right : Ref
}.

(** The node objects by address, and the private fields [#root] and
    [#size] of the tree object. *)
Record State : Type := {
  heap : list Object;
  root : Ref;
  size : Z
}.

(** [new RedBlackTree()]. *)
Definition empty : State := {| heap := []; root := None; size := 0 |}.

(** A computation on the store: it returns or throws, and in both cases
    leaves a store behind. *)
Definition M (A : Type) : Type := State -> Result A * State.

Definition ret {A : Type} (a : A) : M A := fun s => (Ok a, s).

Definition throw {A : Type} (e : Error) : M A := fun s => (Throw e, s).

Definition bind {A B : Type} (m : M A) (f : A -> M B) : M B :=
  fun s =>
    match m s with
    | (Ok a, s') => f a s'
    | (Throw e, s') => (Throw e, s')
    | (OutOfFuel, s') => (OutOfFuel, s')
    end.

Local Notation "x <- m ;; f" := (bind m (fun x => f))
  (at level 61, m at next level, right associativity) : objects_scope.
Local Open Scope objects_scope.

(** *** Fields *)

Definition load (a : nat) : M Object :=
  fun s =>
    match nth_error (heap s) a with
    | Some o => (Ok o, s)
    | None => (Throw TypeError, s)
    end.

Fixpoint replace (a : nat) (o : Object) (l : list Object) : list Object :=
  match l, a with
  | [], _ => []
  | _ :: l, O => o :: l
  | x :: l, S a => x :: replace a o l
  end.

Definition store (a : nat) (o : Object) : M unit :=
  fun s =>
    (Ok tt, {| heap := replace a o (heap s); root := root s; size := size s |}).

(** [new Node(key, value)]: a red node without children, at a fresh
    address. *)
Definition newNode (k : Key) (v : Value) : M nat :=
  fun s =>
    (Ok (length (heap s)),
     {| heap := heap s ++ [{| color := Red; left := None; key := k;
                              value := v; right := None |}];
        root := root s; size := size s |}).

Definition getColor (a : nat) : M Color := o <- load a ;; ret (color o).
Definition getLeft (a : nat) : M Ref := o <- load a ;; ret (left o).
Definition getKey (a : nat) : M Key := o <- load a ;; ret (key o).
Definition getValue (a : nat) : M Value := o <- load a ;; ret (value o).
Definition getRight (a : nat) : M Ref := o <- load a ;; ret (right o).

Definition setColor (a : nat) (c : Color) : M unit :=
  o <- load a ;;
  store a {| color := c; left := left o; key := key o; value := value o;
             right := right o |}.

Definition setLeft (a : nat) (l : Ref) : M unit :=
  o <- load a ;;
  store a {| color := color o; left := l; key := key o; value := value o;
             right := right o |}.

Definition setKey (a : nat) (k : Key) : M unit :=
  o <- load a ;;
  store a {| color := color o; left := left o; key := k; value := value o;
             right := right o |}.

Definition setValue (a : nat) (v : Value) : M unit :=
  o <- load a ;;
  store a {| color := color o; left := left o; key := key o; value := v;
             right := right o |}.

Definition setRight (a : nat) (r : Ref) : M unit :=
  o <- load a ;;
  store a {| color := color o; left := left o; key := key o; value := value o;
             right := r |}.

Definition getRoot : M Ref := fun s => (Ok (root s), s).

Definition setRoot (r : Ref) : M unit :=
  fun s => (Ok tt, {| heap := heap s; root := r; size := size s |}).

Definition getSize : M Z := fun s => (Ok (size s), s).

Definition setSize (z : Z) : M unit :=
  fun s => (Ok tt, {| heap := heap s; root := root s; size := z |}).

(** The recursive methods do not recurse on a subterm: they take a bound on
    the recursion depth, one more than the number of objects. *)
Definition withFuel {A : Type} (f : nat -> M A) : M A :=
  fun s => f (S (length (heap s))) s.

(** *** The primitives *)

Definition isRed (node : Ref) : M bool :=
  match node with
  | None => ret false
  | Some node =>
      c <- getColor node ;;
      ret (match c with Red => true | Black => false end)
  end.

Definition flipColor (node : nat) : M unit :=
  red <- isRed (Some node) ;;
  setColor node (if red then Black else Red).

Definition flipColors (node : nat) : M unit :=
  _ <- flipColor node ;;
  l <- getLeft node ;;
  match l with
  | None => throw AssertionError
  | Some l =>
      _ <- flipColor l ;;
      r <- getRight node ;;
      match r with
      | None => throw AssertionError
      | Some r => flipColor r
      end
  end.

Definition rotateLeft (node : nat) : M nat :=
  r <- getRight node ;;
  match r with
  | None => throw AssertionError
  | Some r =>
      rl <- getLeft r ;;
      _ <- setRight node rl ;;
      _ <- setLeft r (Some node) ;;
      c <- getColor node ;;
      _ <- setColor r c ;;
      _ <- setColor node Red ;;
      ret r
  end.

Definition rotateRight (node : nat) : M nat :=
  l <- getLeft node ;;
  match l with
  | None => throw AssertionError
  | Some l =>
      lr <- getRight l ;;
      _ <- setLeft node lr ;;
      _ <- setRight l (Some node) ;;
      c <- getColor node ;;
      _ <- setColor l c ;;
      _ <- setColor node Red ;;
      ret l
  end.

Definition moveRedLeft (node : nat) : M nat :=
  _ <- flipColors node ;;
  r <- getRight node ;;
  match r with
  | None => throw AssertionError
  | Some r =>
      rl <- getLeft r ;;
      red <- isRed rl ;;
      if red then
        r <- rotateRight r ;;
        _ <- setRight node (Some r) ;;
        node <- rotateLeft node ;;
        _ <- flipColors node ;;
        ret node
      else ret node
  end.

Definition moveRedRight (node : nat) : M nat :=
  _ <- flipColors node ;;
  l <- getLeft node ;;
  match l with
  | None => throw AssertionError
  | Some l =>
      ll <- getLeft l ;;
      red <- isRed ll ;;
      if red then
        node <- rotateRight node ;;
        _ <- flipColors node ;;
        ret node
      else ret node
  end.

Definition fixUp (node : nat) : M nat :=
  r <- getRight node ;;
  rred <- isRed r ;;
  l <- getLeft node ;;
  lred <- isRed l ;;
  node <- (if rred && negb lred then rotateLeft node else ret node) ;;
  l <- getLeft node ;;
  lred <- isRed l ;;
  node <- (if lred then
             match l with
             | None => throw AssertionError
             | Some l =>
                 ll <- getLeft l ;;
                 llred <- isRed ll ;;
                 if llred then rotateRight node else ret node
             end
           else ret node) ;;
  l <- getLeft node ;;
  lred <- isRed l ;;
  r <- getRight node ;;
  rred <- isRed r ;;
  _ <- (if lred && rred then flipColors node else ret tt) ;;
  ret node.

(** *** Private methods *)

Fixpoint min_ (fuel : nat) (node : nat) : M nat :=
  match fuel with
  | O => fun s => (OutOfFuel, s)
  | S fuel =>
      l <- getLeft node ;;
      match l with
      | None => ret node
      | Some l => min_ fuel l
      end
  end.

Fixpoint set_ (fuel : nat) (node : Ref) (k : Key) (v : Value) : M nat :=
  match fuel with
  | O => fun s => (OutOfFuel, s)
  | S fuel =>
      match node with
      | None =>
          n <- getSize ;;
          _ <- setSize (n + 1) ;;
          newNode k v
      | Some node =>
          nk <- getKey node ;;
          _ <- (if equality k nk then setValue node v
                else if lessThan k nk then
                  l <- getLeft node ;;
                  l <- set_ fuel l k v ;;
                  setLeft node (Some l)
                else
                  r <- getRight node ;;
                  r <- set_ fuel r k v ;;
                  setRight node (Some r)) ;;
          fixUp node
      end
  end.

Fixpoint deleteMin_ (fuel : nat) (node : nat) : M Ref :=
  match fuel with
  | O => fun s => (OutOfFuel, s)
  | S fuel =>
      l <- getLeft node ;;
      match l with
      | None =>
          n <- getSize ;;
          _ <- setSize (n - 1) ;;
          ret None
      | Some l0 =>
          lred <- isRed l ;;
          ll <- getLeft l0 ;;
          llred <- isRed ll ;;
          node <- (if negb lred && negb llred then moveRedLeft node
                   else ret node) ;;
          l <- getLeft node ;;
          match l with
          | None => throw AssertionError
          | Some l =>
              l <- deleteMin_ fuel l ;;
              _ <- setLeft node l ;;
              node <- fixUp node ;;
              ret (Some node)
          end
      end
  end.

Fixpoint deleteMax_ (fuel : nat) (node : nat) : M Ref :=
  match fuel with
  | O => fun s => (OutOfFuel, s)
  | S fuel =>
      l <- getLeft node ;;
      lred <- isRed l ;;
      node <- (if lred then rotateRight node else ret node) ;;
      r <- getRight node ;;
      match r with
      | None =>
          n <- getSize ;;
          _ <- setSize (n - 1) ;;
          ret None
      | Some r0 =>
          rred <- isRed r ;;
          rl <- getLeft r0 ;;
          rlred <- isRed rl ;;
          node <- (if negb rred && negb rlred then moveRedRight node
                   else ret node) ;;
          r <- getRight node ;;
          match r with
          | None => throw AssertionError
          | Some r =>
              r <- deleteMax_ fuel r ;;
              _ <- setRight node r ;;
              node <- fixUp node ;;
              ret (Some node)
          end
      end
  end.

Fixpoint delete_ (fuel : nat) (node : nat) (k : Key) : M Ref :=
  match fuel with
  | O => fun s => (OutOfFuel, s)
  | S fuel =>
      nk <- getKey node ;;
      node <-
        (if lessThan k nk then
           l <- getLeft node ;;
           match l with
           | None => throw AssertionError
           | Some l0 =>
               lred <- isRed l ;;
               node <- (if negb lred then
                          ll <- getLeft l0 ;;
                          llred <- isRed ll ;;
                          if negb llred then moveRedLeft node else ret node
                        else ret node) ;;
               l <- getLeft node ;;
               match l with
               | None => throw AssertionError
               | Some l =>
                   l <- delete_ fuel l k ;;
                   _ <- setLeft node l ;;
                   ret (Some node)
               end
           end
         else
           l <- getLeft node ;;
           lred <- isRed l ;;
           node <- (if lred then rotateRight node else ret node) ;;
           nk <- getKey node ;;
           r <- getRight node ;;
           if equality k nk && match r with None => true | Some _ => false end
           then
             n <- getSize ;;
             _ <- setSize (n - 1) ;;
             ret None
           else
             rred <- isRed r ;;
             node <- (if negb rred then
                        match r with
                        | None => ret node
                        | Some r0 =>
                            rl <- getLeft r0 ;;
                            rlred <- isRed rl ;;
                            if negb rlred then moveRedRight node
                            else ret node
                        end
                      else ret node) ;;
             nk <- getKey node ;;
             _ <- (if equality k nk then
                     r <- getRight node ;;
                     match r with
                     | None => throw AssertionError
                     | Some r =>
                         m <- min_ fuel r ;;
                         mk <- getKey m ;;
                         _ <- setKey node mk ;;
                         mv <- getValue m ;;
                         _ <- setValue node mv ;;
                         r <- deleteMin_ fuel r ;;
                         setRight node r
                     end
                   else
                     r <- getRight node ;;
                     match r with
                     | None => ret tt
                     | Some r =>
                         r <- delete_ fuel r k ;;
                         setRight node r
                     end) ;;
             ret (Some node)) ;;
      (* the early return [null] apart, every path ends in [fixUp(node)] *)
      match node with
      | None => ret None
      | Some node => node <- fixUp node ;; ret (Some node)
      end
  end.

(** *** Public methods *)

(** [this.#root.color = Color.Black]. *)
Definition blackenRoot : M unit :=
  r <- getRoot ;;
  match r with
  | None => throw TypeError
  | Some r => setColor r Black
  end.

Definition set (k : Key) (v : Value) : M unit :=
  r <- getRoot ;;
  r <- withFuel (fun fuel => set_ fuel r k v) ;;
  _ <- setRoot (Some r) ;;
  blackenRoot.

(** The three deletions share their public wrapper. *)
Definition deletion (run : nat -> nat -> M Ref) : M bool :=
  r <- getRoot ;;
  match r with
  | None => ret false
  | Some r =>
      size0 <- getSize ;;
      r <- withFuel (fun fuel => run fuel r) ;;
      _ <- setRoot r ;;
      match r with
      | None => n <- getSize ;; ret (n <? size0)
      | Some _ => _ <- blackenRoot ;; n <- getSize ;; ret (n <? size0)
      end
  end.

Definition deleteMin : M bool := deletion deleteMin_.

Definition deleteMax : M bool := deletion deleteMax_.

Definition delete (k : Key) : M bool :=
  deletion (fun fuel node => delete_ fuel node k).

Definition clear : M unit :=
  _ <- setRoot None ;;
  setSize 0.

(** [new RedBlackTree(iterable)]: every entry is [set] in turn. *)
Fixpoint setAll (iterable : list (Key * Value)) : M unit :=
  match iterable with
  | [] => ret tt
  | entry :: rest => _ <- set (fst entry) (snd entry) ;; setAll rest
  end.

Definition construct (iterable : list (Key * Value)) : Result unit * State :=
  setAll iterable empty.

(** *** Sequences of public calls *)

Definition call (c : Call Key Value) : M unit :=
  match c with
  | CallSet k v => set k v
  | CallDelete k => _ <- delete k ;; ret tt
  | CallDeleteMin => _ <- deleteMin ;; ret tt
  | CallDeleteMax => _ <- deleteMax ;; ret tt
  | CallClear => clear
  end.

(** The calls are made in order; a call that throws ends the run and leaves
    the store as it is. *)
Fixpoint run (calls : list (Call Key Value)) : M unit :=
  match calls with
  | [] => ret tt
  | c :: rest => _ <- call c ;; run rest
  end.

(** *** What the tree object holds *)

(** The tree of the objects one reaches from a reference. *)
Fixpoint treeOf (fuel : nat) (objects : list Object) (node : Ref)
  : Node Key Value :=
  match fuel with
  | O => null
  | S fuel =>
      match node with
      | None => null
      | Some a =>
          match nth_error objects a with
          | None => null
          | Some o =>
              mkNode (color o) (treeOf fuel objects (left o)) (key o)
                     (value o) (treeOf fuel objects (right o))
          end
      end
  end.

(** The tree under [#root]. *)
Definition tree (s : State) : Node Key Value :=
  treeOf (length (heap s)) (heap s) (root s).

End Objects.

Arguments State Key Value : clear implicits.
Arguments Object Key Value : clear implicits.

End Objects.

(** ** Sample trees over integer keys *)

(** The scenario of the spec: 10, 5, 15, 3, 7, 12, 17 are inserted, then 10,
    the minimum and the maximum are deleted. *)
Definition sampleEntries : list (Z * Z) :=
  [(10, 100); (5, 50); (15, 150); (3, 30); (7, 70); (12, 120); (17, 170);
   (7, 71)].

Definition sampleCalls : list (Call Z Z) :=
  map (fun e => CallSet (fst e) (snd e)) sampleEntries
  ++ [CallDelete 10; CallDeleteMin; CallDeleteMax].

Definition sampleTree : RedBlackTree Z Z :=
  resultOr empty (run sampleCalls empty).

(** A tree with exactly the keys 1, 3, 5 and 7. *)
Definition tree1357 : RedBlackTree Z Z :=
  resultOr empty (construct [(1, 10); (3, 30); (5, 50); (7, 70)]).

(** The tree after [set(5, 50)] on the empty tree. *)
Definition tree5 : RedBlackTree Z Z := resultOr empty (set empty 5 50).

(** The same four keys set in decreasing order: another shape, the same
    content. *)
Definition tree7531 : RedBlackTree Z Z :=
  resultOr empty (construct [(7, 70); (5, 50); (3, 30); (1, 10)]).

(** A red node between two black leaves, as the deletions meet it on their
    way down. *)
Definition redNode : Node Z Z :=
  mkNode Red (mkNode Black null 1 10 null) 2 20 (mkNode Black null 3 30 null).

(** A black node between two red leaves: a 4-node. *)
Definition fourNode : Node Z Z :=
  mkNode Black (newNode 1 10) 2 20 (newNode 3 30).

(** A red left child with a red left child of its own, as an insertion
    leaves it below a black node. *)
Definition redRed : Node Z Z := mkNode Red (newNode 1 10) 2 20 null.

(** * Verification *)

Unset Implicit Arguments.

Section Proofs.
Context {Key Value : Type} {E : Equatable Key} {C : Comparable Key}.
Context {TO : TotalOrder Key}.
Local Abbreviation Node := (Node Key Value).
Local Abbreviation Tree := (RedBlackTree Key Value).

(** ** The order on keys *)

Lemma lessThan_asym (a b : Key) : lessThan a b = true -> lessThan b a = false.
Proof.
  intros H. destruct (lessThan b a) eqn:Hba; [|reflexivity].
  rewrite <- (lessThan_irrefl a). symmetry. eapply lessThan_trans; eassumption.
Qed.

Lemma equality_refl (a : Key) : equality a a = true.
Proof. apply equality_spec. reflexivity. Qed.

Lemma equality_false (a b : Key) : a <> b -> equality a b = false.
Proof.
  intros H. destruct (equality a b) eqn:Heq; [|reflexivity].
  apply equality_spec in Heq. contradiction.
Qed.

Lemma lessThan_neq (a b : Key) : lessThan a b = true -> equality a b = false.
Proof.
  intros H. apply equality_false. intros ->.
  rewrite lessThan_irrefl in H. discriminate.
Qed.

Lemma greaterThan_neq (a b : Key) : lessThan b a = true -> equality a b = false.
Proof.
  intros H. apply equality_false. intros ->.
  rewrite lessThan_irrefl in H. discriminate.
Qed.

Lemma lt_le_trans (a b c : Key) :
  lessThan a b = true -> lessThan c b = false -> lessThan a c = true.
Proof.
  intros Hab Hcb. destruct (lessThan a c) eqn:Hac; [reflexivity|].
  destruct (lessThan c a) eqn:Hca.
  - rewrite (lessThan_trans _ _ _ Hca Hab) in Hcb. discriminate.
  - rewrite (lessThan_total _ _ Hac Hca) in Hab. congruence.
Qed.

Lemma le_lt_trans (a b c : Key) :
  lessThan b a = false -> lessThan b c = true -> lessThan a c = true.
Proof.
  intros Hba Hbc. destruct (lessThan a c) eqn:Hac; [reflexivity|].
  destruct (lessThan c a) eqn:Hca.
  - rewrite (lessThan_trans _ _ _ Hbc Hca) in Hba. discriminate.
  - rewrite <- (lessThan_total _ _ Hac Hca) in Hbc. congruence.
Qed.

Lemma le_le_trans (a b c : Key) :
  lessThan b a = false -> lessThan c b = false -> lessThan c a = false.
Proof.
  intros Hba Hcb. destruct (lessThan c a) eqn:Hca; [|reflexivity].
  rewrite (lt_le_trans _ _ _ Hca Hba) in Hcb. discriminate.
Qed.

Lemma neq_ge_lt (a b : Key) :
  equality a b = false -> lessThan a b = false -> lessThan b a = true.
Proof.
  intros Hne Hab. destruct (lessThan b a) eqn:Hba; [reflexivity|].
  rewrite (lessThan_total _ _ Hab Hba), equality_refl in Hne. discriminate.
Qed.

(** ** Keys of a subtree *)

Lemma allKeys_impl (P Q : Key -> Prop) (node : Node) :
  (forall x, P x -> Q x) -> allKeys P node -> allKeys Q node.
Proof.
  intros HPQ. induction node; simpl; intuition auto.
Qed.

Lemma allKeys_Forall (P : Key -> Prop) (node : Node) :
  allKeys P node <-> Forall P (keysOf node).
Proof.
  unfold keysOf. induction node; simpl.
  - split; auto.
  - rewrite map_app, Forall_app. simpl. rewrite Forall_cons_iff.
    tauto.
Qed.

Lemma ordered_app (l1 l2 : list Key) :
  ordered (l1 ++ l2) <->
  ordered l1 /\ ordered l2
  /\ Forall (fun a => Forall (fun b => lessThan a b = true) l2) l1.
Proof.
  induction l1 as [|a l1 IH]; simpl.
  - intuition auto.
  - rewrite Forall_app, Forall_cons_iff, IH. tauto.
Qed.

Lemma bst_ordered (node : Node) : bst node <-> ordered (keysOf node).
Proof.
  unfold keysOf. induction node as [|c l IHl k v r IHr]; simpl.
  - tauto.
  - rewrite map_app, ordered_app. simpl.
    rewrite IHl, IHr, !allKeys_Forall. unfold keysOf.
    rewrite !Forall_forall.
    split.
    + intros (Hl & Hr & Hlk & Hkr). repeat split; auto.
      intros a Ha. constructor; auto.
      rewrite Forall_forall. intros b Hb.
      eapply lessThan_trans; eauto.
    + intros (Hl & (Hkr & Hr) & H).
      repeat split; auto.
      intros a Ha. specialize (H a Ha). inversion H; assumption.
Qed.

Lemma ordered_Sorted (l : list Key) :
  ordered l -> Sorted (fun a b => lessThan a b = true) l.
Proof.
  induction l as [|a l IH]; simpl; intros H; constructor.
  - apply IH, H.
  - destruct H as [H _]. destruct l; constructor.
    inversion H; assumption.
Qed.

Lemma ordered_NoDup (l : list Key) : ordered l -> NoDup l.
Proof.
  induction l as [|a l IH]; simpl; [constructor|].
  intros [H1 H2]; constructor; auto.
  intros Hin. rewrite Forall_forall in H1. specialize (H1 a Hin).
  rewrite lessThan_irrefl in H1. discriminate.
Qed.

Lemma length_inorder (node : Node) : length (inorder node) = nodes node.
Proof.
  induction node; simpl; [reflexivity|].
  rewrite length_app. simpl. lia.
Qed.

(** ** The primitives *)

Arguments bind {A B} !m f /.
Arguments assert !b /.
Arguments flipColor {Key Value} !node /.
Arguments flipColors {Key Value} !node /.
Arguments rotateLeft {Key Value} !node /.
Arguments rotateRight {Key Value} !node /.
Arguments moveRedLeft {Key Value} !node /.
Arguments moveRedRight {Key Value} !node /.
Arguments fixUp {Key Value} !node /.
Arguments blacken {Key Value} !node /.

Ltac inv H := inversion H; subst; clear H.

(** Case analysis on the colour of a subtree. *)
Ltac by_color x := destruct x as [|[] ? ? ? ?].

(** Case analysis on every subtree whose colour or presence is tested. *)
Ltac split_tests :=
  repeat match goal with
    | |- context [isRed ?x] => is_var x; destruct x as [|[] ? ? ? ?]; simpl
    | |- context [isNull ?x] => is_var x; destruct x as [|[] ? ? ? ?]; simpl
    | |- context [match ?c with Red => _ | Black => _ end] =>
        is_var c; destruct c; simpl
    end.

Lemma bind_Ok {A B : Type} (m : Result A) (f : A -> Result B) (b : B) :
  bind m f = Ok b -> exists a, m = Ok a /\ f a = Ok b.
Proof. destruct m; simpl; intros H; try discriminate. eauto. Qed.

Lemma rotateLeft_inorder (node node' : Node) :
  rotateLeft node = Ok node' -> inorder node' = inorder node.
Proof.
  destruct node as [|c l k v [|rc rl rk rv rr]]; simpl; intros H; inv H.
  simpl. rewrite <- app_assoc. reflexivity.
Qed.

Lemma rotateRight_inorder (node node' : Node) :
  rotateRight node = Ok node' -> inorder node' = inorder node.
Proof.
  destruct node as [|c [|lc ll lk lv lr] k v r]; simpl; intros H; inv H.
  simpl. rewrite <- app_assoc. reflexivity.
Qed.

Lemma flipColors_inorder (node node' : Node) :
  flipColors node = Ok node' -> inorder node' = inorder node.
Proof.
  destruct node as [|c [|lc ll lk lv lr] k v [|rc rl rk rv rr]]; simpl;
    intros H; inv H.
  reflexivity.
Qed.

Lemma fixUp_inorder (node node' : Node) :
  fixUp node = Ok node' -> inorder node' = inorder node.
Proof.
  destruct node as [|c l k v r]; [discriminate|].
  revert node'. simpl. split_tests; intros node' H; inv H; simpl;
    rewrite <- ?app_assoc; reflexivity.
Qed.

Lemma fixUp_total (c : Color) (l : Node) (k : Key) (v : Value) (r : Node) :
  exists c' l' k' v' r', fixUp (mkNode c l k v r) = Ok (mkNode c' l' k' v' r').
Proof.
  simpl. split_tests; eauto 10.
Qed.

Lemma inorder_nodes (node node' : Node) :
  inorder node' = inorder node -> nodes node' = nodes node.
Proof. intros H. rewrite <- !length_inorder, H. reflexivity. Qed.

(** On a subtree that satisfies the red rules, [fixUp] changes nothing. *)
Lemma fixUp_id (c : Color) (l : Node) (k : Key) (v : Value) (r : Node) :
  isRed r = false -> (isRed l = true -> isRed (left l) = false) ->
  fixUp (mkNode c l k v r) = Ok (mkNode c l k v r).
Proof.
  intros Hr Hl. simpl. rewrite Hr. simpl.
  destruct l as [|[] ll lk lv lr]; simpl in *; rewrite ?Hr; try reflexivity.
  rewrite (Hl eq_refl). simpl. rewrite Hr. reflexivity.
Qed.

(** ** Shapes of LLRB subtrees *)

Lemma rb_0_black (x : Node) : rb O x -> isRed x = false -> x = null.
Proof. intros H Hx. inv H; [reflexivity | discriminate]. Qed.

Lemma rb_S_black (n : nat) (x : Node) :
  rb (S n) x -> isRed x = false ->
  exists l k v r, x = mkNode Black l k v r /\ rb n l /\ rb n r /\ isRed r = false.
Proof. intros H Hx. inv H; [discriminate|]. eauto 10. Qed.

Lemma rb_red_inv (n : nat) (x : Node) :
  rb n x -> isRed x = true ->
  exists l k v r,
    x = mkNode Red l k v r
    /\ rb n l /\ rb n r /\ isRed l = false /\ isRed r = false.
Proof. intros H Hx. inv H; try discriminate. eauto 10. Qed.

Lemma rb_black_inv (n : nat) (l : Node) (k : Key) (v : Value) (r : Node) :
  rb n (mkNode Black l k v r) ->
  exists m, n = S m /\ rb m l /\ rb m r /\ isRed r = false.
Proof. intros H. inv H. eauto. Qed.

Lemma rb_black_cases (n : nat) (x : Node) :
  rb n x -> isRed x = false ->
  (n = O /\ x = null)
  \/ exists m l k v r,
      n = S m /\ x = mkNode Black l k v r
      /\ rb m l /\ rb m r /\ isRed r = false.
Proof. intros H Hx. inv H; [auto | discriminate | right; eauto 12]. Qed.

Lemma rb_red_left (n : nat) (x : Node) :
  rb n x -> isRed x = true -> isRed (left x) = false.
Proof. intros H Hx. inv H; try discriminate. assumption. Qed.

Lemma rb_noRedRight (n : nat) (x : Node) : rb n x -> noRedRight x.
Proof. induction 1; simpl; auto. Qed.

Lemma rb_noRedLeftLeft (n : nat) (x : Node) : rb n x -> noRedLeftLeft x.
Proof.
  induction 1; simpl; auto.
  - repeat split; auto. congruence.
  - repeat split; auto. intros Hl. eapply rb_red_left; eauto.
Qed.

Lemma rb_blackLinks (n : nat) (x : Node) :
  rb n x -> Forall (fun m => m = n) (blackLinks x).
Proof.
  induction 1; simpl.
  - repeat constructor.
  - rewrite Forall_map, Forall_app. split; assumption.
  - rewrite Forall_map, Forall_app.
    split; [eapply Forall_impl; [|exact IHrb1] | eapply Forall_impl; [|exact IHrb2]];
      simpl; intros; congruence.
Qed.

Lemma rb_llrb (n : nat) (x : Node) : rb n x -> isRed x = false -> llrb x.
Proof.
  intros H Hx. repeat split; auto.
  - eapply rb_noRedRight; eauto.
  - eapply rb_noRedLeftLeft; eauto.
  - exists n. apply rb_blackLinks; assumption.
Qed.

Lemma blackLinks_nonempty (x : Node) : blackLinks x <> [].
Proof.
  induction x as [|c l IHl k v r IHr]; simpl; [discriminate|].
  intros H. apply map_eq_nil in H. apply app_eq_nil in H.
  destruct H as [H _]. contradiction.
Qed.

Lemma blackLinks_height (n : nat) (x : Node) :
  Forall (fun m => m = n) (blackLinks x) ->
  match x with
  | null => n = O
  | mkNode Red l _ _ r => Forall (fun m => m = n) (blackLinks l ++ blackLinks r)
  | mkNode Black l _ _ r =>
      exists m, n = S m /\ Forall (fun p => p = m) (blackLinks l ++ blackLinks r)
  end.
Proof.
  destruct x as [|[] l k v r]; simpl; intros H.
  - inv H. reflexivity.
  - rewrite Forall_map in H. exact H.
  - rewrite Forall_map in H.
    destruct (blackLinks l ++ blackLinks r) as [|p rest] eqn:Hne.
    + apply app_eq_nil in Hne. destruct Hne as [Hne _].
      destruct (blackLinks_nonempty l Hne).
    + exists p. inversion H as [|? ? Hp Hrest]; subst. split; [reflexivity|].
      constructor; [reflexivity|].
      eapply Forall_impl; [|exact Hrest]. simpl. intros a Ha. congruence.
Qed.

(** The structural invariants of the spec amount to [rb]. *)
Lemma llrb_rb (x : Node) :
  forall n : nat,
    noRedRight x -> noRedLeftLeft x ->
    Forall (fun m => m = n) (blackLinks x) ->
    (isRed x = true -> isRed (left x) = false) ->
    rb n x.
Proof.
  induction x as [|c l IHl k v r IHr]; intros n Hrr Hll Hbal Hroot.
  - apply blackLinks_height in Hbal. subst. constructor.
  - apply blackLinks_height in Hbal.
    destruct Hrr as (Hr & Hrrl & Hrrr). destruct Hll as (Hl & Hlll & Hllr).
    destruct c.
    + apply Forall_app in Hbal. destruct Hbal as [Hbl Hbr].
      simpl in Hroot. specialize (Hroot eq_refl).
      apply rb_red; [apply IHl | apply IHr | |]; auto; congruence.
    + destruct Hbal as (m & -> & Hbal).
      apply Forall_app in Hbal. destruct Hbal as [Hbl Hbr].
      apply rb_black; [apply IHl | apply IHr |]; auto; congruence.
Qed.

Lemma llrb_height (x : Node) : llrb x -> exists n, rb n x.
Proof.
  intros (Hrr & Hll & (n & Hbal) & Hblack). exists n.
  apply llrb_rb; auto. congruence.
Qed.

(** ** Association lists *)

Lemma ins_list_split (key : Key) (value : Value) (k : Key) (v : Value)
  (L R : list (Key * Value)) :
  Forall (fun x => lessThan x k = true) (map fst L) ->
  ins_list key value (L ++ (k, v) :: R) =
  if equality key k then L ++ (k, value) :: R
  else if lessThan key k then ins_list key value L ++ (k, v) :: R
  else L ++ (k, v) :: ins_list key value R.
Proof.
  induction L as [|[a b] L IH]; simpl; intros HL.
  - destruct (equality key k), (lessThan key k); reflexivity.
  - inv HL. simpl in *. rewrite (IH H2). clear IH.
    destruct (equality key a) eqn:Ha.
    + apply equality_spec in Ha. subst a.
      rewrite (lessThan_neq _ _ H1), H1. reflexivity.
    + destruct (lessThan key a) eqn:Hlt.
      * rewrite (lessThan_neq _ _ (lessThan_trans _ _ _ Hlt H1)).
        rewrite (lessThan_trans _ _ _ Hlt H1). reflexivity.
      * destruct (equality key k), (lessThan key k); reflexivity.
Qed.

Lemma lookup_ins_list (x key : Key) (value : Value) (l : list (Key * Value)) :
  lookup x (ins_list key value l) =
  if equality x key then Some value else lookup x l.
Proof.
  induction l as [|[a b] l IH]; simpl.
  - destruct (equality x key); reflexivity.
  - destruct (equality key a) eqn:Ha.
    + apply equality_spec in Ha. subst a. simpl.
      destruct (equality x key); reflexivity.
    + destruct (lessThan key a); simpl.
      * destruct (equality x key); reflexivity.
      * rewrite IH. destruct (equality x a) eqn:Hxa; [|reflexivity].
        apply equality_spec in Hxa. subst a.
        rewrite equality_false; [reflexivity|].
        intros ->. rewrite equality_refl in Ha. discriminate.
Qed.

Lemma keys_ins_list (P : Key -> Prop) (key : Key) (value : Value)
  (l : list (Key * Value)) :
  P key -> Forall P (map fst l) -> Forall P (map fst (ins_list key value l)).
Proof.
  intros Hk. induction l as [|[a b] l IH]; simpl; intros Hl.
  - repeat constructor. assumption.
  - inv Hl. destruct (equality key a); [|destruct (lessThan key a)]; simpl;
      repeat constructor; auto.
Qed.

Lemma ordered_ins_list (key : Key) (value : Value) (l : list (Key * Value)) :
  ordered (map fst l) -> ordered (map fst (ins_list key value l)).
Proof.
  induction l as [|[a b] l IH]; simpl.
  - intros _. split; constructor.
  - intros [Ha Hl]. destruct (equality key a) eqn:Heq; simpl.
    + split; assumption.
    + destruct (lessThan key a) eqn:Hlt; simpl.
      * repeat split; auto. constructor; [assumption|].
        eapply Forall_impl; [|exact Ha]. simpl. intros.
        eapply lessThan_trans; eassumption.
      * split; [|auto]. apply keys_ins_list; [|assumption].
        apply neq_ge_lt; assumption.
Qed.

Lemma lookup_app (key : Key) (L R : list (Key * Value)) :
  lookup key (L ++ R) =
  match lookup key L with Some v => Some v | None => lookup key R end.
Proof.
  induction L as [|[a b] L IH]; simpl; [reflexivity|].
  destruct (equality key a); auto.
Qed.

Lemma lookup_None (key : Key) (l : list (Key * Value)) :
  Forall (fun x => equality key x = false) (map fst l) -> lookup key l = None.
Proof.
  induction l as [|[a b] l IH]; simpl; intros H; [reflexivity|].
  inv H. simpl in *. rewrite H2. auto.
Qed.

Lemma lookup_None_iff (key : Key) (l : list (Key * Value)) :
  lookup key l = None <-> ~ In key (map fst l).
Proof.
  induction l as [|[a b] l IH]; simpl; [tauto|].
  destruct (equality key a) eqn:Ha.
  - apply equality_spec in Ha. subst. split; [discriminate|tauto].
  - rewrite IH. split; [|tauto]. intros H [H1|H1]; [|tauto].
    subst. rewrite equality_refl in Ha. discriminate.
Qed.

Lemma lookup_split (key k : Key) (v : Value) (L R : list (Key * Value)) :
  Forall (fun x => lessThan x k = true) (map fst L) ->
  Forall (fun x => lessThan k x = true) (map fst R) ->
  lookup key (L ++ (k, v) :: R) =
  if equality key k then Some v
  else if lessThan key k then lookup key L
  else lookup key R.
Proof.
  intros HL HR. rewrite lookup_app. simpl.
  destruct (equality key k) eqn:Hk.
  - apply equality_spec in Hk. subst k. rewrite lookup_None; [reflexivity|].
    eapply Forall_impl; [|exact HL]. simpl. intros. apply greaterThan_neq.
    assumption.
  - destruct (lessThan key k) eqn:Hlt.
    + rewrite (@lookup_None key R); [destruct (lookup key L); reflexivity|].
      eapply Forall_impl; [|exact HR]. simpl. intros. apply lessThan_neq.
      eapply lessThan_trans; eassumption.
    + rewrite lookup_None; [reflexivity|].
      eapply Forall_impl; [|exact HL]. simpl. intros. apply greaterThan_neq.
      eapply lt_le_trans; eassumption.
Qed.

Lemma del_list_app (key : Key) (L R : list (Key * Value)) :
  del_list key (L ++ R) = del_list key L ++ del_list key R.
Proof. apply filter_app. Qed.

Lemma del_list_cons (key k : Key) (v : Value) (l : list (Key * Value)) :
  del_list key ((k, v) :: l) =
  (if equality key k then [] else [(k, v)]) ++ del_list key l.
Proof. unfold del_list. simpl. destruct (equality key k); reflexivity. Qed.

Lemma del_list_absent (key : Key) (l : list (Key * Value)) :
  Forall (fun x => equality key x = false) (map fst l) -> del_list key l = l.
Proof.
  induction l as [|[a b] l IH]; intros H; [reflexivity|].
  inv H. rewrite del_list_cons. simpl in *. rewrite H2, IH; auto.
Qed.

Lemma keys_del_list (P : Key -> Prop) (key : Key) (l : list (Key * Value)) :
  Forall P (map fst l) -> Forall P (map fst (del_list key l)).
Proof.
  induction l as [|[a b] l IH]; intros H; [constructor|].
  inv H. rewrite del_list_cons. destruct (equality key a); simpl; auto.
Qed.

Lemma ordered_del_list (key : Key) (l : list (Key * Value)) :
  ordered (map fst l) -> ordered (map fst (del_list key l)).
Proof.
  induction l as [|[a b] l IH]; [auto|].
  intros [Ha Hl]. rewrite del_list_cons.
  destruct (equality key a); simpl; auto.
  split; auto. apply keys_del_list. assumption.
Qed.

Lemma lookup_del_list (x key : Key) (l : list (Key * Value)) :
  lookup x (del_list key l) = if equality x key then None else lookup x l.
Proof.
  induction l as [|[a b] l IH].
  - simpl. destruct (equality x key); reflexivity.
  - rewrite del_list_cons. destruct (equality key a) eqn:Ha; simpl; rewrite IH.
    + apply equality_spec in Ha. subst a.
      destruct (equality x key); reflexivity.
    + destruct (equality x a) eqn:Hxa; [|reflexivity].
      apply equality_spec in Hxa. subst a.
      rewrite equality_false; [reflexivity|].
      intros ->. rewrite equality_refl in Ha. discriminate.
Qed.

Lemma allKeys_entries (P : Key -> Prop) (node : Node) :
  allKeys P node <-> Forall P (map fst (inorder node)).
Proof. apply allKeys_Forall. Qed.

(** ** Insertion *)

Create HintDb llrb.
#[local] Hint Constructors rb almost delpre : llrb.
#[local] Hint Extern 1 (isRed _ = _) => (reflexivity || assumption) : llrb.

(** Rewrites the outcome of every test the context decides. *)
Ltac decide_tests :=
  simpl;
  repeat (match goal with
          | H : isRed ?x = _ |- context [isRed ?x] => rewrite H
          | H : isNull ?x = _ |- context [isNull ?x] => rewrite H
          | H : equality ?a ?b = _ |- context [equality ?a ?b] => rewrite H
          | H : lessThan ?a ?b = _ |- context [lessThan ?a ?b] => rewrite H
          end; simpl).

(** Inverts the invariants of every subtree whose shape is known. *)
Ltac rb_inv :=
  repeat match goal with
    | H : rb _ null |- _ => inv H
    | H : rb _ (mkNode _ _ _ _ _) |- _ => inv H
    | H : almost _ (mkNode _ _ _ _ _) |- _ => inv H
    | H : isRed (mkNode _ _ _ _ _) = _ |- _ =>
        first [discriminate H | clear H]
    | H : isRed null = _ |- _ => first [discriminate H | clear H]
    end.

Lemma set_total (node : Node) (key : Key) (value : Value) (s : Z) :
  exists c l k v r s',
    set_ node key value s = Ok (mkNode c l k v r, s').
Proof.
  revert s. induction node as [|c l IHl k v r IHr]; intros s; simpl.
  - unfold newNode. eauto 10.
  - destruct (equality key k).
    + destruct (fixUp_total c l k value r) as (c' & l' & k' & v' & r' & H).
      simpl in *. rewrite H. simpl. eauto 10.
    + destruct (lessThan key k).
      * destruct (IHl s) as (c1 & l1 & k1 & v1 & r1 & s' & H1). rewrite H1.
        cbn [bind].
        destruct (fixUp_total c (mkNode c1 l1 k1 v1 r1) k v r)
          as (c' & l' & k' & v' & r' & H).
        rewrite H. simpl. eauto 10.
      * destruct (IHr s) as (c1 & l1 & k1 & v1 & r1 & s' & H1). rewrite H1.
        cbn [bind].
        destruct (fixUp_total c l k v (mkNode c1 l1 k1 v1 r1))
          as (c' & l' & k' & v' & r' & H).
        rewrite H. simpl. eauto 10.
Qed.

Lemma set_inorder (node node' : Node) (key : Key) (value : Value) (s s' : Z) :
  bst node -> set_ node key value s = Ok (node', s') ->
  inorder node' = ins_list key value (inorder node)
  /\ s' - Z.of_nat (nodes node') = s - Z.of_nat (nodes node).
Proof.
  revert node' s s'.
  induction node as [|c l IHl k v r IHr]; intros node' s s' Hbst H.
  - simpl in H. inv H. simpl. split; [reflexivity|lia].
  - destruct Hbst as (Hl & Hr & Hlk & Hkr).
    apply allKeys_entries in Hlk.
    cbn [set_] in H. cbn [inorder]. rewrite ins_list_split by assumption.
    destruct (equality key k) eqn:Heq.
    + apply bind_Ok in H. destruct H as ([n1 s1] & H1 & H).
      inv H1. apply bind_Ok in H. destruct H as (n2 & H2 & H). inv H.
      pose proof (fixUp_inorder _ _ H2) as Hin.
      rewrite (inorder_nodes _ _ Hin), Hin. simpl. auto.
    + destruct (lessThan key k) eqn:Hlt.
      * apply bind_Ok in H. destruct H as ([n1 s1] & H1 & H).
        apply bind_Ok in H1. destruct H1 as ([l1 s2] & H1 & H3). inv H3.
        apply bind_Ok in H. destruct H as (n2 & H2 & H). inv H.
        destruct (IHl _ _ _ Hl H1) as [IH1 IH2].
        pose proof (fixUp_inorder _ _ H2) as Hin.
        rewrite (inorder_nodes _ _ Hin), Hin. simpl. rewrite IH1.
        split; [reflexivity|lia].
      * apply bind_Ok in H. destruct H as ([n1 s1] & H1 & H).
        apply bind_Ok in H1. destruct H1 as ([l1 s2] & H1 & H3). inv H3.
        apply bind_Ok in H. destruct H as (n2 & H2 & H). inv H.
        destruct (IHr _ _ _ Hr H1) as [IH1 IH2].
        pose proof (fixUp_inorder _ _ H2) as Hin.
        rewrite (inorder_nodes _ _ Hin), Hin. simpl. rewrite IH1.
        split; [reflexivity|lia].
Qed.

Lemma set_rb (node : Node) (key : Key) (value : Value) (s : Z) (n : nat) :
  rb n node ->
  exists node' s',
    set_ node key value s = Ok (node', s')
    /\ (if isRed node then almost n node' else rb n node').
Proof.
  intros Hrb. revert s.
  induction Hrb as [|n l k v r Hl IHl Hr IHr Hlb Hrblack
                    |n l k v r Hl IHl Hr IHr Hrblack]; intros s.
  - simpl. unfold newNode. eauto 10 with llrb.
  - cbn [set_ isRed]. rewrite Hlb in IHl. rewrite Hrblack in IHr.
    destruct (equality key k); [|destruct (lessThan key k)].
    + cbn [bind]. rewrite fixUp_id; auto; [|congruence].
      simpl. eauto 10 with llrb.
    + destruct (IHl s) as (l' & s' & Heq & Hl').
      rewrite Heq. cbn [bind]. rewrite fixUp_id; auto.
      * simpl. eauto 10 with llrb.
      * intros Hred. eapply rb_red_left; eauto.
    + destruct (IHr s) as (r' & s' & Heq & Hr').
      rewrite Heq. cbn [bind].
      by_color r'; rb_inv; decide_tests; eauto 10 with llrb.
  - cbn [set_ isRed].
    destruct (equality key k); [|destruct (lessThan key k)].
    + cbn [bind]. rewrite fixUp_id; auto.
      * simpl. eauto 10 with llrb.
      * intros Hred. eapply rb_red_left; eauto.
    + destruct (IHl s) as (l' & s' & Heq & Hl').
      rewrite Heq. cbn [bind]. clear Heq IHl IHr.
      destruct (isRed l) eqn:Hlred.
      * inv Hl'.
        -- rewrite fixUp_id; auto.
           ++ simpl. eauto 10 with llrb.
           ++ intros Hred. eapply rb_red_left; eauto.
        -- by_color l0; rb_inv; decide_tests; eauto 10 with llrb.
      * rewrite fixUp_id; auto.
        -- simpl. eauto 10 with llrb.
        -- intros Hred. eapply rb_red_left; eauto.
    + rewrite Hrblack in IHr.
      destruct (IHr s) as (r' & s' & Heq & Hr').
      rewrite Heq. cbn [bind]. clear Heq IHl IHr.
      by_color r'; rb_inv; by_color l; rb_inv; decide_tests;
        eauto 10 with llrb.
Qed.

(** ** The colour of the root does not steer the algorithms *)

Arguments mapResult {A B} f !m /.

Lemma rotateLeft_toggle (node : Node) :
  rotateLeft (toggle node) = mapResult toggle (rotateLeft node).
Proof. destruct node as [|c l k v [|rc rl rk rv rr]]; reflexivity. Qed.

Lemma rotateRight_toggle (node : Node) :
  rotateRight (toggle node) = mapResult toggle (rotateRight node).
Proof. destruct node as [|c [|lc ll lk lv lr] k v r]; reflexivity. Qed.

Lemma flipColors_toggle (node : Node) :
  flipColors (toggle node) = mapResult toggle (flipColors node).
Proof.
  destruct node as [|[] [|lc ll lk lv lr] k v [|rc rl rk rv rr]]; reflexivity.
Qed.

Lemma moveRedLeft_toggle (node : Node) :
  moveRedLeft (toggle node) = mapResult toggle (moveRedLeft node).
Proof.
  destruct node as [|[] [|lc ll lk lv lr] k v [|rc rl rk rv rr]];
    try reflexivity; simpl; split_tests; reflexivity.
Qed.

Lemma moveRedRight_toggle (node : Node) :
  moveRedRight (toggle node) = mapResult toggle (moveRedRight node).
Proof.
  destruct node as [|[] [|lc ll lk lv lr] k v [|rc rl rk rv rr]];
    try reflexivity; simpl; split_tests; reflexivity.
Qed.

Lemma fixUp_toggle (node : Node) :
  fixUp (toggle node) = mapResult toggle (fixUp node).
Proof.
  destruct node as [|[] l k v r]; try reflexivity; simpl; split_tests;
    reflexivity.
Qed.

(** ** [fixUp] on the way back up *)

Lemma fixUp_black (m : nat) (l : Node) (k : Key) (v : Value) (r : Node) :
  rb m l -> rb m r ->
  exists node',
    fixUp (mkNode Black l k v r) = Ok node'
    /\ rb (S m) node'
    /\ (isRed node' = true -> isRed l = true /\ isRed r = true)
    /\ inorder node' = inorder l ++ (k, v) :: inorder r
    /\ nodes node' = S (nodes l + nodes r).
Proof.
  intros Hl Hr.
  by_color r; by_color l; rb_inv; decide_tests;
    (eexists; split; [reflexivity|]);
    (split; [eauto 10 with llrb|]);
    (split; [simpl; intros; (discriminate || auto)|]);
    (split; [simpl; rewrite <- ?app_assoc; reflexivity | simpl; lia]).
Qed.

Lemma fixUp_red (m : nat) (l : Node) (k : Key) (v : Value) (r : Node) :
  rb m l -> rb m r -> isRed l = false -> isRed r = false ->
  fixUp (mkNode Red l k v r) = Ok (mkNode Red l k v r)
  /\ rb m (mkNode Red l k v r).
Proof.
  intros Hl Hr Hlb Hrb. split; [|auto with llrb].
  apply fixUp_id; [assumption|congruence].
Qed.

Lemma fixUp_red' (m : nat) (l : Node) (k : Key) (v : Value) (r : Node) :
  rb m l -> rb m r -> isRed l = false -> isRed r = false ->
  exists node',
    fixUp (mkNode Red l k v r) = Ok node'
    /\ rb m node'
    /\ inorder node' = inorder l ++ (k, v) :: inorder r
    /\ nodes node' = S (nodes l + nodes r).
Proof.
  intros Hl Hr Hlb Hrb. exists (mkNode Red l k v r).
  destruct (fixUp_red m l k v r) as [Hfix Hres]; auto.
Qed.

Arguments fixUp : simpl never.

(** ** Deleting the minimum *)

(** Equality of two in-order sequences up to the bracketing of [++]. *)
Ltac list_eq := simpl; rewrite <- ?app_assoc; simpl; reflexivity.

(** The in-order sequence of the whole from [Hin], that of the part the
    recursion went into. *)
Ltac min_content Hin :=
  cbn [inorder] in *;
  match type of Hin with
  | _ = ?e :: ?Y => rewrite (app_comm_cons Y _ e), <- Hin
  end;
  list_eq.

Lemma deleteMin_spec (fuel : nat) :
  forall (node : Node) (n : nat) (s : Z),
    (nodes node < fuel)%nat -> delpre n node -> isRed (right node) = false ->
    exists node' s' e,
      deleteMin_ fuel node s = Ok (node', s')
      /\ s' = s - 1
      /\ rb n node'
      /\ (isRed node' = true -> isRed node = true)
      /\ inorder node = e :: inorder node'.
Proof.
  induction fuel as [|fuel IH]; intros node n s Hfuel Hpre Hright; [lia|].
  destruct Hpre as [n node Hrb Hred | n l k v r Hrb Hlred
                   | n l k v r Hl Hlb Hr Hrred].
  - (* a red node *)
    destruct (rb_red_inv _ _ Hrb Hred)
      as (l & k & v & r & -> & Hl & Hr & Hlb & Hrb').
    destruct (rb_black_cases _ _ Hl Hlb)
      as [[-> ->] | (m & ll & lk & lv & lr & -> & -> & Hll & Hlr & Hlrb)].
    + rewrite (rb_0_black _ Hr Hrb'). simpl.
      exists null, (s - 1), (k, v). repeat split; auto with llrb.
    + destruct (rb_S_black _ _ Hr Hrb')
        as (rl & rk & rv & rr & -> & Hrl & Hrr & Hrrb).
      cbn [deleteMin_]. decide_tests.
      destruct (isRed ll) eqn:Hllred.
      * (* the left child is a 3-node: descend *)
        decide_tests.
        destruct (IH (mkNode Black ll lk lv lr) (S m) s) as
          (l' & s' & e & Heq & Hs & Hrbl' & Hcol & Hin);
          [simpl in *; lia | auto with llrb | assumption |].
        rewrite Heq. cbn [bind].
        assert (Hl' : isRed l' = false)
          by (destruct (isRed l'); [discriminate (Hcol eq_refl)|reflexivity]).
        destruct (fixUp_red (S m) l' k v (mkNode Black rl rk rv rr))
          as [Hfix Hres]; auto with llrb.
        rewrite Hfix. cbn [bind].
        exists (mkNode Red l' k v (mkNode Black rl rk rv rr)), s', e.
        repeat split; auto.
        min_content Hin.
      * decide_tests. destruct (isRed rl) eqn:Hrlred.
        -- (* borrow from the right sibling *)
           destruct (rb_red_inv _ _ Hrl Hrlred)
             as (rll & rlk & rlv & rlr & -> & Hrll & Hrlr & Hrllb & Hrlrb).
           decide_tests.
           destruct (IH (mkNode Black (mkNode Red ll lk lv lr) k v rll)
                       (S m) s) as
             (l' & s' & e & Heq & Hs & Hrbl' & Hcol & Hin);
             [simpl in *; lia | auto 10 with llrb | assumption |].
           rewrite Heq. cbn [bind].
           assert (Hl' : isRed l' = false)
             by (destruct (isRed l'); [discriminate (Hcol eq_refl)|reflexivity]).
           destruct (fixUp_red (S m) l' rlk rlv (mkNode Black rlr rk rv rr))
             as [Hfix Hres]; auto with llrb.
           rewrite Hfix. cbn [bind].
           exists (mkNode Red l' rlk rlv (mkNode Black rlr rk rv rr)), s', e.
           repeat split; auto.
           min_content Hin.
        -- (* merge with the right sibling *)
           decide_tests.
           destruct (IH (mkNode Red ll lk lv lr) m s) as
             (l' & s' & e & Heq & Hs & Hrbl' & Hcol & Hin);
             [simpl in *; lia | auto 10 with llrb | assumption |].
           rewrite Heq. cbn [bind].
           destruct (fixUp_black m l' k v (mkNode Red rl rk rv rr))
             as (node' & Hfix & Hres & Hc & Hino & _); auto with llrb.
           rewrite Hfix. cbn [bind].
           exists node', s', e. repeat split; auto.
           rewrite Hino. min_content Hin.
  - (* a black node with a red left child *)
    destruct (rb_black_inv _ _ _ _ _ Hrb) as (m & -> & Hl & Hr & Hrb').
    destruct (rb_red_inv _ _ Hl Hlred)
      as (ll & lk & lv & lr & -> & Hll & Hlr & Hllb & Hlrb).
    cbn [deleteMin_]. decide_tests.
    destruct (IH (mkNode Red ll lk lv lr) m s) as
      (l' & s' & e & Heq & Hs & Hrbl' & Hcol & Hin);
      [simpl in *; lia | auto 10 with llrb | assumption |].
    rewrite Heq. cbn [bind].
    destruct (fixUp_black m l' k v r) as (node' & Hfix & Hres & Hc & Hino & _);
      auto.
    rewrite Hfix. cbn [bind].
    exists node', s', e. repeat split; auto.
    + intros Hnred. destruct (Hc Hnred) as [_ Hr']. congruence.
    + rewrite Hino. min_content Hin.
  - simpl in Hright. congruence.
Qed.

(** ** Deleting the maximum *)

Ltac max_content Hin :=
  cbn [inorder] in *;
  rewrite <- ?app_assoc in Hin; simpl in Hin;
  rewrite <- ?app_assoc; simpl;
  rewrite <- ?Hin; reflexivity.

Lemma deleteMax_spec (fuel : nat) :
  forall (node : Node) (n : nat) (s : Z),
    (nodes node < fuel)%nat -> delpre n node ->
    exists node' s' e,
      deleteMax_ fuel node s = Ok (node', s')
      /\ s' = s - 1
      /\ rb n node'
      /\ (isRed node' = true -> isRed node = true)
      /\ inorder node = inorder node' ++ [e].
Proof.
  induction fuel as [|fuel IH]; intros node n s Hfuel Hpre; [lia|].
  destruct Hpre as [n node Hrb Hred | n l k v r Hrb Hlred
                   | n l k v r Hl Hlb Hr Hrred].
  - (* a red node *)
    destruct (rb_red_inv _ _ Hrb Hred)
      as (l & k & v & r & -> & Hl & Hr & Hlb & Hrb').
    destruct (rb_black_cases _ _ Hr Hrb')
      as [[-> ->] | (m & rl & rk & rv & rr & -> & -> & Hrl & Hrr & Hrrb)].
    + rewrite (rb_0_black _ Hl Hlb). simpl.
      exists null, (s - 1), (k, v). repeat split; auto with llrb.
    + destruct (rb_S_black _ _ Hl Hlb)
        as (ll & lk & lv & lr & -> & Hll & Hlr & Hlrb).
      cbn [deleteMax_]. decide_tests.
      destruct (isRed rl) eqn:Hrlred.
      * (* the right child is a 3-node: descend *)
        decide_tests.
        destruct (IH (mkNode Black rl rk rv rr) (S m) s) as
          (r' & s' & e & Heq & Hs & Hrbr' & Hcol & Hin);
          [simpl in *; lia | auto with llrb |].
        rewrite Heq. cbn [bind].
        assert (Hr' : isRed r' = false)
          by (destruct (isRed r'); [discriminate (Hcol eq_refl)|reflexivity]).
        destruct (fixUp_red (S m) (mkNode Black ll lk lv lr) k v r')
          as [Hfix Hres]; auto with llrb.
        rewrite Hfix. cbn [bind].
        exists (mkNode Red (mkNode Black ll lk lv lr) k v r'), s', e.
        repeat split; auto.
        max_content Hin.
      * decide_tests. destruct (isRed ll) eqn:Hllred.
        -- (* borrow from the left sibling *)
           destruct (rb_red_inv _ _ Hll Hllred)
             as (lll & llk & llv & llr & -> & Hlll & Hllr & Hlllb & Hllrb).
           decide_tests.
           destruct (IH (mkNode Black lr k v (mkNode Red rl rk rv rr))
                       (S m) s) as
             (r' & s' & e & Heq & Hs & Hrbr' & Hcol & Hin);
             [simpl in *; lia | auto 10 with llrb |].
           rewrite Heq. cbn [bind].
           assert (Hr' : isRed r' = false)
             by (destruct (isRed r'); [discriminate (Hcol eq_refl)|reflexivity]).
           destruct (fixUp_red (S m) (mkNode Black lll llk llv llr) lk lv r')
             as [Hfix Hres]; auto with llrb.
           rewrite Hfix. cbn [bind].
           exists (mkNode Red (mkNode Black lll llk llv llr) lk lv r'), s', e.
           repeat split; auto.
           max_content Hin.
        -- (* merge with the left sibling *)
           decide_tests.
           destruct (IH (mkNode Red rl rk rv rr) m s) as
             (r' & s' & e & Heq & Hs & Hrbr' & Hcol & Hin);
             [simpl in *; lia | auto 10 with llrb |].
           rewrite Heq. cbn [bind].
           destruct (fixUp_black m (mkNode Red ll lk lv lr) k v r')
             as (node' & Hfix & Hres & Hc & Hino & _); auto with llrb.
           rewrite Hfix. cbn [bind].
           exists node', s', e. repeat split; auto.
           rewrite Hino. max_content Hin.
  - (* a black node with a red left child *)
    destruct (rb_black_inv _ _ _ _ _ Hrb) as (m & -> & Hl & Hr & Hrb').
    destruct (rb_red_inv _ _ Hl Hlred)
      as (ll & lk & lv & lr & -> & Hll & Hlr & Hllb & Hlrb).
    cbn [deleteMax_]. decide_tests.
    destruct (IH (mkNode Red lr k v r) m s) as
      (r' & s' & e & Heq & Hs & Hrbr' & Hcol & Hin);
      [simpl in *; lia | auto 10 with llrb |].
    rewrite Heq. cbn [bind].
    destruct (fixUp_black m ll lk lv r') as (node' & Hfix & Hres & Hc & Hino & _);
      auto.
    rewrite Hfix. cbn [bind].
    exists node', s', e. repeat split; auto.
    + intros Hnred. destruct (Hc Hnred) as [Hll' _]. congruence.
    + rewrite Hino. max_content Hin.
  - (* a black node with a red right child *)
    destruct (rb_red_inv _ _ Hr Hrred)
      as (rl & rk & rv & rr & -> & Hrl & Hrr & Hrlb & Hrrb).
    cbn [deleteMax_]. decide_tests.
    destruct (IH (mkNode Red rl rk rv rr) n s) as
      (r' & s' & e & Heq & Hs & Hrbr' & Hcol & Hin);
      [simpl in *; lia | auto 10 with llrb |].
    rewrite Heq. cbn [bind].
    destruct (fixUp_black n l k v r') as (node' & Hfix & Hres & Hc & Hino & _);
      auto.
    rewrite Hfix. cbn [bind].
    exists node', s', e. repeat split; auto.
    + intros Hnred. destruct (Hc Hnred) as [Hl' _]. congruence.
    + rewrite Hino. max_content Hin.
Qed.

(** ** Deleting a key *)

Lemma allKeys_absent_below (key k : Key) (node : Node) :
  allKeys (fun x => lessThan x k = true) node -> lessThan key k = false ->
  absent key node.
Proof.
  intros H Hk. eapply allKeys_impl; [|exact H]. simpl. intros x Hx.
  apply greaterThan_neq. eapply lt_le_trans; eassumption.
Qed.

Lemma allKeys_absent_above (key k : Key) (node : Node) :
  allKeys (fun x => lessThan k x = true) node -> lessThan k key = false ->
  absent key node.
Proof.
  intros H Hk. eapply allKeys_impl; [|exact H]. simpl. intros x Hx.
  apply lessThan_neq. eapply le_lt_trans; eassumption.
Qed.

Lemma del_list_none (key : Key) (node : Node) :
  absent key node -> del_list key (inorder node) = inorder node.
Proof. intros H. apply del_list_absent, allKeys_entries. exact H. Qed.

Lemma del_list_left (key : Key) (L : list (Key * Value)) (k : Key) (v : Value)
  (r : Node) :
  lessThan key k = true -> allKeys (fun x => lessThan k x = true) r ->
  del_list key (L ++ (k, v) :: inorder r) =
  del_list key L ++ (k, v) :: inorder r.
Proof.
  intros Hk Hr. rewrite del_list_app, del_list_cons, (lessThan_neq _ _ Hk).
  rewrite del_list_none; [reflexivity|].
  eapply allKeys_absent_above; [exact Hr|]. apply lessThan_asym. exact Hk.
Qed.

Lemma del_list_right (key : Key) (l : Node) (k : Key) (v : Value)
  (R : list (Key * Value)) :
  lessThan k key = true -> allKeys (fun x => lessThan x k = true) l ->
  del_list key (inorder l ++ (k, v) :: R) =
  inorder l ++ (k, v) :: del_list key R.
Proof.
  intros Hk Hl. rewrite del_list_app, del_list_cons, (greaterThan_neq _ _ Hk).
  rewrite del_list_none; [reflexivity|].
  eapply allKeys_absent_below; [exact Hl|]. apply lessThan_asym. exact Hk.
Qed.

Lemma del_list_root (l : Node) (k : Key) (v : Value) (r : Node) :
  allKeys (fun x => lessThan x k = true) l ->
  allKeys (fun x => lessThan k x = true) r ->
  del_list k (inorder l ++ (k, v) :: inorder r) = inorder l ++ inorder r.
Proof.
  intros Hl Hr. rewrite del_list_app, del_list_cons, equality_refl.
  rewrite !del_list_none; [reflexivity| |].
  - eapply allKeys_absent_above; [exact Hr|]. apply lessThan_irrefl.
  - eapply allKeys_absent_below; [exact Hl|]. apply lessThan_irrefl.
Qed.

Lemma min_inorder (c : Color) (l : Node) (k : Key) (v : Value) (r : Node) :
  exists c' l' k' v' r' rest,
    min_ (mkNode c l k v r) = Ok (mkNode c' l' k' v' r')
    /\ inorder (mkNode c l k v r) = (k', v') :: rest.
Proof.
  revert c k v r. induction l as [|lc ll IHl lk lv lr _]; intros c k v r.
  - simpl. eauto 10.
  - destruct (IHl lc lk lv lr) as (c' & l' & k' & v' & r' & rest & Hmin & Hin).
    cbn [min_]. cbn [min_] in Hmin. rewrite Hmin. cbn [inorder] in *.
    rewrite Hin. simpl. eauto 10.
Qed.

(** The order facts of the context, one per node and subtree. *)
Ltac order_facts :=
  cbn [bst allKeys absent] in *;
  repeat match goal with
    | H : _ /\ _ |- _ => destruct H
    | H : equality _ _ = true |- _ => apply equality_spec in H; subst
    end.

(** Comparisons that follow from the context by transitivity. *)
Ltac order_atom :=
  match goal with
  | |- lessThan _ _ = true =>
      solve [eauto 4 using lessThan_trans, lt_le_trans, le_lt_trans]
  | |- lessThan _ _ = false =>
      solve [ assumption | apply lessThan_irrefl
            | apply lessThan_asym;
              eauto 4 using lessThan_trans, lt_le_trans, le_lt_trans
            | eauto 3 using le_le_trans ]
  | |- equality _ _ = false =>
      solve [ assumption
            | apply lessThan_neq;
              eauto 4 using lessThan_trans, lt_le_trans, le_lt_trans
            | apply greaterThan_neq;
              eauto 4 using lessThan_trans, lt_le_trans, le_lt_trans ]
  end.

Ltac order_solve :=
  cbn [bst allKeys absent]; repeat split;
  match goal with
  | |- bst _ => assumption
  | |- True => exact I
  | H : allKeys _ ?X |- allKeys _ ?X =>
      solve [ exact H
            | eapply allKeys_impl; [|exact H]; cbv beta; intros; order_atom ]
  | |- _ => order_atom
  end.

(** The outcomes of a recursive call of [#delete], by [IHs]. *)
Ltac recursion IHs x sx :=
  match type of IHs with
  | deleted _ _ _ _ ?call =>
      destruct call as [[x sx]|[]|]; cbn [bind deleted] in IHs |- *;
      [ | | contradiction | contradiction]
  end.

Ltac recurse_on IH fuel key s SUB h x sx :=
  let IHs := fresh "IHs" in
  assert (IHs : deleted key h SUB s (delete_ fuel SUB key s))
    by (apply IH;
        [ simpl in *; lia
        | auto 10 with llrb
        | order_facts; order_solve
        | cbn; intros; first [congruence | order_facts; order_atom] ]);
  recursion IHs x sx.

Ltac black_result Hcol x :=
  let H := fresh "Hblack" in
  assert (H : isRed x = false)
    by (destruct (isRed x); [discriminate (Hcol eq_refl)|reflexivity]).

Lemma inorder_node (c : Color) (l : Node) (k : Key) (v : Value) (r : Node) :
  inorder (mkNode c l k v r) = inorder l ++ (k, v) :: inorder r.
Proof. reflexivity. Qed.

Lemma inorder_cons_nodes (node node' : Node) (e : Key * Value) :
  inorder node = e :: inorder node' -> nodes node = S (nodes node').
Proof.
  intros H. rewrite <- !length_inorder, H. reflexivity.
Qed.

(** The entry that [#min] finds is the one that [#deleteMin] removes. *)
Lemma min_deleteMin (c : Color) (l : Node) (k : Key) (v : Value) (r : Node)
  (e : Key * Value) (rest : Node) :
  inorder (mkNode c l k v r) = e :: inorder rest ->
  exists c' l' r',
    min_ (mkNode c l k v r) = Ok (mkNode c' l' (fst e) (snd e) r').
Proof.
  intros H.
  destruct (min_inorder c l k v r) as (c' & l' & k' & v' & r' & tl & Hmin & Hin).
  rewrite H in Hin. inv Hin. simpl. eauto.
Qed.

Ltac content_left Hino Hin :=
  rewrite Hino, Hin;
  rewrite <- del_list_left by (order_facts; order_solve);
  f_equal; list_eq.

Ltac content_right Hino Hin :=
  rewrite Hino, Hin;
  rewrite <- del_list_right by (order_facts; order_solve);
  f_equal; list_eq.

Ltac size_goal Hnodes := rewrite Hnodes; cbn [nodes] in *; lia.

Lemma delete_spec (fuel : nat) :
  forall (node : Node) (key : Key) (n : nat) (s : Z),
    (nodes node < fuel)%nat -> delpre n node -> bst node ->
    match node with
    | null => True
    | mkNode _ _ k _ r => isRed r = true -> lessThan key k = false
    end ->
    deleted key n node s (delete_ fuel node key s).
Proof.
  induction fuel as [|fuel IH]; intros node key n s Hfuel Hpre Hbst Hge; [lia|].
  destruct Hpre as [n node Hrb Hred | n l k v r Hrb Hlred
                   | n l k v r Hl Hlb Hr Hrred].
  - (* a red node *)
    destruct (rb_red_inv _ _ Hrb Hred)
      as (l & k & v & r & -> & Hl & Hr & Hlb & Hrb').
    clear Hge. cbn [delete_].
    destruct (lessThan key k) eqn:Hlt.
    + (* the key is on the left *)
      destruct (rb_black_cases _ _ Hl Hlb)
        as [[-> ->] | (m & ll & lk & lv & lr & -> & -> & Hll & Hlr & Hlrb)].
      * rewrite (rb_0_black _ Hr Hrb'). cbn [deleted]. order_facts. order_solve.
      * destruct (rb_S_black _ _ Hr Hrb')
          as (rl & rk & rv & rr & -> & Hrl & Hrr & Hrrb).
        decide_tests.
        destruct (isRed ll) eqn:Hllred.
        -- decide_tests.
           recurse_on IH fuel key s (mkNode Black ll lk lv lr) (S m) l' s'.
           ++ destruct IHs as (Hrbl' & Hcol & Hin & Hsz).
              black_result Hcol l'.
              destruct (fixUp_red' (S m) l' k v (mkNode Black rl rk rv rr))
                as (node' & Hfix & Hres & Hino & Hnodes); auto with llrb.
              rewrite Hfix. cbn [bind deleted]. repeat split; auto.
              ** content_left Hino Hin.
              ** size_goal Hnodes.
           ++ order_facts. order_solve.
        -- decide_tests. destruct (isRed rl) eqn:Hrlred.
           ++ destruct (rb_red_inv _ _ Hrl Hrlred)
                as (rll & rlk & rlv & rlr & -> & Hrll & Hrlr & Hrllb & Hrlrb).
              decide_tests.
              recurse_on IH fuel key s
                (mkNode Black (mkNode Red ll lk lv lr) k v rll) (S m) l' s'.
              ** destruct IHs as (Hrbl' & Hcol & Hin & Hsz).
                 black_result Hcol l'.
                 destruct (fixUp_red' (S m) l' rlk rlv
                             (mkNode Black rlr rk rv rr))
                   as (node' & Hfix & Hres & Hino & Hnodes); auto with llrb.
                 rewrite Hfix. cbn [bind deleted]. repeat split; auto.
                 --- content_left Hino Hin.
                 --- size_goal Hnodes.
              ** order_facts. order_solve.
           ++ decide_tests.
              recurse_on IH fuel key s (mkNode Red ll lk lv lr) m l' s'.
              ** destruct IHs as (Hrbl' & Hcol & Hin & Hsz).
                 destruct (fixUp_black m l' k v (mkNode Red rl rk rv rr))
                   as (node' & Hfix & Hres & Hc & Hino & Hnodes);
                   auto with llrb.
                 rewrite Hfix. cbn [bind deleted]. repeat split; auto.
                 --- content_left Hino Hin.
                 --- size_goal Hnodes.
              ** order_facts. order_solve.
    + (* the key is here or on the right *)
      destruct (rb_black_cases _ _ Hr Hrb')
        as [[-> ->] | (m & rl & rk & rv & rr & -> & -> & Hrl & Hrr & Hrrb)].
      * (* a red leaf *)
        rewrite (rb_0_black _ Hl Hlb). decide_tests.
        destruct (equality key k) eqn:Heq; decide_tests.
        -- repeat split; auto with llrb. lia.
        -- repeat split; auto with llrb.
      * destruct (rb_S_black _ _ Hl Hlb)
          as (ll & lk & lv & lr & -> & Hll & Hlr & Hlrb).
        decide_tests. rewrite andb_false_r.
        destruct (isRed rl) eqn:Hrlred.
        -- (* the right child is a 3-node *)
           decide_tests. destruct (equality key k) eqn:Heq.
           ++ (* the key is here: splice the successor in *)
              apply equality_spec in Heq. subst key. decide_tests.
              destruct (deleteMin_spec fuel (mkNode Black rl rk rv rr) (S m) s)
                as (r' & s' & e & Hdel & Hs & Hrbr' & Hcol & Hin);
                [simpl in *; lia | auto with llrb | assumption |].
              destruct (min_deleteMin _ _ _ _ _ _ _ Hin)
                as (c' & ml & mr & Hmin).
              cbn [min_] in Hmin |- *. rewrite Hmin. cbn [bind].
              rewrite Hdel. cbn [bind].
              black_result Hcol r'.
              destruct (fixUp_red' (S m) (mkNode Black ll lk lv lr)
                          (fst e) (snd e) r')
                as (node' & Hfix & Hres & Hino & Hnodes); auto with llrb.
              rewrite Hfix. cbn [bind deleted]. repeat split; auto.
              ** rewrite Hino, (inorder_node Red _ k v _).
                 rewrite del_list_root by (order_facts; order_solve).
                 rewrite Hin. destruct e; reflexivity.
              ** pose proof (inorder_cons_nodes _ _ _ Hin). size_goal Hnodes.
           ++ pose proof (neq_ge_lt _ _ Heq Hlt) as Hgt. decide_tests.
              recurse_on IH fuel key s (mkNode Black rl rk rv rr) (S m) r' s'.
              ** destruct IHs as (Hrbr' & Hcol & Hin & Hsz).
                 black_result Hcol r'.
                 destruct (fixUp_red' (S m) (mkNode Black ll lk lv lr) k v r')
                   as (node' & Hfix & Hres & Hino & Hnodes); auto with llrb.
                 rewrite Hfix. cbn [bind deleted]. repeat split; auto.
                 --- content_right Hino Hin.
                 --- size_goal Hnodes.
              ** order_facts. order_solve.
        -- decide_tests. destruct (isRed ll) eqn:Hllred.
           ++ (* borrow from the left sibling *)
              destruct (rb_red_inv _ _ Hll Hllred)
                as (lll & llk & llv & llr & -> & Hlll & Hllr & Hlllb & Hllrb).
              decide_tests.
              assert (Hlk : equality key lk = false)
                by (order_facts; order_atom).
              rewrite Hlk. decide_tests.
              recurse_on IH fuel key s
                (mkNode Black lr k v (mkNode Red rl rk rv rr)) (S m) r' s'.
              ** destruct IHs as (Hrbr' & Hcol & Hin & Hsz).
                 black_result Hcol r'.
                 destruct (fixUp_red' (S m) (mkNode Black lll llk llv llr)
                             lk lv r')
                   as (node' & Hfix & Hres & Hino & Hnodes); auto with llrb.
                 rewrite Hfix. cbn [bind deleted]. repeat split; auto.
                 --- content_right Hino Hin.
                 --- size_goal Hnodes.
              ** order_facts. order_solve.
           ++ (* merge with the left sibling *)
              decide_tests. destruct (equality key k) eqn:Heq.
              ** apply equality_spec in Heq. subst key. decide_tests.
                 destruct (deleteMin_spec fuel (mkNode Red rl rk rv rr) m s)
                   as (r' & s' & e & Hdel & Hs & Hrbr' & Hcol & Hin);
                   [simpl in *; lia | auto with llrb | assumption |].
                 destruct (min_deleteMin _ _ _ _ _ _ _ Hin)
                   as (c' & ml & mr & Hmin).
                 cbn [min_] in Hmin |- *. rewrite Hmin. cbn [bind].
                 rewrite Hdel. cbn [bind].
                 destruct (fixUp_black m (mkNode Red ll lk lv lr)
                             (fst e) (snd e) r')
                   as (node' & Hfix & Hres & Hc & Hino & Hnodes);
                   auto with llrb.
                 rewrite Hfix. cbn [bind deleted]. repeat split; auto.
                 --- rewrite Hino, (inorder_node Red _ k v _).
                     rewrite del_list_root by (order_facts; order_solve).
                     cbn [inorder] in *. rewrite Hin. destruct e; reflexivity.
                 --- pose proof (inorder_cons_nodes _ _ _ Hin).
                     size_goal Hnodes.
              ** pose proof (neq_ge_lt _ _ Heq Hlt) as Hgt. decide_tests.
                 recurse_on IH fuel key s (mkNode Red rl rk rv rr) m r' s'.
                 --- destruct IHs as (Hrbr' & Hcol & Hin & Hsz).
                     destruct (fixUp_black m (mkNode Red ll lk lv lr) k v r')
                       as (node' & Hfix & Hres & Hc & Hino & Hnodes);
                       auto with llrb.
                     rewrite Hfix. cbn [bind deleted]. repeat split; auto.
                     +++ content_right Hino Hin.
                     +++ size_goal Hnodes.
                 --- order_facts. order_solve.
  - (* a black node with a red left child *)
    destruct (rb_black_inv _ _ _ _ _ Hrb) as (m & -> & Hl & Hr & Hrb').
    destruct (rb_red_inv _ _ Hl Hlred)
      as (ll & lk & lv & lr & -> & Hll & Hlr & Hllb & Hlrb).
    clear Hge. cbn [delete_].
    destruct (lessThan key k) eqn:Hlt.
    + decide_tests.
      recurse_on IH fuel key s (mkNode Red ll lk lv lr) m l' s'.
      * destruct IHs as (Hrbl' & Hcol & Hin & Hsz).
        destruct (fixUp_black m l' k v r)
          as (node' & Hfix & Hres & Hc & Hino & Hnodes); auto.
        rewrite Hfix. cbn [bind deleted]. repeat split; auto.
        -- intros Hnred. destruct (Hc Hnred) as [_ Hr']. congruence.
        -- content_left Hino Hin.
        -- size_goal Hnodes.
      * order_facts. order_solve.
    + decide_tests.
      assert (Hlk : equality key lk = false) by (order_facts; order_atom).
      rewrite Hlk. decide_tests.
      recurse_on IH fuel key s (mkNode Red lr k v r) m r' s'.
      * destruct IHs as (Hrbr' & Hcol & Hin & Hsz).
        destruct (fixUp_black m ll lk lv r')
          as (node' & Hfix & Hres & Hc & Hino & Hnodes); auto.
        rewrite Hfix. cbn [bind deleted]. repeat split; auto.
        -- intros Hnred. destruct (Hc Hnred) as [Hll' _]. congruence.
        -- content_right Hino Hin.
        -- size_goal Hnodes.
      * order_facts. order_solve.
  - (* a black node with a red right child: the key is not on the left *)
    destruct (rb_red_inv _ _ Hr Hrred)
      as (rl & rk & rv & rr & -> & Hrl & Hrr & Hrlb & Hrrb).
    pose proof (Hge eq_refl) as Hlt. clear Hge.
    cbn [delete_]. decide_tests. rewrite andb_false_r.
    destruct (equality key k) eqn:Heq.
    + apply equality_spec in Heq. subst key. decide_tests.
      destruct (deleteMin_spec fuel (mkNode Red rl rk rv rr) n s)
        as (r' & s' & e & Hdel & Hs & Hrbr' & Hcol & Hin);
        [simpl in *; lia | auto with llrb | assumption |].
      destruct (min_deleteMin _ _ _ _ _ _ _ Hin) as (c' & ml & mr & Hmin).
      cbn [min_] in Hmin |- *. rewrite Hmin. cbn [bind].
      rewrite Hdel. cbn [bind].
      destruct (fixUp_black n l (fst e) (snd e) r')
        as (node' & Hfix & Hres & Hc & Hino & Hnodes); auto.
      rewrite Hfix. cbn [bind deleted]. repeat split; auto.
      * intros Hnred. destruct (Hc Hnred) as [Hl' _]. congruence.
      * rewrite Hino, (inorder_node Black _ k v _).
        rewrite del_list_root by (order_facts; order_solve).
        rewrite Hin. destruct e; reflexivity.
      * pose proof (inorder_cons_nodes _ _ _ Hin). size_goal Hnodes.
    + pose proof (neq_ge_lt _ _ Heq Hlt) as Hgt. decide_tests.
      recurse_on IH fuel key s (mkNode Red rl rk rv rr) n r' s'.
      * destruct IHs as (Hrbr' & Hcol & Hin & Hsz).
        destruct (fixUp_black n l k v r')
          as (node' & Hfix & Hres & Hc & Hino & Hnodes); auto.
        rewrite Hfix. cbn [bind deleted]. repeat split; auto.
        -- intros Hnred. destruct (Hc Hnred) as [Hl' _]. congruence.
        -- content_right Hino Hin.
        -- size_goal Hnodes.
      * order_facts. order_solve.
Qed.

(** ** The recursive deletions on a root of the other colour *)

Ltac fold_toggle :=
  repeat match goal with
    | |- context [mkNode (flipped ?c) ?l ?k ?v ?r] =>
        change (mkNode (flipped c) l k v r) with (toggle (mkNode c l k v r))
    end;
  rewrite ?moveRedLeft_toggle, ?moveRedRight_toggle, ?rotateRight_toggle,
    ?fixUp_toggle.

Ltac toggle_cases :=
  repeat (cbn [bind mapResult toggleFst toggle fst snd assert negb andb isNull];
          fold_toggle;
          try reflexivity;
          match goal with
          | |- context [isRed ?x] => destruct (isRed x)
          | |- context [isNull ?x] => destruct x
          | |- context [equality ?a ?b] => destruct (equality a b)
          | |- context [moveRedLeft ?x] =>
              destruct (moveRedLeft x) as [[|? ? ? ? ?]| |]
          | |- context [moveRedRight ?x] =>
              destruct (moveRedRight x) as [[|? ? ? ? ?]| |]
          | |- context [rotateRight ?x] =>
              destruct (rotateRight x) as [[|? ? ? ? ?]| |]
          | |- context [min_ ?x] => destruct (min_ x) as [[|? ? ? ? ?]| |]
          | |- context [deleteMin_ ?f ?x ?s] =>
              destruct (deleteMin_ f x s) as [[? ?]| |]
          | |- context [deleteMax_ ?f ?x ?s] =>
              destruct (deleteMax_ f x s) as [[? ?]| |]
          | |- context [delete_ ?f ?x ?k ?s] =>
              destruct (delete_ f x k s) as [[? ?]| |]
          | |- context [fixUp ?x] => destruct (fixUp x)
          | |- context [match ?x with null => _ | mkNode _ _ _ _ _ => _ end] =>
              is_var x; destruct x
          end).

Lemma deleteMin_toggle (fuel : nat) (node : Node) (s : Z) :
  deleteMin_ fuel (toggle node) s =
  mapResult toggleFst (deleteMin_ fuel node s).
Proof.
  destruct fuel; [reflexivity|]. destruct node as [|c l k v r]; [reflexivity|].
  cbn [toggle deleteMin_]. destruct l as [|lc ll lk lv lr]; [reflexivity|].
  toggle_cases.
Qed.

Lemma deleteMax_toggle (fuel : nat) (node : Node) (s : Z) :
  deleteMax_ fuel (toggle node) s =
  mapResult toggleFst (deleteMax_ fuel node s).
Proof.
  destruct fuel; [reflexivity|]. destruct node as [|c l k v r]; [reflexivity|].
  cbn [toggle deleteMax_]. toggle_cases.
Qed.

Lemma delete_toggle (fuel : nat) (node : Node) (key : Key) (s : Z) :
  delete_ fuel (toggle node) key s =
  mapResult toggleFst (delete_ fuel node key s).
Proof.
  destruct fuel; [reflexivity|]. destruct node as [|c l k v r]; [reflexivity|].
  cbn [toggle delete_]. destruct (lessThan key k).
  - destruct l as [|lc ll lk lv lr]; [reflexivity|]. toggle_cases.
  - toggle_cases.
Qed.

(** ** The public methods keep the invariants *)

Lemma paint_toggle (node : Node) : paint (toggle node) = paint node.
Proof. destruct node; reflexivity. Qed.

Lemma inorder_toggle (node : Node) : inorder (toggle node) = inorder node.
Proof. destruct node; reflexivity. Qed.

Lemma inorder_paint (node : Node) : inorder (paint node) = inorder node.
Proof. destruct node; reflexivity. Qed.

Lemma nodes_toggle (node : Node) : nodes (toggle node) = nodes node.
Proof. destruct node; reflexivity. Qed.

Lemma nodes_paint (node : Node) : nodes (paint node) = nodes node.
Proof. destruct node; reflexivity. Qed.

Lemma isRed_paint (node : Node) : isRed (paint node) = false.
Proof. destruct node; reflexivity. Qed.

Lemma rb_paint (n : nat) (node : Node) : rb n node -> exists m, rb m (paint node).
Proof.
  intros H. inv H; simpl; eauto with llrb.
Qed.

Lemma almost_paint (n : nat) (node : Node) :
  almost n node -> exists m, rb m (paint node).
Proof.
  intros H. inv H; [eapply rb_paint; eassumption|].
  simpl. eauto with llrb.
Qed.

(** A black root is in one of the states the recursive deletions expect, up
    to its own colour. *)
Lemma root_delpre (n : nat) (node : Node) :
  rb n node -> isRed node = false -> node <> null ->
  delpre n node /\ isRed (right node) = false
  \/ exists m red, node = toggle red /\ delpre m red /\ isRed red = true
                   /\ isRed (right red) = false.
Proof.
  intros Hrb Hblack Hnn.
  destruct (rb_black_cases _ _ Hrb Hblack)
    as [[-> ->] | (m & l & k & v & r & -> & -> & Hl & Hr & Hrblack)];
    [contradiction|].
  destruct (isRed l) eqn:Hlred.
  - left. split; [|assumption]. apply delpre_left; assumption.
  - right. exists m, (mkNode Red l k v r). repeat split; auto.
    apply delpre_red; auto with llrb.
Qed.

Lemma deletion_Ok (run : Node -> Z -> Result (Node * Z)) (t : Tree)
  (node' : Node) (s' : Z) :
  root t <> null -> run (root t) (size t) = Ok (node', s') ->
  deletion run t
  = Ok (s' <? size t, {| root := paint node'; size := s' |}).
Proof.
  intros Hnn Hrun. unfold deletion.
  destruct (root t) eqn:Hroot; [contradiction|].
  rewrite Hrun. cbn [bind]. destruct node'; reflexivity.
Qed.

Lemma deletion_Throw (run : Node -> Z -> Result (Node * Z)) (t : Tree)
  (e : Error) :
  root t <> null -> run (root t) (size t) = Throw e ->
  deletion run t = Throw e.
Proof.
  intros Hnn Hrun. unfold deletion.
  destruct (root t) eqn:Hroot; [contradiction|].
  rewrite Hrun. reflexivity.
Qed.

Lemma deletion_null (run : Node -> Z -> Result (Node * Z)) (t : Tree) :
  root t = null -> deletion run t = Ok (false, t).
Proof. intros H. unfold deletion. rewrite H. reflexivity. Qed.

Lemma deleteMin_root (n : nat) (node : Node) (s : Z) :
  rb n node -> isRed node = false -> node <> null ->
  exists node' s' e,
    deleteMin_ (S (nodes node)) node s = Ok (node', s')
    /\ s' = s - 1
    /\ (exists m, rb m (paint node'))
    /\ inorder node = e :: inorder node'.
Proof.
  intros Hrb Hblack Hnn.
  destruct (root_delpre _ _ Hrb Hblack Hnn)
    as [[Hpre Hright] | (m & red & -> & Hpre & Hred & Hright)].
  - destruct (deleteMin_spec (S (nodes node)) node n s)
      as (node' & s' & e & Heq & Hs & Hrb' & _ & Hin); auto.
    exists node', s', e. repeat split; auto. eapply rb_paint; eassumption.
  - rewrite nodes_toggle, deleteMin_toggle.
    destruct (deleteMin_spec (S (nodes red)) red m s)
      as (node' & s' & e & Heq & Hs & Hrb' & _ & Hin); auto.
    rewrite Heq. cbn [mapResult toggleFst fst snd].
    exists (toggle node'), s', e. repeat split; auto.
    + rewrite paint_toggle. eapply rb_paint; eassumption.
    + rewrite !inorder_toggle. assumption.
Qed.

Lemma deleteMax_root (n : nat) (node : Node) (s : Z) :
  rb n node -> isRed node = false -> node <> null ->
  exists node' s' e,
    deleteMax_ (S (nodes node)) node s = Ok (node', s')
    /\ s' = s - 1
    /\ (exists m, rb m (paint node'))
    /\ inorder node = inorder node' ++ [e].
Proof.
  intros Hrb Hblack Hnn.
  destruct (root_delpre _ _ Hrb Hblack Hnn)
    as [[Hpre Hright] | (m & red & -> & Hpre & Hred & Hright)].
  - destruct (deleteMax_spec (S (nodes node)) node n s)
      as (node' & s' & e & Heq & Hs & Hrb' & _ & Hin); auto.
    exists node', s', e. repeat split; auto. eapply rb_paint; eassumption.
  - rewrite nodes_toggle, deleteMax_toggle.
    destruct (deleteMax_spec (S (nodes red)) red m s)
      as (node' & s' & e & Heq & Hs & Hrb' & _ & Hin); auto.
    rewrite Heq. cbn [mapResult toggleFst fst snd].
    exists (toggle node'), s', e. repeat split; auto.
    + rewrite paint_toggle. eapply rb_paint; eassumption.
    + rewrite !inorder_toggle. assumption.
Qed.

Lemma bst_toggle (node : Node) : bst (toggle node) <-> bst node.
Proof. destruct node; simpl; tauto. Qed.

Lemma absent_toggle (key : Key) (node : Node) :
  absent key (toggle node) <-> absent key node.
Proof. destruct node; unfold absent; simpl; tauto. Qed.

Lemma delete_root (n : nat) (node : Node) (key : Key) (s : Z) :
  rb n node -> isRed node = false -> node <> null -> bst node ->
  deletedRoot key node s (delete_ (S (nodes node)) node key s).
Proof.
  intros Hrb Hblack Hnn Hbst.
  destruct (root_delpre _ _ Hrb Hblack Hnn)
    as [[Hpre Hright] | (m & red & -> & Hpre & Hred & Hright)].
  - pose proof (delete_spec (S (nodes node)) node key n s) as H.
    destruct node as [|c l k v r]; [contradiction|].
    simpl in Hright.
    specialize (H (Nat.lt_succ_diag_r _) Hpre Hbst).
    cbn beta iota in H. specialize (H ltac:(intros; congruence)).
    destruct (delete_ _ _ key s) as [[node' s']|[]|]; cbn [deleted deletedRoot] in *;
      auto.
    destruct H as (Hrb' & _ & Hin & Hs). repeat split; auto.
    eapply rb_paint; eassumption.
  - rewrite nodes_toggle, delete_toggle.
    pose proof (delete_spec (S (nodes red)) red key m s) as H.
    destruct red as [|c l k v r]; [discriminate|].
    simpl in Hright.
    specialize (H (Nat.lt_succ_diag_r _) Hpre (proj1 (bst_toggle _) Hbst)).
    cbn beta iota in H. specialize (H ltac:(intros; congruence)).
    destruct (delete_ _ _ key s) as [[node' s']|[]|];
      cbn [mapResult toggleFst fst snd deleted deletedRoot] in *; auto.
    destruct H as (Hrb' & _ & Hin & Hs). repeat split; auto.
    + rewrite paint_toggle. eapply rb_paint; eassumption.
    + rewrite inorder_toggle. exact Hin.
    + rewrite nodes_toggle. exact Hs.
Qed.

Lemma ordered_tail (a : Key) (l : list Key) : ordered (a :: l) -> ordered l.
Proof. simpl. tauto. Qed.

Lemma ordered_front (l : list Key) (a : Key) : ordered (l ++ [a]) -> ordered l.
Proof. rewrite ordered_app. tauto. Qed.

Lemma length_del_list (key : Key) (l : list (Key * Value)) :
  (length (del_list key l) <= length l)%nat
  /\ ((length (del_list key l) < length l)%nat <-> In key (map fst l)).
Proof.
  induction l as [|[a b] l [IH1 IH2]]; [simpl; split; [lia|split; [lia|tauto]]|].
  rewrite del_list_cons. destruct (equality key a) eqn:Ha; simpl.
  - apply equality_spec in Ha. subst a. split; [lia|]. split; [auto|lia].
  - split; [lia|]. split.
    + intros H. right. apply IH2. lia.
    + intros [H|H]; [subst; rewrite equality_refl in Ha; discriminate|].
      apply IH2 in H. lia.
Qed.

Lemma absent_In (key : Key) (node : Node) :
  absent key node <-> ~ In key (keysOf node).
Proof.
  unfold absent. rewrite allKeys_Forall, Forall_forall. split.
  - intros H Hin. specialize (H key Hin). rewrite equality_refl in H.
    discriminate.
  - intros H x Hx. apply equality_false. intros ->. contradiction.
Qed.

Lemma set_Inv (t : Tree) (key : Key) (value : Value) :
  Inv t ->
  exists t',
    set t key value = Ok t' /\ Inv t'
    /\ inorder (root t') = ins_list key value (inorder (root t)).
Proof.
  intros ((n & Hrb) & Hblack & Hbst & Hsize).
  destruct (set_total (root t) key value (size t))
    as (c & l & k & v & r & s' & Heq).
  destruct (set_rb (root t) key value (size t) n Hrb)
    as (node' & s'' & Heq' & Hpost).
  rewrite Heq in Heq'. inv Heq'. rewrite Hblack in Hpost.
  destruct (set_inorder _ _ _ _ _ _ Hbst Heq) as [Hin Hsz].
  unfold set. rewrite Heq. cbn [bind blacken].
  eexists. split; [reflexivity|]. split; [|exact Hin].
  unfold Inv, sizeOk in *. cbn [root size].
  split; [|split; [reflexivity|split]].
  - apply (rb_paint _ _ Hpost).
  - apply bst_ordered. unfold keysOf.
    change (inorder (mkNode Black l k v r)) with (inorder (mkNode c l k v r)).
    rewrite Hin.
    apply ordered_ins_list. apply bst_ordered in Hbst. exact Hbst.
  - cbn [nodes] in *. lia.
Qed.

Lemma deleteMin_Inv (t : Tree) :
  Inv t -> root t <> null ->
  exists t' e,
    deleteMin t = Ok (true, t') /\ Inv t'
    /\ inorder (root t) = e :: inorder (root t')
    /\ size t' = size t - 1.
Proof.
  intros ((n & Hrb) & Hblack & Hbst & Hsize) Hnn.
  destruct (deleteMin_root n (root t) (size t) Hrb Hblack Hnn)
    as (node' & s' & e & Heq & Hs & Hrb' & Hin).
  unfold deleteMin. rewrite (deletion_Ok _ t node' s' Hnn Heq).
  replace (s' <? size t) with true by (symmetry; apply Z.ltb_lt; lia).
  eexists. exists e. split; [reflexivity|].
  unfold Inv, sizeOk in *. cbn [root size].
  rewrite inorder_paint. repeat split; auto.
  - apply isRed_paint.
  - apply bst_ordered. unfold keysOf. rewrite inorder_paint.
    apply bst_ordered in Hbst. unfold keysOf in Hbst. rewrite Hin in Hbst.
    apply (ordered_tail _ _ Hbst).
  - rewrite nodes_paint.
    rewrite (inorder_cons_nodes _ _ _ Hin) in Hsize. lia.
Qed.

Lemma deleteMax_Inv (t : Tree) :
  Inv t -> root t <> null ->
  exists t' e,
    deleteMax t = Ok (true, t') /\ Inv t'
    /\ inorder (root t) = inorder (root t') ++ [e]
    /\ size t' = size t - 1.
Proof.
  intros ((n & Hrb) & Hblack & Hbst & Hsize) Hnn.
  destruct (deleteMax_root n (root t) (size t) Hrb Hblack Hnn)
    as (node' & s' & e & Heq & Hs & Hrb' & Hin).
  unfold deleteMax. rewrite (deletion_Ok _ t node' s' Hnn Heq).
  replace (s' <? size t) with true by (symmetry; apply Z.ltb_lt; lia).
  eexists. exists e. split; [reflexivity|].
  unfold Inv, sizeOk in *. cbn [root size].
  rewrite inorder_paint. repeat split; auto.
  - apply isRed_paint.
  - apply bst_ordered. unfold keysOf. rewrite inorder_paint.
    apply bst_ordered in Hbst. unfold keysOf in Hbst. rewrite Hin in Hbst.
    rewrite map_app in Hbst. apply (ordered_front _ _ Hbst).
  - rewrite nodes_paint.
    assert (Hn : nodes (root t) = S (nodes node')).
    { rewrite <- !length_inorder, Hin, length_app. simpl. lia. }
    lia.
Qed.

(** The outcome of the public [delete]. *)
Lemma delete_Inv (t : Tree) (key : Key) :
  Inv t ->
  match delete t key with
  | Ok (b, t') =>
      Inv t'
      /\ inorder (root t') = del_list key (inorder (root t))
      /\ (b = true <-> In key (keysOf (root t)))
  | Throw AssertionError => ~ In key (keysOf (root t))
  | Throw TypeError => False
  | OutOfFuel => False
  end.
Proof.
  intros ((n & Hrb) & Hblack & Hbst & Hsize). unfold delete.
  destruct (root t) as [|c l k v r] eqn:Hroot.
  - rewrite deletion_null by assumption.
    unfold Inv, sizeOk in *. rewrite Hroot in *. simpl.
    repeat split; eauto with llrb; (discriminate || tauto).
  - assert (Hnn : root t <> null) by (rewrite Hroot; discriminate).
    pose proof (delete_root n _ key (size t) Hrb Hblack
                  ltac:(discriminate) Hbst) as H.
    rewrite <- Hroot in *.
    destruct (delete_ (S (nodes (root t))) (root t) key (size t))
      as [[node' s']|[]|] eqn:Heq; cbn [deletedRoot] in H.
    + rewrite (deletion_Ok _ t node' s' Hnn Heq).
      destruct H as (Hrb' & Hin & Hs).
      unfold Inv, sizeOk in *. cbn [root size].
      rewrite inorder_paint.
      pose proof (length_del_list key (inorder (root t))) as [Hlen1 Hlen2].
      rewrite <- Hin, !length_inorder in Hlen1, Hlen2.
      repeat split; auto.
      * apply isRed_paint.
      * apply bst_ordered. unfold keysOf. rewrite inorder_paint, Hin.
        apply ordered_del_list. apply bst_ordered in Hbst. exact Hbst.
      * rewrite nodes_paint. lia.
      * intros Hb. apply Z.ltb_lt in Hb. apply Hlen2. lia.
      * intros Hk. apply Z.ltb_lt. apply Hlen2 in Hk. lia.
    + rewrite (deletion_Throw _ t _ Hnn Heq). apply absent_In. exact H.
    + contradiction.
    + contradiction.
Qed.

Lemma empty_Inv : Inv (empty : Tree).
Proof.
  unfold Inv, sizeOk. simpl. repeat split; eauto with llrb.
Qed.

Lemma clear_Inv (t : Tree) : Inv (clear t).
Proof. exact empty_Inv. Qed.

Lemma setAll_Inv (iterable : list (Key * Value)) :
  forall t : Tree, Inv t -> exists t', setAll iterable t = Ok t' /\ Inv t'.
Proof.
  induction iterable as [|[k v] rest IH]; intros t Ht; simpl.
  - eauto.
  - destruct (set_Inv t k v Ht) as (t1 & Heq & Ht1 & _). rewrite Heq.
    cbn [bind]. apply IH. exact Ht1.
Qed.

Lemma call_Inv (c : Call Key Value) (t t' : Tree) :
  Inv t -> call c t = Ok t' -> Inv t'.
Proof.
  intros Ht H. destruct c as [key value|key| | |]; cbn [call] in H.
  - destruct (set_Inv t key value Ht) as (t1 & Heq & Ht1 & _).
    rewrite Heq in H. inv H. exact Ht1.
  - pose proof (delete_Inv t key Ht) as Hd.
    destruct (delete t key) as [[b t1]|[]|]; cbn [bind] in H; try discriminate.
    inv H. apply Hd.
  - destruct (root t) eqn:Hroot.
    + unfold deleteMin in H. rewrite deletion_null in H by assumption.
      cbn [bind] in H. inv H. exact Ht.
    + destruct (deleteMin_Inv t Ht) as (t1 & e & Heq & Ht1 & _);
        [rewrite Hroot; discriminate|].
      rewrite Heq in H. cbn [bind] in H. inv H. exact Ht1.
  - destruct (root t) eqn:Hroot.
    + unfold deleteMax in H. rewrite deletion_null in H by assumption.
      cbn [bind] in H. inv H. exact Ht.
    + destruct (deleteMax_Inv t Ht) as (t1 & e & Heq & Ht1 & _);
        [rewrite Hroot; discriminate|].
      rewrite Heq in H. cbn [bind] in H. inv H. exact Ht1.
  - inv H. apply clear_Inv.
Qed.

Lemma run_Inv (calls : list (Call Key Value)) :
  forall t t' : Tree, Inv t -> run calls t = Ok t' -> Inv t'.
Proof.
  induction calls as [|c rest IH]; intros t t' Ht H; simpl in H.
  - inv H. exact Ht.
  - destruct (call c t) as [t1| |] eqn:Hc; cbn [bind] in H; try discriminate.
    eapply IH; [|exact H]. eapply call_Inv; eassumption.
Qed.

Lemma reachable_Inv (t : Tree) : reachable t -> Inv t.
Proof.
  intros (iterable & calls & t0 & Hc & Hr).
  destruct (setAll_Inv iterable empty empty_Inv) as (t1 & Heq & Ht1).
  unfold construct in Hc. rewrite Heq in Hc. inv Hc.
  eapply run_Inv; eassumption.
Qed.

(** ** Iterators *)

Lemma entriesLoop_spec (node : Node) :
  forall stack : list Node,
    Forall (fun n => isNull n = false) stack ->
    match inorder node ++ stackEntries stack with
    | [] => exists it', entriesLoop node stack = Ok (Done _, it')
    | e :: rest =>
        exists it',
          entriesLoop node stack = Ok (Yield e, it')
          /\ stackOk it' /\ pending it' = rest
    end.
Proof.
  induction node as [|c l IHl k v r _]; intros stack Hstack.
  - cbn [inorder entriesLoop app]. destruct stack as [|last stack].
    + simpl. eauto.
    + inv Hstack. destruct last as [|c l k v r]; [discriminate|].
      simpl. eexists. split; [reflexivity|]. split; [assumption|reflexivity].
  - cbn [entriesLoop].
    specialize (IHl (mkNode c l k v r :: stack)
                  ltac:(constructor; [reflexivity|assumption])).
    cbn [inorder stackEntries flat_map] in *.
    rewrite <- app_assoc. exact IHl.
Qed.

Lemma collect_entries (fuel : nat) :
  forall it : EntriesIterator Key Value,
    stackOk it -> (length (pending it) < fuel)%nat ->
    collect entriesNext fuel it = Ok (pending it).
Proof.
  induction fuel as [|fuel IH]; intros it Hok Hfuel; [lia|].
  cbn [collect]. unfold entriesNext.
  pose proof (entriesLoop_spec (it_node it) (it_stack it) Hok) as H.
  fold (pending it) in H. destruct (pending it) as [|e rest].
  - destruct H as (it' & ->). reflexivity.
  - destruct H as (it' & -> & Hok' & Hrest). cbn [bind].
    rewrite IH; [rewrite Hrest; reflexivity | assumption |].
    rewrite Hrest. simpl in Hfuel. lia.
Qed.

Lemma entries_collect (t : Tree) :
  collect entriesNext (S (nodes (root t))) (entries t)
  = Ok (inorder (root t)).
Proof.
  rewrite collect_entries.
  - unfold pending, entries. simpl. rewrite app_nil_r. reflexivity.
  - constructor.
  - unfold pending, entries. simpl. rewrite app_nil_r, length_inorder. lia.
Qed.

Lemma collect_keys (fuel : nat) :
  forall it : EntriesIterator Key Value,
    collect keysNext fuel {| keys_iterator := it |}
    = mapResult (map fst) (collect entriesNext fuel it).
Proof.
  induction fuel as [|fuel IH]; intros it; [reflexivity|].
  cbn [collect]. unfold keysNext. cbn [keys_iterator].
  destruct (entriesNext it) as [[[|e] it']| |]; cbn [bind mapResult];
    try reflexivity.
  rewrite IH. destruct (collect entriesNext fuel it'); reflexivity.
Qed.

Lemma collect_values (fuel : nat) :
  forall it : EntriesIterator Key Value,
    collect valuesNext fuel {| values_iterator := it |}
    = mapResult (map snd) (collect entriesNext fuel it).
Proof.
  induction fuel as [|fuel IH]; intros it; [reflexivity|].
  cbn [collect]. unfold valuesNext. cbn [values_iterator].
  destruct (entriesNext it) as [[[|e] it']| |]; cbn [bind mapResult];
    try reflexivity.
  rewrite IH. destruct (collect entriesNext fuel it'); reflexivity.
Qed.

(** ** Queries *)

Lemma keysOf_node (c : Color) (l : Node) (k : Key) (v : Value) (r : Node) :
  keysOf (mkNode c l k v r) = keysOf l ++ k :: keysOf r.
Proof. unfold keysOf. simpl. rewrite map_app. reflexivity. Qed.

Lemma In_keysOf_node (q : Key) (c : Color) (l : Node) (k : Key) (v : Value)
  (r : Node) :
  In q (keysOf (mkNode c l k v r)) <->
  In q (keysOf l) \/ q = k \/ In q (keysOf r).
Proof.
  rewrite keysOf_node, in_app_iff. simpl. intuition auto.
Qed.

Lemma allKeys_In (P : Key -> Prop) (node : Node) (q : Key) :
  allKeys P node -> In q (keysOf node) -> P q.
Proof.
  intros H Hq. apply allKeys_Forall in H. rewrite Forall_forall in H. auto.
Qed.

Lemma get_lookup (node : Node) (key : Key) :
  bst node -> foundValue (get_ node key) = lookup key (inorder node).
Proof.
  induction node as [|c l IHl k v r IHr]; intros Hbst; [reflexivity|].
  destruct Hbst as (Hl & Hr & Hlk & Hkr).
  cbn [get_ inorder]. rewrite lookup_split by (apply allKeys_entries; assumption).
  destruct (equality key k); [reflexivity|].
  destruct (lessThan key k); auto.
Qed.

Lemma get_spec (t : Tree) (key : Key) :
  bst (root t) -> get t key = lookup key (inorder (root t)).
Proof. intros H. rewrite <- get_lookup by assumption. reflexivity. Qed.

Lemma lookup_Some_iff (key : Key) (l : list (Key * Value)) :
  lookup key l <> None <-> In key (map fst l).
Proof.
  induction l as [|[a b] l IH]; simpl; [tauto|].
  destruct (equality key a) eqn:Ha.
  - apply equality_spec in Ha. subst. split; [auto|discriminate].
  - rewrite IH. split; [auto|]. intros [H|H]; [|assumption].
    subst. rewrite equality_refl in Ha. discriminate.
Qed.

Lemma get_In (t : Tree) (key : Key) :
  bst (root t) -> (get t key <> None <-> In key (keysOf (root t))).
Proof.
  intros H. rewrite get_spec by assumption. apply lookup_Some_iff.
Qed.

Lemma previous_spec (node : Node) (key : Key) :
  bst node -> isPredecessor (keysOf node) key (foundKey (previous_ node key)).
Proof.
  induction node as [|c l IHl k v r IHr]; intros Hbst.
  - simpl. tauto.
  - destruct Hbst as (Hl & Hr & Hlk & Hkr).
    specialize (IHl Hl). specialize (IHr Hr).
    cbn [previous_]. rewrite lessThanOrEqual_spec.
    destruct (lessThan k key) eqn:Hk; cbn [negb].
    + destruct (previous_ r key) as [|pc pl p pv pr]; cbn [foundKey] in *.
      * unfold isPredecessor in *. split; [|split]; auto.
        -- apply In_keysOf_node. auto.
        -- intros q Hq Hqk. apply In_keysOf_node in Hq.
           destruct Hq as [Hq|[->|Hq]].
           ++ apply lessThan_asym. apply (allKeys_In _ _ _ Hlk Hq).
           ++ apply lessThan_irrefl.
           ++ rewrite (IHr q Hq) in Hqk. discriminate.
      * destruct IHr as (Hp & Hpk & Hmax). split; [|split]; auto.
        -- apply In_keysOf_node. auto.
        -- intros q Hq Hqk. apply In_keysOf_node in Hq.
           pose proof (allKeys_In _ _ _ Hkr Hp) as Hkp. cbv beta in Hkp.
           destruct Hq as [Hq|[->|Hq]].
           ++ apply lessThan_asym. eapply lessThan_trans; [|exact Hkp].
              apply (allKeys_In _ _ _ Hlk Hq).
           ++ apply lessThan_asym. exact Hkp.
           ++ auto.
    + destruct (previous_ l key) as [|pc pl p pv pr]; cbn [foundKey] in *.
      * intros q Hq. apply In_keysOf_node in Hq.
        destruct Hq as [Hq|[->|Hq]]; auto.
        pose proof (allKeys_In _ _ _ Hkr Hq) as Hkq. cbv beta in Hkq.
        destruct (lessThan q key) eqn:Hqk; [|reflexivity].
        rewrite (lessThan_trans _ _ _ Hkq Hqk) in Hk. discriminate.
      * destruct IHl as (Hp & Hpk & Hmax). split; [|split]; auto.
        -- apply In_keysOf_node. auto.
        -- intros q Hq Hqk. apply In_keysOf_node in Hq.
           destruct Hq as [Hq|[->|Hq]]; auto.
           ++ congruence.
           ++ pose proof (allKeys_In _ _ _ Hkr Hq) as Hkq. cbv beta in Hkq.
              rewrite (lessThan_trans _ _ _ Hkq Hqk) in Hk. discriminate.
Qed.

Lemma next_spec (node : Node) (key : Key) :
  bst node -> isSuccessor (keysOf node) key (foundKey (next_ node key)).
Proof.
  induction node as [|c l IHl k v r IHr]; intros Hbst.
  - simpl. tauto.
  - destruct Hbst as (Hl & Hr & Hlk & Hkr).
    specialize (IHl Hl). specialize (IHr Hr).
    cbn [next_]. rewrite greaterThanOrEqual_spec.
    destruct (lessThan key k) eqn:Hk; cbn [negb].
    + destruct (next_ l key) as [|pc pl p pv pr]; cbn [foundKey] in *.
      * unfold isSuccessor in *. split; [|split]; auto.
        -- apply In_keysOf_node. auto.
        -- intros q Hq Hqk. apply In_keysOf_node in Hq.
           destruct Hq as [Hq|[->|Hq]].
           ++ rewrite (IHl q Hq) in Hqk. discriminate.
           ++ apply lessThan_irrefl.
           ++ apply lessThan_asym. apply (allKeys_In _ _ _ Hkr Hq).
      * destruct IHl as (Hp & Hpk & Hmin). split; [|split]; auto.
        -- apply In_keysOf_node. auto.
        -- intros q Hq Hqk. apply In_keysOf_node in Hq.
           pose proof (allKeys_In _ _ _ Hlk Hp) as Hpk'. cbv beta in Hpk'.
           destruct Hq as [Hq|[->|Hq]].
           ++ auto.
           ++ apply lessThan_asym. exact Hpk'.
           ++ apply lessThan_asym. eapply lessThan_trans; [exact Hpk'|].
              apply (allKeys_In _ _ _ Hkr Hq).
    + destruct (next_ r key) as [|pc pl p pv pr]; cbn [foundKey] in *.
      * intros q Hq. apply In_keysOf_node in Hq.
        destruct Hq as [Hq|[->|Hq]]; auto.
        pose proof (allKeys_In _ _ _ Hlk Hq) as Hqk. cbv beta in Hqk.
        destruct (lessThan key q) eqn:Hkq; [|reflexivity].
        rewrite (lessThan_trans _ _ _ Hkq Hqk) in Hk. discriminate.
      * destruct IHr as (Hp & Hpk & Hmin). split; [|split]; auto.
        -- apply In_keysOf_node. auto.
        -- intros q Hq Hqk. apply In_keysOf_node in Hq.
           destruct Hq as [Hq|[->|Hq]]; auto.
           ++ pose proof (allKeys_In _ _ _ Hlk Hq) as Hqk'. cbv beta in Hqk'.
              rewrite (lessThan_trans _ _ _ Hqk Hqk') in Hk. discriminate.
           ++ congruence.
Qed.

Lemma max_inorder (c : Color) (l : Node) (k : Key) (v : Value) (r : Node) :
  exists c' l' k' v' r' rest,
    max_ (mkNode c l k v r) = Ok (mkNode c' l' k' v' r')
    /\ inorder (mkNode c l k v r) = rest ++ [(k', v')].
Proof.
  revert c l k v. induction r as [|rc rl _ rk rv rr IHr]; intros c l k v.
  - simpl. exists c, l, k, v, null, (inorder l). split; reflexivity.
  - destruct (IHr rc rl rk rv) as (c' & l' & k' & v' & r' & rest & Hmax & Hin).
    cbn [max_]. cbn [max_] in Hmax. rewrite Hmax. cbn [inorder] in *.
    rewrite Hin. exists c', l', k', v', r', (inorder l ++ (k, v) :: rest).
    split; [reflexivity|]. rewrite <- app_assoc. reflexivity.
Qed.

(** ** Updating a stored key *)

Lemma isRed_shape (a b : Node) : shape a = shape b -> isRed a = isRed b.
Proof.
  destruct a as [|[] ? ? ? ?], b as [|[] ? ? ? ?]; simpl; intros H;
    reflexivity || discriminate.
Qed.

Lemma left_shape (a b : Node) :
  shape a = shape b -> shape (left a) = shape (left b).
Proof.
  destruct a, b; simpl; intros H; try reflexivity; try discriminate.
  injection H. auto.
Qed.

Lemma rb_shape (n : nat) (a : Node) :
  rb n a -> forall b : Node, shape a = shape b -> rb n b.
Proof.
  induction 1 as [|n l k v r Hl IHl Hr IHr Hlb Hrb
                  |n l k v r Hl IHl Hr IHr Hrb]; intros b Hs.
  - destruct b; [constructor|discriminate].
  - destruct b as [|c bl bk bv br]; [discriminate|]. simpl in Hs.
    injection Hs as <- Hsl <- Hsr. constructor; auto.
    + rewrite <- (isRed_shape _ _ Hsl). assumption.
    + rewrite <- (isRed_shape _ _ Hsr). assumption.
  - destruct b as [|c bl bk bv br]; [discriminate|]. simpl in Hs.
    injection Hs as <- Hsl <- Hsr. constructor; auto.
    rewrite <- (isRed_shape _ _ Hsr). assumption.
Qed.

Lemma rb_node_inv (n : nat) (c : Color) (l : Node) (k : Key) (v : Value)
  (r : Node) :
  rb n (mkNode c l k v r) ->
  exists m, rb m l /\ rb m r /\ isRed r = false
            /\ (isRed l = true -> isRed (left l) = false).
Proof.
  intros H. inv H.
  - exists n. repeat split; auto. congruence.
  - eexists. repeat split; eauto. intros Hl. eapply rb_red_left; eauto.
Qed.

Lemma set_existing (node : Node) (key : Key) (value : Value) (s : Z) :
  forall n : nat,
    rb n node -> bst node -> In key (keysOf node) ->
    exists node',
      set_ node key value s = Ok (node', s) /\ shape node' = shape node.
Proof.
  induction node as [|c l IHl k v r IHr]; intros n Hrb Hbst Hin.
  - contradiction.
  - destruct (rb_node_inv _ _ _ _ _ _ Hrb) as (m & Hl & Hr & Hrblack & Hleft).
    destruct Hbst as (Hbl & Hbr & Hlk & Hkr).
    apply In_keysOf_node in Hin. cbn [set_].
    destruct (equality key k) eqn:Heq.
    + cbn [bind]. rewrite fixUp_id by assumption. cbn [bind].
      eexists. split; reflexivity.
    + destruct (lessThan key k) eqn:Hlt.
      * assert (Hinl : In key (keysOf l)).
        { destruct Hin as [H|[->|H]]; [assumption| |].
          - rewrite equality_refl in Heq. discriminate.
          - pose proof (allKeys_In _ _ _ Hkr H) as Hk. cbv beta in Hk.
            rewrite (lessThan_asym _ _ Hk) in Hlt. discriminate. }
        destruct (IHl m Hl Hbl Hinl) as (l' & Hset & Hshape).
        rewrite Hset. cbn [bind].
        rewrite fixUp_id; [|assumption|].
        -- cbn [bind]. eexists. split; [reflexivity|]. simpl.
           rewrite Hshape. reflexivity.
        -- intros Hl'. eapply rb_red_left; [|exact Hl'].
           eapply rb_shape; [exact Hl|]. symmetry. exact Hshape.
      * assert (Hinr : In key (keysOf r)).
        { destruct Hin as [H|[->|H]]; [| |assumption].
          - pose proof (allKeys_In _ _ _ Hlk H) as Hk. cbv beta in Hk.
            congruence.
          - rewrite equality_refl in Heq. discriminate. }
        destruct (IHr m Hr Hbr Hinr) as (r' & Hset & Hshape).
        rewrite Hset. cbn [bind].
        rewrite fixUp_id; [| |assumption].
        -- cbn [bind]. eexists. split; [reflexivity|]. simpl.
           rewrite Hshape. reflexivity.
        -- rewrite (isRed_shape _ _ Hshape). assumption.
Qed.

Lemma length_ins_list (key : Key) (value : Value) (l : list (Key * Value)) :
  ordered (map fst l) ->
  length (ins_list key value l)
  = match lookup key l with
    | Some _ => length l
    | None => S (length l)
    end.
Proof.
  induction l as [|[a b] l IH]; simpl; [reflexivity|]. intros [Ha Hl].
  destruct (equality key a); [reflexivity|].
  destruct (lessThan key a) eqn:Hlt; simpl.
  - rewrite lookup_None; [reflexivity|].
    eapply Forall_impl; [|exact Ha]. simpl. intros x Hx.
    apply lessThan_neq. eapply lessThan_trans; eassumption.
  - rewrite (IH Hl). destruct (lookup key l); reflexivity.
Qed.

(** ** Draining a tree from either end *)

Lemma Sorted_snoc {A : Type} (R : A -> A -> Prop) (l : list A) (a : A) :
  Sorted R l -> (forall x, In x l -> R x a) -> Sorted R (l ++ [a]).
Proof.
  induction l as [|b l IH]; simpl; intros Hs Hall.
  - repeat constructor.
  - inv Hs. constructor; [apply IH; auto|].
    destruct l; simpl; constructor; [apply Hall; auto|].
    inv H2. assumption.
Qed.

Lemma ordered_rev_Sorted (l : list Key) :
  ordered l -> Sorted (fun a b => lessThan b a = true) (rev l).
Proof.
  induction l as [|a l IH]; simpl; [constructor|].
  intros [Ha Hl]. apply Sorted_snoc; [auto|].
  intros x Hx. apply in_rev in Hx. rewrite Forall_forall in Ha. auto.
Qed.

Lemma min_spec (t : Tree) (k : Key) (v : Value) (rest : list (Key * Value)) :
  inorder (root t) = (k, v) :: rest -> min t = Ok (Some k).
Proof.
  intros H. unfold min. destruct (root t) as [|c l k0 v0 r]; [discriminate|].
  destruct (min_inorder c l k0 v0 r)
    as (c' & l' & k' & v' & r' & rest' & Hmin & Hin).
  rewrite Hmin. rewrite H in Hin. inv Hin. reflexivity.
Qed.

Lemma max_spec (t : Tree) (k : Key) (v : Value) (rest : list (Key * Value)) :
  inorder (root t) = rest ++ [(k, v)] -> max t = Ok (Some k).
Proof.
  intros H. unfold max. destruct (root t) as [|c l k0 v0 r].
  - destruct rest; discriminate.
  - destruct (max_inorder c l k0 v0 r)
      as (c' & l' & k' & v' & r' & rest' & Hmax & Hin).
    rewrite Hmax. rewrite H in Hin. apply app_inj_tail in Hin.
    destruct Hin as [_ Hin]. inv Hin. reflexivity.
Qed.

Lemma drainMin_spec (fuel : nat) :
  forall t : Tree,
    Inv t -> (nodes (root t) < fuel)%nat ->
    drainMin fuel t = Ok (keysOf (root t)).
Proof.
  induction fuel as [|fuel IH]; intros t Ht Hfuel; [lia|].
  cbn [drainMin]. destruct (root t) as [|c l k v r] eqn:Hroot.
  - unfold min. rewrite Hroot. reflexivity.
  - destruct (deleteMin_Inv t Ht) as (t' & [k' v'] & Hdel & Ht' & Hin & Hs);
      [rewrite Hroot; discriminate|].
    rewrite (min_spec t k' v' _ Hin). cbn [bind]. rewrite Hdel. cbn [bind].
    rewrite IH; [|assumption|].
    + cbn [bind]. rewrite <- Hroot. unfold keysOf. rewrite Hin. reflexivity.
    + rewrite <- Hroot in Hfuel.
      rewrite (inorder_cons_nodes _ _ _ Hin) in Hfuel. lia.
Qed.

Lemma drainMax_spec (fuel : nat) :
  forall t : Tree,
    Inv t -> (nodes (root t) < fuel)%nat ->
    drainMax fuel t = Ok (rev (keysOf (root t))).
Proof.
  induction fuel as [|fuel IH]; intros t Ht Hfuel; [lia|].
  cbn [drainMax]. destruct (root t) as [|c l k v r] eqn:Hroot.
  - unfold max. rewrite Hroot. reflexivity.
  - destruct (deleteMax_Inv t Ht) as (t' & [k' v'] & Hdel & Ht' & Hin & Hs);
      [rewrite Hroot; discriminate|].
    rewrite (max_spec t k' v' _ Hin). cbn [bind]. rewrite Hdel. cbn [bind].
    assert (Hn : nodes (root t) = S (nodes (root t'))).
    { rewrite <- !length_inorder, Hin, length_app. simpl. lia. }
    rewrite IH; [|assumption|].
    + cbn [bind]. rewrite <- Hroot. unfold keysOf. rewrite Hin.
      rewrite map_app, rev_app_distr. reflexivity.
    + rewrite <- Hroot in Hfuel. lia.
Qed.

(** ** Sequences of [set] *)

Lemma run_sets (entries : list (Key * Value)) :
  forall t : Tree,
    Inv t ->
    exists t',
      run (map (fun e => CallSet (fst e) (snd e)) entries) t = Ok t'
      /\ Inv t'
      /\ forall k,
          lookup k (inorder (root t'))
          = match lookup k (rev entries) with
            | Some v => Some v
            | None => lookup k (inorder (root t))
            end.
Proof.
  induction entries as [|[key value] rest IH]; intros t Ht.
  - exists t. simpl. auto.
  - destruct (set_Inv t key value Ht) as (t1 & Hset & Ht1 & Hin).
    destruct (IH t1 Ht1) as (t' & Hrun & Ht' & Hlook).
    exists t'. cbn [map run call fst snd]. rewrite Hset. cbn [bind].
    split; [assumption|split; [assumption|]].
    intros k. rewrite Hlook, Hin, lookup_ins_list. cbn [rev].
    rewrite lookup_app. simpl.
    destruct (lookup k (rev rest)); [reflexivity|].
    destruct (equality k key); reflexivity.
Qed.

Lemma set_frame (t : Tree) (key : Key) (value : Value) :
  Inv t ->
  exists t',
    set t key value = Ok t' /\ Inv t'
    /\ size t' = match get t key with
                 | Some _ => size t
                 | None => size t + 1
                 end
    /\ get t' key = Some value
    /\ forall k', k' <> key -> get t' k' = get t k'.
Proof.
  intros Ht. destruct (set_Inv t key value Ht) as (t' & Hset & Ht' & Hin).
  exists t'. split; [assumption|]. split; [assumption|].
  destruct Ht as (_ & _ & Hbst & Hsize).
  destruct Ht' as (_ & _ & Hbst' & Hsize').
  unfold sizeOk in *. rewrite !get_spec by assumption.
  split; [|split].
  - rewrite Hsize, Hsize', <- !length_inorder, Hin.
    rewrite length_ins_list by (apply bst_ordered in Hbst; exact Hbst).
    destruct (lookup key (inorder (root t))); lia.
  - rewrite Hin, lookup_ins_list, equality_refl. reflexivity.
  - intros k' Hk'. rewrite !get_spec by assumption.
    rewrite Hin, lookup_ins_list, (equality_false _ _ Hk'). reflexivity.
Qed.

(** * The claims *)

(** X25.  As long as no call throws, the structural invariants hold: when
    every call of a run that starts from the empty tree ([set], [delete],
    [deleteMin], [deleteMax], and [clear] as well) has returned, no right
    child is red, no red left child has a red left child, every path from the
    root to a null leaf crosses the same number of black links, and the root
    is not red (black, or absent in the empty tree). *)
Theorem mutations_keep_llrb (calls : list (Call Key Value)) (t : Tree) :
  run calls empty = Ok t ->
  noRedRight (root t) /\ noRedLeftLeft (root t)
  /\ blackBalanced (root t) /\ isRed (root t) = false.
Proof.
  intros Hrun.
  destruct (run_Inv calls empty t empty_Inv Hrun) as ((n & Hrb) & Hblack & _).
  exact (rb_llrb n (root t) Hrb Hblack).
Qed.

(** C3.  Any sequence of [set] calls on the empty tree returns; afterwards
    [get] gives, for a key that was set, the value of its last [set], and
    nothing for a key that was never set.  A further [set] of a stored key
    leaves [size] as it is, a [set] of a new key adds one to it; in both cases
    the key then maps to the new value and every other key to what it mapped
    to before. *)
Theorem set_then_get (entries : list (Key * Value)) :
  exists t : Tree,
    run (map (fun e => CallSet (fst e) (snd e)) entries) empty = Ok t
    /\ (forall k v pre post,
           entries = pre ++ (k, v) :: post -> ~ In k (map fst post) ->
           get t k = Some v)
    /\ (forall k, ~ In k (map fst entries) -> get t k = None)
    /\ (forall k v,
           exists t',
             set t k v = Ok t'
             /\ size t' = match get t k with
                          | Some _ => size t
                          | None => size t + 1
                          end
             /\ get t' k = Some v
             /\ forall k', k' <> k -> get t' k' = get t k').
Proof.
  destruct (run_sets entries empty empty_Inv) as (t & Hrun & Ht & Hlook).
  exists t. split; [exact Hrun|].
  assert (Hget : forall k, get t k = lookup k (rev entries)).
  { intros k. rewrite get_spec by apply Ht. rewrite Hlook. simpl.
    destruct (lookup k (rev entries)); reflexivity. }
  split; [|split].
  - intros k v pre post -> Hpost. rewrite Hget, rev_app_distr. cbn [rev].
    rewrite <- app_assoc, lookup_app.
    replace (lookup k (rev post)) with (@None Value).
    + simpl. rewrite equality_refl. reflexivity.
    + symmetry. apply lookup_None_iff. rewrite map_rev, <- in_rev. exact Hpost.
  - intros k Hk. rewrite Hget. apply lookup_None_iff.
    rewrite map_rev, <- in_rev. exact Hk.
  - intros k v. destruct (set_frame t k v Ht) as (t' & H1 & _ & H2).
    exists t'. auto.
Qed.


(** C5.  On a tree that is not empty, [deleteMin] returns true, takes one off
    [size] and removes the entry of the smallest key and nothing else.
    Calling [min] and [deleteMin] until the tree is empty observes all the
    keys in strictly increasing order; [max] and [deleteMax] observe them in
    strictly decreasing order. *)
Theorem deleteMin_removes_minimum (t : Tree) :
  reachable t ->
  (root t <> null ->
   exists t' k v,
     deleteMin t = Ok (true, t')
     /\ size t' = size t - 1
     /\ min t = Ok (Some k)
     /\ inorder (root t) = (k, v) :: inorder (root t')
     /\ forall q, In q (keysOf (root t')) -> lessThan k q = true)
  /\ (exists ks,
         drainMin (S (nodes (root t))) t = Ok ks
         /\ ks = keysOf (root t)
         /\ Sorted (fun a b => lessThan a b = true) ks)
  /\ (exists ks,
         drainMax (S (nodes (root t))) t = Ok ks
         /\ ks = rev (keysOf (root t))
         /\ Sorted (fun a b => lessThan b a = true) ks).
Proof.
  intros Hreach. pose proof (reachable_Inv t Hreach) as Ht.
  pose proof Ht as (_ & _ & Hbst & _).
  pose proof (proj1 (bst_ordered _) Hbst) as Hord.
  split; [|split].
  - intros Hnn.
    destruct (deleteMin_Inv t Ht Hnn) as (t' & [k v] & Hdel & _ & Hin & Hs).
    exists t', k, v. repeat split; auto.
    + eapply min_spec. exact Hin.
    + intros q Hq. unfold keysOf in Hord, Hq. rewrite Hin in Hord.
      destruct Hord as [Hk _]. rewrite Forall_forall in Hk. auto.
  - exists (keysOf (root t)). split; [apply drainMin_spec; [exact Ht|lia]|].
    split; [reflexivity|]. apply ordered_Sorted. exact Hord.
  - exists (rev (keysOf (root t))).
    split; [apply drainMax_spec; [exact Ht|lia]|].
    split; [reflexivity|]. apply ordered_rev_Sorted. exact Hord.
Qed.

(** The general half of C6: [previous] is the largest stored key below the
    query and [next] the smallest above it. *)
Lemma previous_next_spec (t : Tree) (key : Key) :
  reachable t ->
  isPredecessor (keysOf (root t)) key (previous t key)
  /\ isSuccessor (keysOf (root t)) key (next t key).
Proof.
  intros Hreach. destruct (reachable_Inv t Hreach) as (_ & _ & Hbst & _).
  split.
  - apply (previous_spec (root t) key Hbst).
  - apply (next_spec (root t) key Hbst).
Qed.

(** X26.  As long as no call throws, [size] is the number of nodes: in
    every tree constructed from an iterable or from nothing and then used
    through calls of [set], [delete], [deleteMin], [deleteMax] and [clear]
    that all returned.  The counter is kept by adjustment: whatever counter
    the recursive insert and the recursive deletions are given, they move it
    by the number of nodes they add or remove. *)
Theorem size_counts_nodes (t : Tree) :
  reachable t ->
  size t = Z.of_nat (nodes (root t))
  /\ (forall key value s node' s',
         set_ (root t) key value s = Ok (node', s') ->
         s' - s = Z.of_nat (nodes node') - Z.of_nat (nodes (root t)))
  /\ (forall key s node' s',
         delete_ (S (nodes (root t))) (root t) key s = Ok (node', s') ->
         s' - s = Z.of_nat (nodes node') - Z.of_nat (nodes (root t)))
  /\ (forall s node' s',
         deleteMin_ (S (nodes (root t))) (root t) s = Ok (node', s') ->
         s' - s = Z.of_nat (nodes node') - Z.of_nat (nodes (root t)))
  /\ (forall s node' s',
         deleteMax_ (S (nodes (root t))) (root t) s = Ok (node', s') ->
         s' - s = Z.of_nat (nodes node') - Z.of_nat (nodes (root t))).
Proof.
  intros Hreach.
  destruct (reachable_Inv t Hreach) as ((n & Hrb) & Hblack & Hbst & Hsize).
  split; [exact Hsize|]. split; [|split; [|split]].
  - intros key value s node' s' Hset.
    destruct (set_inorder _ _ _ _ _ _ Hbst Hset) as [_ H]. lia.
  - intros key s node' s' Hdel.
    destruct (root t) as [|c l k v r] eqn:Hroot; [discriminate|].
    pose proof (delete_root n _ key s Hrb Hblack ltac:(discriminate) Hbst) as H.
    rewrite Hdel in H. destruct H as (_ & _ & H). lia.
  - intros s node' s' Hdel.
    destruct (root t) as [|c l k v r] eqn:Hroot; [discriminate|].
    destruct (deleteMin_root n _ s Hrb Hblack ltac:(discriminate))
      as (node1 & s1 & e & Heq & Hs & _ & Hin).
    rewrite Hdel in Heq. inv Heq.
    rewrite (inorder_cons_nodes _ _ _ Hin). lia.
  - intros s node' s' Hdel.
    destruct (root t) as [|c l k v r] eqn:Hroot; [discriminate|].
    destruct (deleteMax_root n _ s Hrb Hblack ltac:(discriminate))
      as (node1 & s1 & e & Heq & Hs & _ & Hin).
    rewrite Hdel in Heq. inv Heq.
    assert (Hn : nodes (mkNode c l k v r) = S (nodes node1)).
    { rewrite <- !length_inorder, Hin, length_app. simpl. lia. }
    rewrite Hn. lia.
Qed.

(** C8.  [rotateLeft] asserts that the right child is present.  When it is,
    the result has the key, the value and the right subtree of the old right
    child and the colour of the old root; its left child is the old root,
    red, with the old right child's left subtree as its right subtree; the
    in-order sequence is the same. *)
Theorem rotateLeft_spec (c : Color) (l : Node) (k : Key) (v : Value) :
  rotateLeft (mkNode c l k v null) = Throw AssertionError
  /\ forall rc rl rk rv rr,
      rotateLeft (mkNode c l k v (mkNode rc rl rk rv rr))
      = Ok (mkNode c (mkNode Red l k v rl) rk rv rr)
      /\ inorder (mkNode c (mkNode Red l k v rl) rk rv rr)
         = inorder (mkNode c l k v (mkNode rc rl rk rv rr)).
Proof.
  split; [reflexivity|]. intros rc rl rk rv rr. split; [reflexivity|].
  simpl. rewrite <- app_assoc. reflexivity.
Qed.

(** C9.  On a tree that satisfies the invariants (the structural ones and the
    order of the keys), [set] of a key that is stored returns the tree with
    the same shape, keys, colours and size; the key maps to the new value
    and every other key to its old one.  On the way back up [fixUp] changes
    nothing: it is the identity on every subtree that satisfies the
    structural invariants. *)
Theorem set_stored_key_changes_value_only (t : Tree) (key : Key)
  (value : Value) :
  llrb (root t) -> bst (root t) -> In key (keysOf (root t)) ->
  (exists t',
      set t key value = Ok t'
      /\ shape (root t') = shape (root t)
      /\ size t' = size t
      /\ get t' key = Some value
      /\ forall k', k' <> key -> get t' k' = get t k')
  /\ forall (c : Color) (l : Node) (k : Key) (v : Value) (r : Node),
      noRedRight (mkNode c l k v r) -> noRedLeftLeft (mkNode c l k v r) ->
      fixUp (mkNode c l k v r) = Ok (mkNode c l k v r).
Proof.
  intros Hllrb Hbst Hin. split.
  - destruct (llrb_height _ Hllrb) as (n & Hrb).
    destruct Hllrb as (_ & _ & _ & Hblack).
    destruct (set_existing (root t) key value (size t) n Hrb Hbst Hin)
      as (node' & Hset & Hshape).
    pose proof (isRed_shape _ _ Hshape) as Hcol. rewrite Hblack in Hcol.
    destruct (set_inorder _ _ _ _ _ _ Hbst Hset) as [Hino _].
    assert (Hbst' : bst node').
    { apply bst_ordered. unfold keysOf. rewrite Hino.
      apply ordered_ins_list. apply bst_ordered in Hbst. exact Hbst. }
    unfold set. rewrite Hset. cbn [bind].
    destruct node' as [|[] l k v r]; try discriminate.
    + remember (root t) as rt eqn:Hrt.
      destruct rt; [contradiction|simpl in Hshape; discriminate].
    + cbn [blacken bind]. eexists. split; [reflexivity|]. cbn [root size].
      split; [exact Hshape|]. split; [reflexivity|].
      split.
      * rewrite get_spec by exact Hbst'. cbn [root].
        rewrite Hino, lookup_ins_list, equality_refl. reflexivity.
      * intros k' Hk'. rewrite !get_spec by assumption. cbn [root].
        rewrite Hino, lookup_ins_list, (equality_false _ _ Hk'). reflexivity.
  - intros c l k v r (Hr & _ & _) (Hl & _ & _).
    apply fixUp_id; assumption.
Qed.

(** C10.  For every tree and every number of calls of [next], collecting
    [keys()] gives the first components and collecting [values()] the second
    components of what collecting [entries()] gives, in the same order;
    [[Symbol.iterator]()] is [entries()].  With one call more than there are
    nodes the three give the in-order entries, keys and values. *)
Theorem keys_values_follow_entries (t : Tree) :
  symbolIterator t = entries t
  /\ (forall fuel,
         collect keysNext fuel (keys t)
         = mapResult (map fst) (collect entriesNext fuel (entries t)))
  /\ (forall fuel,
         collect valuesNext fuel (values t)
         = mapResult (map snd) (collect entriesNext fuel (entries t)))
  /\ collect entriesNext (S (nodes (root t))) (entries t)
     = Ok (inorder (root t))
  /\ collect keysNext (S (nodes (root t))) (keys t)
     = Ok (map fst (inorder (root t)))
  /\ collect valuesNext (S (nodes (root t))) (values t)
     = Ok (map snd (inorder (root t))).
Proof.
  split; [reflexivity|].
  split; [intros fuel; apply collect_keys|].
  split; [intros fuel; apply collect_values|].
  split; [apply entries_collect|].
  split.
  - unfold keys. rewrite collect_keys, entries_collect. reflexivity.
  - unfold values. rewrite collect_values, entries_collect. reflexivity.
Qed.

(** * Further properties of deletion *)

Lemma length_del_list_present (key : Key) (l : list (Key * Value)) :
  ordered (map fst l) -> In key (map fst l) ->
  length l = S (length (del_list key l)).
Proof.
  induction l as [|[a b] l IH]; [simpl; tauto|]. intros [Ha Hl] Hin.
  rewrite del_list_cons. cbn [map fst In] in Ha, Hl, Hin.
  destruct (equality key a) eqn:Heq; cbn [app length].
  - apply equality_spec in Heq. subst a.
    rewrite del_list_absent; [reflexivity|].
    eapply Forall_impl; [|exact Ha]. simpl. intros x Hx.
    apply lessThan_neq. exact Hx.
  - destruct Hin as [->|Hin]; [rewrite equality_refl in Heq; discriminate|].
    rewrite (IH Hl Hin). reflexivity.
Qed.

(** X1.  Deleting a stored key returns true, takes one off [size], removes
    the key and leaves every other key with its value. *)
Theorem delete_stored_key (t : Tree) (key : Key) :
  reachable t -> In key (keysOf (root t)) ->
  exists t',
    delete t key = Ok (true, t')
    /\ size t' = size t - 1
    /\ get t' key = None
    /\ (forall k', k' <> key -> get t' k' = get t k')
    /\ inorder (root t') = del_list key (inorder (root t)).
Proof.
  intros Hreach Hin. pose proof (reachable_Inv t Hreach) as Ht.
  pose proof (delete_Inv t key Ht) as H.
  destruct (delete t key) as [[b t']|[]|]; try contradiction.
  destruct H as (Ht' & Hino & Hb). apply Hb in Hin as ->.
  exists t'. split; [reflexivity|].
  destruct Ht as (_ & _ & Hbst & Hsize). destruct Ht' as (_ & _ & Hbst' & Hsize').
  unfold sizeOk in *. split; [|split; [|split]].
  - rewrite Hsize, Hsize', <- !length_inorder, Hino.
    rewrite (length_del_list_present key (inorder (root t))).
    + lia.
    + apply bst_ordered in Hbst. exact Hbst.
    + apply Hb. reflexivity.
  - rewrite get_spec by assumption.
    rewrite Hino, lookup_del_list, equality_refl. reflexivity.
  - intros k' Hk'. rewrite !get_spec by assumption.
    rewrite Hino, lookup_del_list, (equality_false _ _ Hk'). reflexivity.
  - exact Hino.
Qed.

(** X2.  Deleting a key that is not stored has two outcomes: the assertion of
    [#delete] fails, or the call returns false and leaves the entries and
    [size] as they were. *)
Theorem delete_absent_key_outcome (t : Tree) (key : Key) :
  reachable t -> ~ In key (keysOf (root t)) ->
  delete t key = Throw AssertionError
  \/ exists t',
      delete t key = Ok (false, t')
      /\ inorder (root t') = inorder (root t)
      /\ size t' = size t.
Proof.
  intros Hreach Hin. pose proof (reachable_Inv t Hreach) as Ht.
  pose proof (delete_Inv t key Ht) as H.
  destruct (delete t key) as [[b t']|[]|]; try contradiction; [|left; reflexivity].
  right. destruct H as (Ht' & Hino & Hb).
  assert (Hsame : inorder (root t') = inorder (root t)).
  { rewrite Hino. apply del_list_none. apply absent_In. exact Hin. }
  exists t'. destruct b; [destruct Hin; apply Hb; reflexivity|].
  split; [reflexivity|]. split; [exact Hsame|].
  destruct Ht as (_ & _ & _ & Hsize). destruct Ht' as (_ & _ & _ & Hsize').
  unfold sizeOk in *. rewrite Hsize, Hsize', <- !length_inorder, Hsame.
  reflexivity.
Qed.

(** X3.  A run of public calls never reads a property of [null] and never
    exceeds the recursion bound of the model: it returns, or an assertion
    fails. *)
Theorem run_returns_or_asserts (calls : list (Call Key Value)) :
  forall t : Tree,
    reachable t ->
    (exists t', run calls t = Ok t') \/ run calls t = Throw AssertionError.
Proof.
  assert (Hgen : forall t : Tree,
             Inv t ->
             (exists t', run calls t = Ok t')
             \/ run calls t = Throw AssertionError).
  { induction calls as [|c rest IH]; intros t Ht; [left; eexists; reflexivity|].
    cbn [run].
    assert (Hc : (exists t1, call c t = Ok t1 /\ Inv t1)
                 \/ call c t = Throw AssertionError).
    { destruct c as [key value|key| | |]; cbn [call].
      - destruct (set_Inv t key value Ht) as (t1 & Heq & Ht1 & _). eauto.
      - pose proof (delete_Inv t key Ht) as Hd.
        destruct (delete t key) as [[b t1]|[]|]; try contradiction.
        + left. exists t1. split; [reflexivity|apply Hd].
        + right. reflexivity.
      - destruct (root t) eqn:Hroot.
        + unfold deleteMin. rewrite deletion_null by assumption.
          cbn [bind]. eauto.
        + destruct (deleteMin_Inv t Ht) as (t1 & e & Heq & Ht1 & _);
            [rewrite Hroot; discriminate|].
          rewrite Heq. cbn [bind]. eauto.
      - destruct (root t) eqn:Hroot.
        + unfold deleteMax. rewrite deletion_null by assumption.
          cbn [bind]. eauto.
        + destruct (deleteMax_Inv t Ht) as (t1 & e & Heq & Ht1 & _);
            [rewrite Hroot; discriminate|].
          rewrite Heq. cbn [bind]. eauto.
      - left. eexists. split; [reflexivity|apply clear_Inv]. }
    destruct Hc as [(t1 & Heq & Ht1)| ->]; [|right; reflexivity].
    rewrite Heq. cbn [bind]. apply IH. exact Ht1. }
  intros t Hreach. apply Hgen. apply reachable_Inv. exact Hreach.
Qed.

(** * Further properties of the primitives *)

Ltac asserts_case :=
  split; intros HP;
  [ first [ reflexivity | exfalso; intuition discriminate ]
  | first [ exfalso; apply HP; auto; fail
          | eexists; split; [reflexivity|];
            simpl; repeat (rewrite <- app_assoc; simpl); reflexivity ] ].

(** X4.  A primitive fails exactly when a child it reads is absent, and then
    by its assertion: [rotateLeft] needs the right child, [rotateRight] the
    left child, [flipColors], [moveRedLeft] and [moveRedRight] need both, and
    [fixUp] never fails.  A primitive that returns leaves the in-order
    sequence as it was. *)
Theorem primitives_need_their_children (c : Color) (l : Node) (k : Key)
  (v : Value) (r : Node) :
  assertsWhen rotateLeft (mkNode c l k v r) (r = null)
  /\ assertsWhen rotateRight (mkNode c l k v r) (l = null)
  /\ assertsWhen flipColors (mkNode c l k v r) (l = null \/ r = null)
  /\ assertsWhen moveRedLeft (mkNode c l k v r) (l = null \/ r = null)
  /\ assertsWhen moveRedRight (mkNode c l k v r) (l = null \/ r = null)
  /\ assertsWhen fixUp (mkNode c l k v r) False.
Proof.
  unfold assertsWhen.
  split; [|split; [|split; [|split; [|split]]]].
  6: { split; [tauto|]. intros _.
       destruct (fixUp_total c l k v r) as (c' & l' & k' & v' & r' & H).
       rewrite H. eexists. split; [reflexivity|].
       apply fixUp_inorder. exact H. }
  all: destruct c, l as [|[] ll lk lv lr], r as [|[] rl rk rv rr]; simpl;
    split_tests; asserts_case.
Qed.

(** X5.  Rotating a red link and rotating it back gives the node one started
    from: [rotateRight] undoes [rotateLeft] on a node with a red right child,
    and [rotateLeft] undoes [rotateRight] on a node with a red left child.
    The rotation moves the red link to the other side and leaves the number
    of black links of every path as it was. *)
Theorem rotations_undo_each_other (node : Node) :
  (isRed (right node) = true ->
   exists node',
     rotateLeft node = Ok node' /\ rotateRight node' = Ok node
     /\ isRed (left node') = true
     /\ blackLinks node' = blackLinks node)
  /\ (isRed (left node) = true ->
      exists node',
        rotateRight node = Ok node' /\ rotateLeft node' = Ok node
        /\ isRed (right node') = true
        /\ blackLinks node' = blackLinks node).
Proof.
  split; intros H.
  - destruct node as [|[] l k v [|[] rl rk rv rr]]; try discriminate H.
    all: eexists; split; [reflexivity|]; split; [reflexivity|];
      split; [reflexivity|];
      simpl; rewrite ?map_id, <- ?app_assoc; reflexivity.
  - destruct node as [|[] [|[] ll lk lv lr] k v r]; try discriminate H.
    all: eexists; split; [reflexivity|]; split; [reflexivity|];
      split; [reflexivity|];
      simpl; rewrite ?map_id, <- ?app_assoc; reflexivity.
Qed.

(** X6.  [flipColors] is its own inverse: on what it returned it returns the
    node it was given.  It keeps the in-order sequence, and when both
    children have the colour the node does not have (the split and the merge
    of a 4-node) it keeps the number of black links of every path. *)
Theorem flipColors_twice (node node' : Node) :
  flipColors node = Ok node' ->
  flipColors node' = Ok node
  /\ inorder node' = inorder node
  /\ (isRed (left node) = negb (isRed node) ->
      isRed (right node) = negb (isRed node) ->
      blackLinks node' = blackLinks node).
Proof.
  destruct node as [|[] [|[] ll lk lv lr] k v [|[] rl rk rv rr]]; simpl;
    intros H; inv H.
  all: split; [reflexivity|split; [reflexivity|]]; simpl; intros H1 H2;
    try discriminate; rewrite ?map_id, ?map_app; reflexivity.
Qed.

Lemma balanced_red (n : nat) (l : Node) (k : Key) (v : Value) (r : Node) :
  Forall (fun m => m = n) (blackLinks l) ->
  Forall (fun m => m = n) (blackLinks r) ->
  Forall (fun m => m = n) (blackLinks (mkNode Red l k v r)).
Proof.
  intros Hl Hr. simpl. rewrite map_id. apply Forall_app. split; assumption.
Qed.

Lemma balanced_black (n : nat) (l : Node) (k : Key) (v : Value) (r : Node) :
  Forall (fun m => m = n) (blackLinks l) ->
  Forall (fun m => m = n) (blackLinks r) ->
  Forall (fun m => m = S n) (blackLinks (mkNode Black l k v r)).
Proof.
  intros Hl Hr. simpl. rewrite Forall_map. apply Forall_app.
  split; (eapply Forall_impl; [|eassumption]); simpl; intros; congruence.
Qed.

Ltac balanced :=
  repeat first [ apply balanced_red | apply balanced_black
               | eapply rb_blackLinks; eassumption ].

(** X7.  [moveRedLeft] keeps its promise.  On a red node of an LLRB subtree
    whose left child is present and, like the left child of that child, not
    red, it returns; the left child of the result is red or has a red left
    child and is in a state the recursive deletions accept; the in-order
    sequence and the number of black links of every path are as before. *)
Theorem moveRedLeft_spec (n : nat) (node : Node) :
  rb n node -> isRed node = true -> left node <> null ->
  isRed (left (left node)) = false ->
  exists node',
    moveRedLeft node = Ok node'
    /\ (isRed (left node') = true \/ isRed (left (left node')) = true)
    /\ (exists h, delpre h (left node'))
    /\ inorder node' = inorder node
    /\ Forall (fun m => m = n) (blackLinks node').
Proof.
  intros Hrb Hred Hnn Hll.
  destruct (rb_red_inv _ _ Hrb Hred)
    as (l & k & v & r & -> & Hl & Hr & Hlb & Hrb').
  cbn [left] in Hnn, Hll.
  destruct (rb_black_cases _ _ Hl Hlb)
    as [[-> ->] | (m & ll & lk & lv & lr & -> & -> & Hll' & Hlr & Hlrb)];
    [contradiction|].
  destruct (rb_S_black _ _ Hr Hrb')
    as (rl & rk & rv & rr & -> & Hrl & Hrr & Hrrb).
  cbn [left] in Hll. simpl.
  destruct (isRed rl) eqn:Hrlred.
  - destruct (rb_red_inv _ _ Hrl Hrlred)
      as (rll & rlk & rlv & rlr & -> & Hrll & Hrlr & Hrllb & Hrlrb).
    simpl. eexists. split; [reflexivity|]. cbn [left].
    split; [right; reflexivity|].
    split; [exists (S m); apply delpre_left; auto with llrb|].
    split; [simpl; repeat (rewrite <- app_assoc; simpl); reflexivity|].
    balanced.
  - eexists. split; [reflexivity|]. cbn [left].
    split; [left; reflexivity|].
    split; [exists m; apply delpre_red; auto with llrb|].
    split; [reflexivity|]. balanced.
Qed.

(** X8.  [moveRedRight] keeps its promise.  On a red node of an LLRB subtree
    whose right child is present and, like the left child of that child, not
    red, it returns; the right child of the result is red or has a red right
    child and is in a state the recursive deletions accept; the in-order
    sequence and the number of black links of every path are as before. *)
Theorem moveRedRight_spec (n : nat) (node : Node) :
  rb n node -> isRed node = true -> right node <> null ->
  isRed (left (right node)) = false ->
  exists node',
    moveRedRight node = Ok node'
    /\ (isRed (right node') = true \/ isRed (right (right node')) = true)
    /\ (exists h, delpre h (right node'))
    /\ inorder node' = inorder node
    /\ Forall (fun m => m = n) (blackLinks node').
Proof.
  intros Hrb Hred Hnn Hrl.
  destruct (rb_red_inv _ _ Hrb Hred)
    as (l & k & v & r & -> & Hl & Hr & Hlb & Hrb').
  cbn [right] in Hnn, Hrl.
  destruct (rb_black_cases _ _ Hr Hrb')
    as [[-> ->] | (m & rl & rk & rv & rr & -> & -> & Hrl' & Hrr & Hrrb)];
    [contradiction|].
  destruct (rb_S_black _ _ Hl Hlb)
    as (ll & lk & lv & lr & -> & Hll & Hlr & Hlrb).
  cbn [right left] in Hrl. simpl.
  destruct (isRed ll) eqn:Hllred.
  - destruct (rb_red_inv _ _ Hll Hllred)
      as (lll & llk & llv & llr & -> & Hlll & Hllr & Hlllb & Hllrb).
    simpl. eexists. split; [reflexivity|]. cbn [right].
    split; [right; reflexivity|].
    split; [exists (S m); apply delpre_right; auto with llrb|].
    split; [simpl; repeat (rewrite <- app_assoc; simpl); reflexivity|].
    balanced.
  - eexists. split; [reflexivity|]. cbn [right].
    split; [left; reflexivity|].
    split; [exists m; apply delpre_red; auto with llrb|].
    split; [reflexivity|]. balanced.
Qed.

(** X9.  [fixUp] repairs what an insertion below a black node can leave
    behind.  When the two subtrees are LLRB subtrees of the same black
    height, except that the right one may have a red root or else the left
    one may be a red node with a red left child, [fixUp] returns an LLRB
    subtree, one black link higher, with the same in-order sequence. *)
Theorem fixUp_repairs (m : nat) (l : Node) (k : Key) (v : Value) (r : Node) :
  almost m l -> rb m r -> (isRed r = true -> rb m l) ->
  exists node',
    fixUp (mkNode Black l k v r) = Ok node'
    /\ rb (S m) node'
    /\ inorder node' = inorder (mkNode Black l k v r).
Proof.
  intros Hl Hr Hcase.
  assert (Hgood : rb m l ->
                  exists node',
                    fixUp (mkNode Black l k v r) = Ok node'
                    /\ rb (S m) node'
                    /\ inorder node' = inorder (mkNode Black l k v r)).
  { intros Hl'.
    destruct (fixUp_black m l k v r Hl' Hr)
      as (node' & Hfix & Hrb & _ & Hin & _).
    exists node'. auto. }
  inv Hl; [auto|].
  destruct (isRed r) eqn:Hrred; [auto|].
  destruct (isRed l0) eqn:Hl0; [|apply Hgood; auto with llrb].
  destruct (rb_red_inv _ _ H Hl0)
    as (a & ak & av & b & -> & Ha & Hb & Hab & Hbb).
  unfold fixUp. decide_tests.
  eexists. split; [reflexivity|].
  split; [auto 10 with llrb|].
  simpl. repeat (rewrite <- app_assoc; simpl). reflexivity.
Qed.

(** * Further properties of the queries *)

(** X10.  [min] and [max] bound the stored keys: on the empty tree both are
    absent; otherwise [min] returns a stored key that no stored key is below
    and [max] a stored key that no stored key is above. *)
Theorem min_max_bound_the_keys (t : Tree) :
  reachable t ->
  (root t = null -> min t = Ok None /\ max t = Ok None)
  /\ (root t <> null ->
      exists lo hi,
        min t = Ok (Some lo) /\ max t = Ok (Some hi)
        /\ In lo (keysOf (root t)) /\ In hi (keysOf (root t))
        /\ forall q, In q (keysOf (root t)) ->
                     lessThan q lo = false /\ lessThan hi q = false).
Proof.
  intros Hreach. destruct (reachable_Inv t Hreach) as (_ & _ & Hbst & _).
  apply bst_ordered in Hbst. unfold keysOf in *.
  split.
  - intros Hnull. unfold min, max. rewrite Hnull. split; reflexivity.
  - intros Hnn. destruct (root t) as [|c l k v r] eqn:Hroot; [contradiction|].
    destruct (min_inorder c l k v r)
      as (c1 & l1 & lo & v1 & r1 & rest1 & _ & Hin1).
    destruct (max_inorder c l k v r)
      as (c2 & l2 & hi & v2 & r2 & rest2 & _ & Hin2).
    rewrite <- Hroot in Hin1, Hin2, Hbst |- *.
    exists lo, hi.
    split; [exact (min_spec t lo v1 rest1 Hin1)|].
    split; [exact (max_spec t hi v2 rest2 Hin2)|].
    pose proof Hbst as Hlo. rewrite Hin1 in Hlo. destruct Hlo as [Hlo _].
    pose proof Hbst as Hhi. rewrite Hin2, map_app in Hhi.
    apply ordered_app in Hhi. destruct Hhi as (_ & _ & Hhi).
    rewrite Forall_forall in Hlo, Hhi.
    split; [rewrite Hin1; left; reflexivity|].
    split; [rewrite Hin2, map_app; apply in_or_app; right; left; reflexivity|].
    intros q Hq. split.
    + rewrite Hin1 in Hq. destruct Hq as [<-|Hq].
      * apply lessThan_irrefl.
      * apply lessThan_asym. apply Hlo. exact Hq.
    + rewrite Hin2, map_app in Hq. apply in_app_or in Hq.
      destruct Hq as [Hq|[<-|[]]].
      * apply lessThan_asym. specialize (Hhi q Hq). inv Hhi. assumption.
      * apply lessThan_irrefl.
Qed.

Lemma lookup_In (key : Key) (value : Value) (l : list (Key * Value)) :
  ordered (map fst l) -> (lookup key l = Some value <-> In (key, value) l).
Proof.
  induction l as [|[a b] l IH]; simpl; [intros _; split; [discriminate|tauto]|].
  intros [Ha Hl]. rewrite Forall_forall in Ha.
  destruct (equality key a) eqn:Heq.
  - apply equality_spec in Heq. subst a. split.
    + intros H. inv H. left. reflexivity.
    + intros [H|H]; [inv H; reflexivity|].
      assert (Hk : lessThan key key = true).
      { apply Ha. apply (in_map fst) in H. exact H. }
      rewrite lessThan_irrefl in Hk. discriminate.
  - rewrite (IH Hl). split; [auto|].
    intros [H|H]; [|exact H]. inv H. rewrite equality_refl in Heq. discriminate.
Qed.

(** X11.  [get] and [entries] agree: [get(key)] returns [value] exactly when
    the pair of [key] and [value] is among the entries that [entries()]
    yields. *)
Theorem get_agrees_with_entries (t : Tree) :
  reachable t ->
  exists es,
    collect entriesNext (S (nodes (root t))) (entries t) = Ok es
    /\ forall key value, get t key = Some value <-> In (key, value) es.
Proof.
  intros Hreach. destruct (reachable_Inv t Hreach) as (_ & _ & Hbst & _).
  exists (inorder (root t)). split; [apply entries_collect|].
  intros key value. rewrite get_spec by exact Hbst.
  apply lookup_In. apply bst_ordered in Hbst. exact Hbst.
Qed.

Lemma setAll_run (iterable : list (Key * Value)) :
  forall t : Tree,
    setAll iterable t
    = run (map (fun e => CallSet (fst e) (snd e)) iterable) t.
Proof.
  induction iterable as [|e rest IH]; intros t; [reflexivity|].
  cbn [setAll map run call]. destruct (set t (fst e) (snd e)); cbn [bind];
    auto.
Qed.

(** X12.  The constructor builds the map of its iterable: it returns; [get]
    gives for every key the value of its last pair in the iterable and
    nothing for a key the iterable does not mention; the stored keys are the
    keys of the iterable, each once, and [size] is their number. *)
Theorem construct_builds_the_map (iterable : list (Key * Value)) :
  exists t : Tree,
    construct iterable = Ok t
    /\ (forall k, get t k = lookup k (rev iterable))
    /\ (forall k, In k (keysOf (root t)) <-> In k (map fst iterable))
    /\ NoDup (keysOf (root t))
    /\ size t = Z.of_nat (length (keysOf (root t))).
Proof.
  destruct (run_sets iterable empty empty_Inv) as (t & Hrun & Ht & Hlook).
  exists t. unfold construct. rewrite setAll_run. split; [exact Hrun|].
  pose proof Ht as (_ & _ & Hbst & Hsize).
  assert (Hget : forall k, get t k = lookup k (rev iterable)).
  { intros k. rewrite get_spec by exact Hbst. rewrite Hlook. simpl.
    destruct (lookup k (rev iterable)); reflexivity. }
  split; [exact Hget|]. split; [|split].
  - intros k. rewrite <- (get_In t k Hbst), Hget, lookup_Some_iff.
    rewrite map_rev. symmetry. apply in_rev.
  - apply ordered_NoDup. apply bst_ordered. exact Hbst.
  - unfold sizeOk in Hsize. rewrite Hsize. unfold keysOf.
    rewrite length_map, length_inorder. reflexivity.
Qed.

Lemma ordered_lookup_ext (l1 : list (Key * Value)) :
  forall l2 : list (Key * Value),
    ordered (map fst l1) -> ordered (map fst l2) ->
    (forall k, lookup k l1 = lookup k l2) -> l1 = l2.
Proof.
  induction l1 as [|[a b] l1 IH]; intros [|[c d] l2] H1 H2 H.
  - reflexivity.
  - specialize (H c). simpl in H. rewrite equality_refl in H. discriminate.
  - specialize (H a). simpl in H. rewrite equality_refl in H. discriminate.
  - simpl in H1, H2. destruct H1 as [Ha H1], H2 as [Hc H2].
    rewrite Forall_forall in Ha, Hc.
    assert (Hac : a = c).
    { pose proof (H a) as Hka. pose proof (H c) as Hkc. simpl in Hka, Hkc.
      rewrite equality_refl in Hka, Hkc.
      destruct (equality a c) eqn:Heq; [apply equality_spec; exact Heq|].
      destruct (equality c a) eqn:Heq'.
      - apply equality_spec in Heq'. symmetry. exact Heq'.
      - assert (Hca : lessThan c a = true).
        { apply Hc. apply lookup_Some_iff. rewrite <- Hka. discriminate. }
        assert (Hac : lessThan a c = true).
        { apply Ha. apply lookup_Some_iff. rewrite Hkc. discriminate. }
        rewrite (lessThan_asym _ _ Hca) in Hac. discriminate. }
    subst c.
    assert (Hbd : b = d).
    { specialize (H a). simpl in H. rewrite equality_refl in H. congruence. }
    subst d. f_equal. apply IH; [assumption|assumption|].
    intros k. specialize (H k). simpl in H.
    destruct (equality k a) eqn:Heq; [|exact H].
    apply equality_spec in Heq. subst k.
    rewrite !lookup_None; [reflexivity| |];
      apply Forall_forall; intros x Hx; apply lessThan_neq; auto.
Qed.

(** X13.  The entries depend on the content only, not on the calls that
    produced it: two trees in which [get] gives the same result for every
    key have the same entries in the same order, and the same [size]. *)
Theorem entries_depend_on_content_only (t1 t2 : Tree) :
  reachable t1 -> reachable t2 ->
  (forall k, get t1 k = get t2 k) ->
  inorder (root t1) = inorder (root t2) /\ size t1 = size t2.
Proof.
  intros H1 H2 Hget.
  destruct (reachable_Inv t1 H1) as (_ & _ & Hbst1 & Hsize1).
  destruct (reachable_Inv t2 H2) as (_ & _ & Hbst2 & Hsize2).
  assert (Hin : inorder (root t1) = inorder (root t2)).
  { apply ordered_lookup_ext.
    - apply bst_ordered in Hbst1. exact Hbst1.
    - apply bst_ordered in Hbst2. exact Hbst2.
    - intros k. rewrite <- !get_spec by assumption. apply Hget. }
  split; [exact Hin|].
  unfold sizeOk in *. rewrite Hsize1, Hsize2, <- !length_inorder, Hin.
  reflexivity.
Qed.

Lemma successor_nth (ks : list Key) (i : nat) (a : Key) (r : option Key) :
  ordered ks -> nth_error ks i = Some a -> isSuccessor ks a r ->
  r = nth_error ks (S i).
Proof.
  intros Hord Hnth Hsucc.
  destruct (nth_error_split ks i Hnth) as (l1 & l2 & -> & <-).
  apply ordered_app in Hord. destruct Hord as (_ & Hord & Hbelow).
  simpl in Hord. destruct Hord as [Habove Hord2].
  rewrite Forall_forall in Hbelow, Habove.
  replace (nth_error (l1 ++ a :: l2) (S (length l1))) with (nth_error l2 0).
  2: { rewrite nth_error_app2 by lia.
       replace (S (length l1) - length l1)%nat with 1%nat by lia.
       reflexivity. }
  destruct r as [p|]; simpl in Hsucc.
  - destruct Hsucc as (Hin & Hlt & Hbest).
    apply in_app_or in Hin. destruct Hin as [Hin|[<-|Hin]].
    + specialize (Hbelow p Hin). inv Hbelow.
      rewrite (lessThan_asym _ _ H1) in Hlt. discriminate.
    + rewrite lessThan_irrefl in Hlt. discriminate.
    + destruct l2 as [|b l2]; [destruct Hin|]. simpl. f_equal.
      destruct Hin as [Hin|Hin]; [auto|].
      assert (Hb : lessThan b p = false).
      { apply Hbest; [apply in_or_app; right; right; left; reflexivity|].
        apply Habove. left. reflexivity. }
      destruct Hord2 as [Hb' _]. rewrite Forall_forall in Hb'.
      rewrite (Hb' p Hin) in Hb. discriminate.
  - destruct l2 as [|b l2]; [reflexivity|].
    assert (Hb : lessThan a b = false).
    { apply Hsucc. apply in_or_app. right. right. left. reflexivity. }
    rewrite (Habove b) in Hb by (left; reflexivity). discriminate.
Qed.

Lemma predecessor_nth (ks : list Key) (i : nat) (a : Key) (r : option Key) :
  ordered ks -> nth_error ks i = Some a -> isPredecessor ks a r ->
  r = match i with O => None | S j => nth_error ks j end.
Proof.
  intros Hord Hnth Hpred.
  destruct (nth_error_split ks i Hnth) as (l1 & l2 & -> & <-).
  apply ordered_app in Hord. destruct Hord as (Hord1 & Hord & Hbelow).
  simpl in Hord. destruct Hord as [Habove _].
  rewrite Forall_forall in Hbelow, Habove.
  destruct l1 as [|c l1] using rev_ind.
  - simpl in *. destruct r as [p|]; [|reflexivity].
    destruct Hpred as (Hin & Hlt & _). destruct Hin as [<-|Hin].
    + rewrite lessThan_irrefl in Hlt. discriminate.
    + rewrite (lessThan_asym _ _ (Habove p Hin)) in Hlt. discriminate.
  - clear IHl1. rewrite length_app. simpl.
    replace (length l1 + 1)%nat with (S (length l1)) by lia.
    replace (nth_error ((l1 ++ [c]) ++ a :: l2) (length l1)) with (Some c).
    2: { rewrite <- app_assoc. rewrite nth_error_app2 by lia.
         rewrite Nat.sub_diag. reflexivity. }
    assert (Hca : lessThan c a = true).
    { assert (Hc : In c (l1 ++ [c]))
        by (apply in_or_app; right; left; reflexivity).
      specialize (Hbelow c Hc). inv Hbelow. assumption. }
    apply ordered_app in Hord1. destruct Hord1 as (_ & _ & Hl1c).
    rewrite Forall_forall in Hl1c.
    destruct r as [p|]; simpl in Hpred.
    + destruct Hpred as (Hin & Hlt & Hbest). f_equal.
      assert (Hcp : lessThan p c = false).
      { apply Hbest; [|exact Hca].
        apply in_or_app. left. apply in_or_app. right. left. reflexivity. }
      apply in_app_or in Hin. destruct Hin as [Hin|[<-|Hin]].
      * apply in_app_or in Hin. destruct Hin as [Hin|[<-|[]]]; [|reflexivity].
        specialize (Hl1c p Hin). inv Hl1c. congruence.
      * rewrite lessThan_irrefl in Hlt. discriminate.
      * rewrite (lessThan_asym _ _ (Habove p Hin)) in Hlt. discriminate.
    + assert (Hc : lessThan c a = false).
      { apply Hpred. apply in_or_app. left. apply in_or_app. right. left.
        reflexivity. }
      congruence.
Qed.

(** X14.  [next] and [previous] walk the stored keys in their order: for the
    key at position [i] of the in-order keys, [next] returns the key at
    position [i + 1] and [previous] the key at position [i - 1], absent at
    the two ends. *)
Theorem next_previous_walk_the_keys (t : Tree) (i : nat) (a : Key) :
  reachable t -> nth_error (keysOf (root t)) i = Some a ->
  next t a = nth_error (keysOf (root t)) (S i)
  /\ previous t a = match i with
                    | O => None
                    | S j => nth_error (keysOf (root t)) j
                    end.
Proof.
  intros Hreach Hnth. destruct (reachable_Inv t Hreach) as (_ & _ & Hbst & _).
  pose proof (proj1 (bst_ordered _) Hbst) as Hord.
  split.
  - apply (successor_nth _ _ _ _ Hord Hnth). apply (next_spec (root t) a Hbst).
  - apply (predecessor_nth _ _ _ _ Hord Hnth).
    apply (previous_spec (root t) a Hbst).
Qed.

(** * Further properties of the mutations *)

(** X15.  On a tree that is not empty, [deleteMax] returns true, takes one
    off [size] and removes the entry of the largest key, the one [max]
    returns, and nothing else; the key is not stored afterwards. *)
Theorem deleteMax_removes_maximum (t : Tree) :
  reachable t -> root t <> null ->
  exists t' k v,
    deleteMax t = Ok (true, t')
    /\ size t' = size t - 1
    /\ max t = Ok (Some k)
    /\ inorder (root t) = inorder (root t') ++ [(k, v)]
    /\ (forall q, In q (keysOf (root t')) -> lessThan q k = true)
    /\ get t' k = None.
Proof.
  intros Hreach Hnn. pose proof (reachable_Inv t Hreach) as Ht.
  pose proof Ht as (_ & _ & Hbst & _).
  destruct (deleteMax_Inv t Ht Hnn) as (t' & [k v] & Hdel & Ht' & Hin & Hs).
  exists t', k, v.
  assert (Hbelow : forall q, In q (keysOf (root t')) -> lessThan q k = true).
  { apply bst_ordered in Hbst. unfold keysOf in *.
    rewrite Hin, map_app in Hbst. apply ordered_app in Hbst.
    destruct Hbst as (_ & _ & Hall). rewrite Forall_forall in Hall.
    intros q Hq. specialize (Hall q Hq). inv Hall. assumption. }
  split; [exact Hdel|]. split; [exact Hs|].
  split; [exact (max_spec t k v _ Hin)|]. split; [exact Hin|].
  split; [exact Hbelow|].
  destruct Ht' as (_ & _ & Hbst' & _). rewrite get_spec by exact Hbst'.
  apply lookup_None. apply Forall_forall. intros x Hx.
  apply greaterThan_neq. apply Hbelow. exact Hx.
Qed.

Lemma del_ins_list (key : Key) (value : Value) (l : list (Key * Value)) :
  del_list key (ins_list key value l) = del_list key l.
Proof.
  induction l as [|[a b] l IH]; cbn [ins_list].
  - rewrite del_list_cons, equality_refl. reflexivity.
  - destruct (equality key a) eqn:Heq.
    + rewrite !del_list_cons, Heq. reflexivity.
    + destruct (lessThan key a).
      * rewrite del_list_cons, equality_refl. reflexivity.
      * rewrite !del_list_cons, Heq, IH. reflexivity.
Qed.

Lemma ins_del_list (key : Key) (value : Value) (l : list (Key * Value)) :
  ordered (map fst l) -> lookup key l = Some value ->
  ins_list key value (del_list key l) = l.
Proof.
  induction l as [|[a b] l IH]; [discriminate|].
  intros [Ha Hl] Hlook. cbn [map fst] in Ha, Hl. simpl in Hlook.
  rewrite del_list_cons. rewrite Forall_forall in Ha.
  destruct (equality key a) eqn:Heq.
  - apply equality_spec in Heq. subst a. inv Hlook. cbn [app].
    rewrite del_list_absent
      by (apply Forall_forall; intros x Hx; apply lessThan_neq; auto).
    destruct l as [|[c d] l]; [reflexivity|].
    assert (Hc : lessThan key c = true) by (apply Ha; left; reflexivity).
    cbn [ins_list]. rewrite (lessThan_neq _ _ Hc), Hc. reflexivity.
  - cbn [app ins_list]. rewrite Heq.
    assert (Hak : lessThan a key = true).
    { apply Ha. apply lookup_Some_iff. rewrite Hlook. discriminate. }
    rewrite (lessThan_asym _ _ Hak), (IH Hl Hlook). reflexivity.
Qed.

(** X16.  [set] and [delete] undo each other on the entries: setting a key
    that is not stored and deleting it, and deleting a stored key and
    setting it to its old value, both return and leave the entries and
    [size] as they were. *)
Theorem set_and_delete_undo_each_other (t : Tree) (key : Key)
  (value : Value) :
  reachable t ->
  (get t key = None ->
   exists t1 t2,
     set t key value = Ok t1 /\ delete t1 key = Ok (true, t2)
     /\ inorder (root t2) = inorder (root t) /\ size t2 = size t)
  /\ (get t key = Some value ->
      exists t1 t2,
        delete t key = Ok (true, t1) /\ set t1 key value = Ok t2
        /\ inorder (root t2) = inorder (root t) /\ size t2 = size t).
Proof.
  intros Hreach. pose proof (reachable_Inv t Hreach) as Ht.
  pose proof Ht as (_ & _ & Hbst & Hsize).
  pose proof (proj1 (bst_ordered _) Hbst) as Hord. unfold keysOf in Hord.
  assert (Hsame : forall t2 : Tree,
             Inv t2 -> inorder (root t2) = inorder (root t) ->
             size t2 = size t).
  { intros t2 (_ & _ & _ & Hsize2) Hin. unfold sizeOk in *.
    rewrite Hsize, Hsize2, <- !length_inorder, Hin. reflexivity. }
  split; intros Hget; rewrite get_spec in Hget by exact Hbst.
  - destruct (set_Inv t key value Ht) as (t1 & Hset & Ht1 & Hin1).
    pose proof (delete_Inv t1 key Ht1) as Hdel.
    assert (Hstored : In key (keysOf (root t1))).
    { unfold keysOf. apply lookup_Some_iff.
      rewrite Hin1, lookup_ins_list, equality_refl. discriminate. }
    destruct (delete t1 key) as [[b t2]|[]|] eqn:Hd; try contradiction.
    destruct Hdel as (Ht2 & Hin2 & Hb). apply Hb in Hstored. subst b.
    assert (Hin : inorder (root t2) = inorder (root t)).
    { rewrite Hin2, Hin1, del_ins_list. apply del_list_absent.
      apply Forall_forall. intros x Hx. apply equality_false. intros <-.
      apply lookup_None_iff in Hget. contradiction. }
    exists t1, t2. auto.
  - pose proof (delete_Inv t key Ht) as Hdel.
    assert (Hstored : In key (keysOf (root t))).
    { unfold keysOf. apply lookup_Some_iff. rewrite Hget. discriminate. }
    destruct (delete t key) as [[b t1]|[]|] eqn:Hd; try contradiction.
    destruct Hdel as (Ht1 & Hin1 & Hb). apply Hb in Hstored. subst b.
    destruct (set_Inv t1 key value Ht1) as (t2 & Hset & Ht2 & Hin2).
    assert (Hin : inorder (root t2) = inorder (root t)).
    { rewrite Hin2, Hin1. apply ins_del_list; assumption. }
    exists t1, t2. auto.
Qed.

(** The recursive [#delete] on a subtree all of whose keys are above [key]:
    it goes left until there is no left child, where its assertion fails. *)
Lemma delete_below (fuel : nat) :
  forall (node : Node) (key : Key) (n : nat) (s : Z),
    (nodes node < fuel)%nat -> delpre n node -> isRed (right node) = false ->
    allKeys (fun x => lessThan key x = true) node ->
    delete_ fuel node key s = Throw AssertionError.
Proof.
  induction fuel as [|fuel IH]; intros node key n s Hfuel Hpre Hright Hall;
    [lia|].
  destruct Hpre as [n node Hrb Hred | n l k v r Hrb Hlred
                   | n l k v r Hl Hlb Hr Hrred].
  - destruct (rb_red_inv _ _ Hrb Hred)
      as (l & k & v & r & -> & Hl & Hr & Hlb & Hrb').
    cbn [allKeys] in Hall. destruct Hall as (Hall_l & Hk & Hall_r).
    cbn [delete_]. rewrite Hk.
    destruct (rb_black_cases _ _ Hl Hlb)
      as [[-> ->] | (m & ll & lk & lv & lr & -> & -> & Hll & Hlr & Hlrb)];
      [reflexivity|].
    destruct (rb_S_black _ _ Hr Hrb')
      as (rl & rk & rv & rr & -> & Hrl & Hrr & Hrrb).
    decide_tests. destruct (isRed ll) eqn:Hllred.
    + decide_tests.
      rewrite (IH (mkNode Black ll lk lv lr) key (S m) s);
        [reflexivity | simpl in *; lia | apply delpre_left; auto with llrb
        | assumption | assumption].
    + decide_tests. destruct (isRed rl) eqn:Hrlred.
      * destruct (rb_red_inv _ _ Hrl Hrlred)
          as (rll & rlk & rlv & rlr & -> & Hrll & Hrlr & Hrllb & Hrlrb).
        decide_tests.
        rewrite (IH (mkNode Black (mkNode Red ll lk lv lr) k v rll) key
                   (S m) s);
          [reflexivity | simpl in *; lia | apply delpre_left; auto with llrb
          | assumption | cbn [allKeys] in *; tauto].
      * decide_tests.
        rewrite (IH (mkNode Red ll lk lv lr) key m s);
          [reflexivity | simpl in *; lia | apply delpre_red; auto with llrb
          | assumption | assumption].
  - destruct (rb_black_inv _ _ _ _ _ Hrb) as (m & -> & Hl & Hr & Hrb').
    destruct (rb_red_inv _ _ Hl Hlred)
      as (ll & lk & lv & lr & -> & Hll & Hlr & Hllb & Hlrb).
    cbn [allKeys] in Hall. destruct Hall as (Hall_l & Hk & Hall_r).
    cbn [delete_]. rewrite Hk. decide_tests.
    rewrite (IH (mkNode Red ll lk lv lr) key m s);
      [reflexivity | simpl in *; lia | apply delpre_red; auto with llrb
      | assumption | assumption].
  - simpl in Hright. congruence.
Qed.

(** The recursive [#delete] on a subtree all of whose keys are below [key]:
    it goes right until there is no right child and returns. *)
Lemma delete_above (fuel : nat) :
  forall (node : Node) (key : Key) (n : nat) (s : Z),
    (nodes node < fuel)%nat -> delpre n node ->
    allKeys (fun x => lessThan x key = true) node ->
    exists node' s', delete_ fuel node key s = Ok (node', s').
Proof.
  assert (Hfix : forall (c : Color) (l : Node) (k : Key) (v : Value)
                        (r : Node) (s : Z),
             exists node' s',
               (node <- fixUp (mkNode c l k v r) ;; Ok (node, s))
               = Ok (node', s')).
  { intros c l k v r s.
    destruct (fixUp_total c l k v r) as (c' & l' & k' & v' & r' & Hf).
    rewrite Hf. cbn [bind]. eauto. }
  induction fuel as [|fuel IH]; intros node key n s Hfuel Hpre Hall; [lia|].
  destruct Hpre as [n node Hrb Hred | n l k v r Hrb Hlred
                   | n l k v r Hl Hlb Hr Hrred].
  - destruct (rb_red_inv _ _ Hrb Hred)
      as (l & k & v & r & -> & Hl & Hr & Hlb & Hrb').
    cbn [allKeys] in Hall. destruct Hall as (Hall_l & Hk & Hall_r).
    cbn [delete_]. rewrite (lessThan_asym _ _ Hk).
    pose proof (greaterThan_neq _ _ Hk) as Hne.
    destruct (rb_black_cases _ _ Hr Hrb')
      as [[-> ->] | (m & rl & rk & rv & rr & -> & -> & Hrl & Hrr & Hrrb)].
    + rewrite (rb_0_black _ Hl Hlb). decide_tests. first [apply Hfix | eauto].
    + destruct (rb_S_black _ _ Hl Hlb)
        as (ll & lk & lv & lr & -> & Hll & Hlr & Hlrb).
      decide_tests. rewrite ?andb_false_r.
      destruct (isRed rl) eqn:Hrlred.
      * decide_tests.
        destruct (IH (mkNode Black rl rk rv rr) key (S m) s)
          as (r' & s' & Hdel);
          [simpl in *; lia | apply delpre_left; auto with llrb | assumption|].
        rewrite Hdel. cbn [bind]. first [apply Hfix | eauto].
      * decide_tests. destruct (isRed ll) eqn:Hllred.
        -- destruct (rb_red_inv _ _ Hll Hllred)
             as (lll & llk & llv & llr & -> & Hlll & Hllr & Hlllb & Hllrb).
           decide_tests. cbn [allKeys] in Hall_l.
           destruct Hall_l as (Hall_ll & Hlk & Hall_lr).
           rewrite (greaterThan_neq _ _ Hlk). decide_tests.
           destruct (IH (mkNode Black lr k v (mkNode Red rl rk rv rr)) key
                       (S m) s) as (r' & s' & Hdel);
             [simpl in *; lia | apply delpre_right; auto with llrb
             | cbn [allKeys] in *; tauto |].
           rewrite Hdel. cbn [bind]. first [apply Hfix | eauto].
        -- decide_tests.
           destruct (IH (mkNode Red rl rk rv rr) key m s)
             as (r' & s' & Hdel);
             [simpl in *; lia | apply delpre_red; auto with llrb
             | assumption |].
           rewrite Hdel. cbn [bind]. first [apply Hfix | eauto].
  - destruct (rb_black_inv _ _ _ _ _ Hrb) as (m & -> & Hl & Hr & Hrb').
    destruct (rb_red_inv _ _ Hl Hlred)
      as (ll & lk & lv & lr & -> & Hll & Hlr & Hllb & Hlrb).
    cbn [allKeys] in Hall.
    destruct Hall as ((Hall_ll & Hlk & Hall_lr) & Hk & Hall_r).
    cbn [delete_]. rewrite (lessThan_asym _ _ Hk). decide_tests.
    rewrite (greaterThan_neq _ _ Hlk). decide_tests.
    destruct (IH (mkNode Red lr k v r) key m s) as (r' & s' & Hdel);
      [simpl in *; lia | apply delpre_red; auto with llrb
      | cbn [allKeys]; tauto |].
    rewrite Hdel. cbn [bind]. first [apply Hfix | eauto].
  - destruct (rb_red_inv _ _ Hr Hrred)
      as (rl & rk & rv & rr & -> & Hrl & Hrr & Hrlb & Hrrb).
    cbn [allKeys] in Hall. destruct Hall as (Hall_l & Hk & Hall_r).
    cbn [delete_]. rewrite (lessThan_asym _ _ Hk). decide_tests.
    rewrite ?andb_false_r, ?(greaterThan_neq _ _ Hk). decide_tests.
    destruct (IH (mkNode Red rl rk rv rr) key n s) as (r' & s' & Hdel);
      [simpl in *; lia | apply delpre_red; auto with llrb | assumption |].
    rewrite Hdel. cbn [bind]. first [apply Hfix | eauto].
Qed.

Lemma allKeys_toggle (P : Key -> Prop) (node : Node) :
  allKeys P (toggle node) <-> allKeys P node.
Proof. destruct node; simpl; tauto. Qed.

(** X17.  [delete] of a key below every stored key never returns false: on a
    tree that is not empty the assertion [node.left !== null] of [#delete]
    fails. *)
Theorem delete_below_minimum_asserts (t : Tree) (key : Key) :
  reachable t -> root t <> null ->
  (forall q, In q (keysOf (root t)) -> lessThan key q = true) ->
  delete t key = Throw AssertionError.
Proof.
  intros Hreach Hnn Hbelow.
  destruct (reachable_Inv t Hreach) as ((n & Hrb) & Hblack & _ & _).
  assert (Hall : allKeys (fun x => lessThan key x = true) (root t)).
  { apply allKeys_Forall, Forall_forall. exact Hbelow. }
  unfold delete. apply deletion_Throw; [exact Hnn|].
  destruct (root_delpre _ _ Hrb Hblack Hnn)
    as [[Hpre Hright] | (m & red & Heq & Hpre & Hred & Hright)].
  - apply (delete_below _ _ key n); auto.
  - rewrite Heq in Hall |- *. rewrite nodes_toggle, delete_toggle.
    rewrite (delete_below _ red key m); auto.
    apply allKeys_toggle. exact Hall.
Qed.

(** X18.  [delete] of a key above every stored key is the no-op it is meant
    to be: it returns false and leaves the entries and [size] as they were. *)
Theorem delete_above_maximum_returns_false (t : Tree) (key : Key) :
  reachable t ->
  (forall q, In q (keysOf (root t)) -> lessThan q key = true) ->
  exists t',
    delete t key = Ok (false, t')
    /\ inorder (root t') = inorder (root t)
    /\ size t' = size t.
Proof.
  intros Hreach Habove. pose proof (reachable_Inv t Hreach) as Ht.
  pose proof Ht as ((n & Hrb) & Hblack & _ & Hsize).
  assert (Hall : allKeys (fun x => lessThan x key = true) (root t)).
  { apply allKeys_Forall, Forall_forall. exact Habove. }
  assert (Habsent : ~ In key (keysOf (root t))).
  { intros Hin. specialize (Habove key Hin).
    rewrite lessThan_irrefl in Habove. discriminate. }
  assert (Hok : exists b t', delete t key = Ok (b, t')).
  { unfold delete. destruct (root t) as [|c l k v r] eqn:Hroot.
    - rewrite deletion_null by exact Hroot. eauto.
    - assert (Hnn : root t <> null) by (rewrite Hroot; discriminate).
      rewrite <- Hroot in *.
      assert (Hrun : exists node' s',
                 delete_ (S (nodes (root t))) (root t) key (size t)
                 = Ok (node', s')).
      { destruct (root_delpre _ _ Hrb Hblack Hnn)
          as [[Hpre Hright] | (m & red & Heq & Hpre & Hred & Hright)].
        - apply (delete_above _ _ key n); auto.
        - rewrite Heq in Hall |- *. rewrite nodes_toggle, delete_toggle.
          destruct (delete_above (S (nodes red)) red key m (size t))
            as (node' & s' & Hdel);
            [lia | exact Hpre | apply allKeys_toggle; exact Hall |].
          rewrite Hdel. do 2 eexists. reflexivity. }
      destruct Hrun as (node' & s' & Hrun).
      rewrite (deletion_Ok _ t node' s' Hnn Hrun). eauto. }
  destruct Hok as (b & t' & Hdel).
  pose proof (delete_Inv t key Ht) as H. rewrite Hdel in H.
  destruct H as (Ht' & Hin & Hb).
  assert (Hsame : inorder (root t') = inorder (root t)).
  { rewrite Hin. apply del_list_none. apply absent_In. exact Habsent. }
  exists t'. destruct b; [destruct Habsent; apply Hb; reflexivity|].
  split; [exact Hdel|]. split; [exact Hsame|].
  destruct Ht' as (_ & _ & _ & Hsize'). unfold sizeOk in *.
  rewrite Hsize, Hsize', <- !length_inorder, Hsame. reflexivity.
Qed.

(** X19.  The empty tree: [size] is 0 exactly when there is no root; then
    every query answers absent, the three deletions return false and change
    nothing, and [entries()] is done at its first call.  [clear] gives the
    empty tree. *)
Theorem empty_tree_behaviour (t : Tree) (key : Key) :
  reachable t ->
  (size t = 0 <-> root t = null)
  /\ (size t = 0 ->
      get t key = None /\ min t = Ok None /\ max t = Ok None
      /\ previous t key = None /\ next t key = None
      /\ delete t key = Ok (false, t)
      /\ deleteMin t = Ok (false, t)
      /\ deleteMax t = Ok (false, t)
      /\ entriesNext (entries t) = Ok (Done _, entries t))
  /\ clear t = empty.
Proof.
  intros Hreach. destruct (reachable_Inv t Hreach) as (_ & _ & _ & Hsize).
  unfold sizeOk in Hsize.
  assert (Hiff : size t = 0 <-> root t = null).
  { rewrite Hsize. destruct (root t); simpl; split; intros H;
      (reflexivity || discriminate || lia). }
  split; [exact Hiff|]. split; [|reflexivity].
  intros H0. apply Hiff in H0.
  unfold get, min, max, previous, next, delete, deleteMin, deleteMax,
    entriesNext, entries.
  rewrite !deletion_null by exact H0. rewrite H0. simpl.
  repeat split; reflexivity.
Qed.

Lemma call_refines (c : Call Key Value) (t t' : Tree) :
  Inv t -> call c t = Ok t' ->
  Inv t' /\ inorder (root t') = call_list c (inorder (root t)).
Proof.
  intros Ht H. split; [exact (call_Inv c t t' Ht H)|].
  destruct c as [key value|key| | |]; cbn [call call_list] in *.
  - destruct (set_Inv t key value Ht) as (t1 & Heq & _ & Hin).
    rewrite Heq in H. inv H. exact Hin.
  - pose proof (delete_Inv t key Ht) as Hd.
    destruct (delete t key) as [[b t1]|[]|]; cbn [bind] in H; try discriminate.
    inv H. apply Hd.
  - destruct (root t) eqn:Hroot.
    + unfold deleteMin in H. rewrite deletion_null in H by assumption.
      cbn [bind] in H. inv H. rewrite Hroot. reflexivity.
    + destruct (deleteMin_Inv t Ht) as (t1 & e & Heq & _ & Hin & _);
        [rewrite Hroot; discriminate|].
      rewrite Heq in H. cbn [bind] in H. inv H.
      rewrite <- Hroot, Hin. reflexivity.
  - destruct (root t) eqn:Hroot.
    + unfold deleteMax in H. rewrite deletion_null in H by assumption.
      cbn [bind] in H. inv H. rewrite Hroot. reflexivity.
    + destruct (deleteMax_Inv t Ht) as (t1 & e & Heq & _ & Hin & _);
        [rewrite Hroot; discriminate|].
      rewrite Heq in H. cbn [bind] in H. inv H.
      rewrite <- Hroot, Hin. symmetry. apply removelast_last.
  - inv H. reflexivity.
Qed.

(** X20.  The tree behaves as the sorted list of its entries.  When a run of
    public calls returns, the entries are those of the list on which [set]
    inserts or overwrites in place, [delete] removes the entry of the key,
    [deleteMin] and [deleteMax] drop the first and the last entry and
    [clear] drops all; [size] is the length of that list. *)
Theorem run_refines_sorted_list (calls : list (Call Key Value)) (t t' : Tree) :
  reachable t -> run calls t = Ok t' ->
  inorder (root t') = run_list calls (inorder (root t))
  /\ size t' = Z.of_nat (length (run_list calls (inorder (root t)))).
Proof.
  intros Hreach Hrun. pose proof (reachable_Inv t Hreach) as Ht. clear Hreach.
  assert (H : Inv t' /\ inorder (root t') = run_list calls (inorder (root t))).
  { revert t Ht Hrun. induction calls as [|c rest IH]; intros t Ht Hrun.
    - inv Hrun. auto.
    - cbn [run] in Hrun.
      destruct (call c t) as [t1| |] eqn:Hc; cbn [bind] in Hrun;
        try discriminate.
      destruct (call_refines c t t1 Ht Hc) as [Ht1 Hin1].
      destruct (IH t1 Ht1 Hrun) as [Ht' Hin']. split; [exact Ht'|].
      rewrite Hin', Hin1. reflexivity. }
  destruct H as [(_ & _ & _ & Hsize) Hin]. split; [exact Hin|].
  unfold sizeOk in Hsize. rewrite Hsize, <- Hin, length_inorder. reflexivity.
Qed.

(** * The height of the tree and the iterators *)

Lemma rb_nodes (n : nat) (x : Node) : rb n x -> (2 ^ n <= S (nodes x))%nat.
Proof. induction 1; simpl in *; lia. Qed.

Lemma rb_height (n : nat) (x : Node) :
  rb n x -> (height x <= 2 * n + (if isRed x then 1 else 0))%nat.
Proof.
  induction 1 as [|n l k v r Hl IHl Hr IHr Hlb Hrb
                  |n l k v r Hl IHl Hr IHr Hrb]; simpl in *.
  - lia.
  - rewrite Hlb in IHl. rewrite Hrb in IHr. lia.
  - rewrite Hrb in IHr. destruct (isRed l); lia.
Qed.

(** X21.  The tree is logarithmic: in every tree one can hold, no path from
    the root to a null leaf has more than [2 * log2 (size + 1)] nodes, that
    is, two to the power of the height is at most the square of [size + 1].
    This bounds the depth of every recursive method. *)
Theorem height_is_logarithmic (t : Tree) :
  reachable t ->
  (2 ^ height (root t) <= (S (nodes (root t))) ^ 2)%nat
  /\ size t = Z.of_nat (nodes (root t)).
Proof.
  intros Hreach.
  destruct (reachable_Inv t Hreach) as ((n & Hrb) & Hblack & _ & Hsize).
  split; [|exact Hsize].
  pose proof (rb_nodes n _ Hrb) as Hn. pose proof (rb_height n _ Hrb) as Hh.
  rewrite Hblack in Hh.
  apply Nat.le_trans with (2 ^ (n * 2))%nat.
  - apply Nat.pow_le_mono_r; lia.
  - rewrite Nat.pow_mul_r. apply Nat.pow_le_mono_l. exact Hn.
Qed.

Lemma entriesLoop_done (node : Node) :
  forall (stack : list Node) (it' : EntriesIterator Key Value),
    entriesLoop node stack = Ok (Done _, it') ->
    it' = {| it_node := null; it_stack := [] |}.
Proof.
  induction node as [|c l IHl k v r _]; intros stack it' H.
  - cbn [entriesLoop] in H. destruct stack as [|[|c l k v r] stack]; inv H.
    reflexivity.
  - cbn [entriesLoop] in H. eapply IHl. exact H.
Qed.

Lemma entriesLoop_bound (h : nat) (node : Node) :
  forall (stack : list Node) (res : IteratorResult (Key * Value))
         (it' : EntriesIterator Key Value),
    (height node + length stack <= h)%nat -> stackBound h stack ->
    entriesLoop node stack = Ok (res, it') ->
    (height (it_node it') + length (it_stack it') <= h)%nat
    /\ stackBound h (it_stack it').
Proof.
  induction node as [|c l IHl k v r _]; intros stack res it' Hh Hstack H.
  - cbn [entriesLoop] in H. destruct stack as [|[|c l k v r] stack]; inv H.
    + simpl. split; [lia|exact I].
    + simpl in *. tauto.
  - cbn [entriesLoop] in H. eapply IHl; [| |exact H].
    + simpl in *. lia.
    + simpl in *. split; [lia|assumption].
Qed.

Lemma advance_spec (n : nat) :
  forall (h : nat) (it : EntriesIterator Key Value),
    stackOk it ->
    (height (it_node it) + length (it_stack it) <= h)%nat ->
    stackBound h (it_stack it) ->
    exists it' it'',
      advance n it = Ok it'
      /\ (height (it_node it') + length (it_stack it') <= h)%nat
      /\ entriesNext it' = Ok (nthResult (pending it) n, it'').
Proof.
  induction n as [|n IH]; intros h it Hok Hh Hstack.
  - cbn [advance]. unfold entriesNext, nthResult.
    pose proof (entriesLoop_spec (it_node it) (it_stack it) Hok) as H.
    fold (pending it) in H. destruct (pending it) as [|e rest].
    + destruct H as (it' & H). exists it, it'. split; [reflexivity|].
      split; [exact Hh|exact H].
    + destruct H as (it' & H & _). exists it, it'. split; [reflexivity|].
      split; [exact Hh|exact H].
  - cbn [advance]. unfold entriesNext at 1.
    pose proof (entriesLoop_spec (it_node it) (it_stack it) Hok) as H.
    fold (pending it) in H. unfold nthResult.
    destruct (pending it) as [|e rest] eqn:Hpending.
    + destruct H as (it1 & H). rewrite H. cbn [bind].
      pose proof (entriesLoop_done _ _ _ H) as ->.
      destruct (IH h {| it_node := null; it_stack := [] |})
        as (it' & it'' & Hadv & Hlen & Hnext);
        [constructor | simpl; lia | exact I |].
      exists it', it''. split; [exact Hadv|]. split; [exact Hlen|].
      rewrite Hnext. unfold nthResult, pending. simpl.
      destruct n; reflexivity.
    + destruct H as (it1 & H & Hok1 & Hrest). rewrite H. cbn [bind].
      destruct (entriesLoop_bound h _ _ _ _ Hh Hstack H) as [Hh1 Hstack1].
      destruct (IH h it1 Hok1 Hh1 Hstack1)
        as (it' & it'' & Hadv & Hlen & Hnext).
      exists it', it''. split; [exact Hadv|]. split; [exact Hlen|].
      rewrite Hnext, Hrest. reflexivity.
Qed.

(** X22.  The iterator of [entries()] call by call: whatever the tree, the
    call of [next] that follows [n] earlier calls returns the entry at
    position [n] of the in-order sequence, and done when there is none, also
    when the iterator was done before; no call fails.  Between two calls the
    stack of the iterator, with the height of the subtree still to be pushed,
    stays within the height of the tree. *)
Theorem entries_next_call_by_call (t : Tree) (n : nat) :
  exists it it',
    advance n (entries t) = Ok it
    /\ entriesNext it = Ok (nthResult (inorder (root t)) n, it')
    /\ (height (it_node it) + length (it_stack it) <= height (root t))%nat.
Proof.
  destruct (advance_spec n (height (root t)) (entries t))
    as (it & it' & Hadv & Hlen & Hnext).
  - constructor.
  - simpl. lia.
  - exact I.
  - exists it, it'. split; [exact Hadv|]. split; [|exact Hlen].
    rewrite Hnext. unfold pending, entries. simpl. rewrite app_nil_r.
    reflexivity.
Qed.

(** * Further properties of [set] *)

Lemma set_size (node : Node) (key : Key) (value : Value) :
  forall (s : Z) (node' : Node) (s' : Z),
    set_ node key value s = Ok (node', s') -> s' = s \/ s' = s + 1.
Proof.
  induction node as [|c l IHl k v r IHr]; intros s node' s' H.
  - simpl in H. inv H. right. reflexivity.
  - cbn [set_] in H. apply bind_Ok in H. destruct H as ([n1 s1] & H1 & H).
    apply bind_Ok in H. destruct H as (n2 & _ & H). inv H.
    destruct (equality key k); [inv H1; left; reflexivity|].
    destruct (lessThan key k).
    + apply bind_Ok in H1. destruct H1 as ([l1 s2] & H1 & H3). inv H3.
      eapply IHl. exact H1.
    + apply bind_Ok in H1. destruct H1 as ([r1 s2] & H1 & H3). inv H3.
      eapply IHr. exact H1.
Qed.

(** X23.  [set] never fails, whatever tree it is given, also one that breaks
    the invariants: the assertion in [fixUp] cannot fail.  It returns a tree
    with a black root, and [size] is as before or one more. *)
Theorem set_never_fails (t : Tree) (key : Key) (value : Value) :
  exists t',
    set t key value = Ok t'
    /\ root t' <> null /\ isRed (root t') = false
    /\ (size t' = size t \/ size t' = size t + 1).
Proof.
  destruct (set_total (root t) key value (size t))
    as (c & l & k & v & r & s' & Heq).
  unfold set. rewrite Heq. cbn [bind blacken].
  eexists. split; [reflexivity|]. cbn [root size].
  split; [discriminate|]. split; [reflexivity|].
  eapply set_size. exact Heq.
Qed.

Lemma set_same (node : Node) (key : Key) (value : Value) (s : Z) :
  forall n : nat,
    rb n node -> foundValue (get_ node key) = Some value ->
    set_ node key value s = Ok (node, s).
Proof.
  induction node as [|c l IHl k v r IHr]; intros n Hrb Hget; [discriminate|].
  destruct (rb_node_inv _ _ _ _ _ _ Hrb) as (m & Hl & Hr & Hrblack & Hleft).
  cbn [get_ set_] in *.
  destruct (equality key k).
  - simpl in Hget. inv Hget. cbn [bind].
    rewrite fixUp_id by assumption. reflexivity.
  - destruct (lessThan key k).
    + rewrite (IHl m Hl Hget). cbn [bind].
      rewrite fixUp_id by assumption. reflexivity.
    + rewrite (IHr m Hr Hget). cbn [bind].
      rewrite fixUp_id by assumption. reflexivity.
Qed.

(** X24.  Setting a key to the value it already has changes nothing: [set]
    returns the very same tree, with its shape, its colours and its [size]. *)
Theorem set_same_pair_changes_nothing (t : Tree) (key : Key) (value : Value) :
  reachable t -> get t key = Some value -> set t key value = Ok t.
Proof.
  intros Hreach Hget.
  destruct (reachable_Inv t Hreach) as ((n & Hrb) & Hblack & _ & _).
  unfold set. rewrite (set_same (root t) key value (size t) n Hrb Hget).
  cbn [bind]. destruct t as [[|[] l k v r] s]; try discriminate. reflexivity.
Qed.

End Proofs.

(** * Integer keys *)

#[export] Instance TotalOrder_Z : TotalOrder Z.
Proof.
  constructor; unfold lessThan, lessThanOrEqual, greaterThanOrEqual, equality;
    simpl; unfold Equatable_Z; intros.
  - apply Z.ltb_irrefl.
  - apply Z.ltb_lt. apply Z.ltb_lt in H, H0. lia.
  - apply Z.ltb_ge in H, H0. lia.
  - apply Z.eqb_eq.
  - apply Z.leb_antisym.
  - rewrite Z.geb_leb. apply Z.leb_antisym.
Qed.

Lemma sampleTree_run : run sampleCalls empty = Ok sampleTree.
Proof. vm_compute. reflexivity. Qed.

Lemma sampleTree_reachable : reachable sampleTree.
Proof.
  exists [], sampleCalls, empty. split; [reflexivity|exact sampleTree_run].
Qed.

Lemma tree1357_reachable : reachable tree1357.
Proof.
  exists [(1, 10); (3, 30); (5, 50); (7, 70)], [], tree1357.
  split; vm_compute; reflexivity.
Qed.

(** C2 fails on the code.  The tree that holds only the key 5 does not hold
    the key 3, and [delete(3)] on it does not return false: the assertion
    [node.left !== null] of [#delete] fails. *)
Theorem delete_absent_key_asserts :
  set empty 5 50 = Ok tree5
  /\ get tree5 3 = None
  /\ delete tree5 3 = Throw AssertionError.
Proof. repeat split. Qed.

(** C6.  In every tree, [previous(k)] is the largest stored key strictly below
    [k] and [next(k)] the smallest stored key strictly above [k], absent when
    there is none.  In a tree with exactly the keys 1, 3, 5, 7:
    [previous(5) = 3], [next(5) = 7], [previous(1)] and [next(7)] are absent,
    [previous(4) = 3] and [next(4) = 5]. *)
Theorem previous_next_correct :
  (forall (Key Value : Type) (E : Equatable Key) (C : Comparable Key),
      TotalOrder Key ->
      forall (t : RedBlackTree Key Value) (key : Key),
        reachable t ->
        isPredecessor (keysOf (root t)) key (previous t key)
        /\ isSuccessor (keysOf (root t)) key (next t key))
  /\ (forall (Value : Type) (t : RedBlackTree Z Value),
         reachable t -> keysOf (root t) = [1; 3; 5; 7] ->
         previous t 5 = Some 3 /\ next t 5 = Some 7
         /\ previous t 1 = None /\ next t 7 = None
         /\ previous t 4 = Some 3 /\ next t 4 = Some 5).
Proof.
  split.
  - intros Key Value E C TO t key Hreach.
    exact (previous_next_spec t key Hreach).
  - intros Value t Hreach Hkeys.
    assert (H : forall key,
               isPredecessor [1; 3; 5; 7] key (previous t key)
               /\ isSuccessor [1; 3; 5; 7] key (next t key)).
    { intros key. rewrite <- Hkeys. exact (previous_next_spec t key Hreach). }
    pose proof (H 5) as [Hp5 Hn5]. pose proof (H 1) as [Hp1 _].
    pose proof (H 7) as [_ Hn7]. pose proof (H 4) as [Hp4 Hn4].
    unfold isPredecessor, isSuccessor in *.
    repeat split;
      match goal with
      | Hx : match ?r with Some _ => _ | None => _ end |- ?r = _ =>
          destruct r as [p|];
          [ destruct Hx as (Hin & Hlt & Hbest); simpl in Hin;
            pose proof (Hbest 1); pose proof (Hbest 3);
            pose proof (Hbest 5); pose proof (Hbest 7);
            unfold lessThan in *; simpl in *;
            repeat match goal with
              | Hd : _ \/ _ |- _ => destruct Hd
              | Hf : False |- _ => destruct Hf
              end;
            subst; simpl in *;
            first [ reflexivity | discriminate
                  | exfalso; intuition discriminate ]
          | pose proof (Hx 1); pose proof (Hx 3);
            pose proof (Hx 5); pose proof (Hx 7);
            unfold lessThan in *; simpl in *;
            first [ reflexivity | exfalso; intuition discriminate ] ]
      end.
Qed.

(** * The claims on sample trees *)

Lemma mutations_keep_llrb_witness :
  run sampleCalls empty = Ok sampleTree
  /\ (noRedRight (root sampleTree) /\ noRedLeftLeft (root sampleTree)
      /\ blackBalanced (root sampleTree) /\ isRed (root sampleTree) = false).
Proof.
  split; [vm_compute; reflexivity|].
  apply (mutations_keep_llrb sampleCalls sampleTree).
  vm_compute. reflexivity.
Defined.

Lemma set_then_get_witness :
  TotalOrder Z
  /\ exists t : RedBlackTree Z Z,
      run (map (fun e => CallSet (fst e) (snd e)) sampleEntries) empty = Ok t
      /\ (forall k v pre post,
             sampleEntries = pre ++ (k, v) :: post -> ~ In k (map fst post) ->
             get t k = Some v)
      /\ (forall k, ~ In k (map fst sampleEntries) -> get t k = None)
      /\ (forall k v,
             exists t',
               set t k v = Ok t'
               /\ size t' = match get t k with
                            | Some _ => size t
                            | None => size t + 1
                            end
               /\ get t' k = Some v
               /\ forall k', k' <> k -> get t' k' = get t k').
Proof.
  split; [exact TotalOrder_Z|].
  apply (set_then_get sampleEntries).
Defined.


Lemma deleteMin_removes_minimum_witness :
  reachable sampleTree
  /\ ((root sampleTree <> null ->
       exists t' k v,
         deleteMin sampleTree = Ok (true, t')
         /\ size t' = size sampleTree - 1
         /\ min sampleTree = Ok (Some k)
         /\ inorder (root sampleTree) = (k, v) :: inorder (root t')
         /\ forall q, In q (keysOf (root t')) -> lessThan k q = true)
      /\ (exists ks,
             drainMin (S (nodes (root sampleTree))) sampleTree = Ok ks
             /\ ks = keysOf (root sampleTree)
             /\ Sorted (fun a b => lessThan a b = true) ks)
      /\ (exists ks,
             drainMax (S (nodes (root sampleTree))) sampleTree = Ok ks
             /\ ks = rev (keysOf (root sampleTree))
             /\ Sorted (fun a b => lessThan b a = true) ks)).
Proof.
  assert (H : reachable sampleTree).
  { exists [], sampleCalls, empty. split; vm_compute; reflexivity. }
  split; [exact H|].
  apply (deleteMin_removes_minimum sampleTree H).
Defined.

Lemma previous_next_correct_witness :
  reachable tree1357
  /\ keysOf (root tree1357) = [1; 3; 5; 7]
  /\ (previous tree1357 5 = Some 3 /\ next tree1357 5 = Some 7
      /\ previous tree1357 1 = None /\ next tree1357 7 = None
      /\ previous tree1357 4 = Some 3 /\ next tree1357 4 = Some 5).
Proof.
  assert (H : reachable tree1357).
  { exists [(1, 10); (3, 30); (5, 50); (7, 70)], [], tree1357.
    split; vm_compute; reflexivity. }
  split; [exact H|]. split; [vm_compute; reflexivity|].
  apply (proj2 previous_next_correct Z tree1357 H).
  vm_compute. reflexivity.
Defined.

Lemma size_counts_nodes_witness :
  reachable sampleTree
  /\ (size sampleTree = Z.of_nat (nodes (root sampleTree))
      /\ (forall key value s node' s',
             set_ (root sampleTree) key value s = Ok (node', s') ->
             s' - s = Z.of_nat (nodes node')
                      - Z.of_nat (nodes (root sampleTree)))
      /\ (forall key s node' s',
             delete_ (S (nodes (root sampleTree))) (root sampleTree) key s
             = Ok (node', s') ->
             s' - s = Z.of_nat (nodes node')
                      - Z.of_nat (nodes (root sampleTree)))
      /\ (forall s node' s',
             deleteMin_ (S (nodes (root sampleTree))) (root sampleTree) s
             = Ok (node', s') ->
             s' - s = Z.of_nat (nodes node')
                      - Z.of_nat (nodes (root sampleTree)))
      /\ (forall s node' s',
             deleteMax_ (S (nodes (root sampleTree))) (root sampleTree) s
             = Ok (node', s') ->
             s' - s = Z.of_nat (nodes node')
                      - Z.of_nat (nodes (root sampleTree)))).
Proof.
  assert (H : reachable sampleTree).
  { exists [], sampleCalls, empty. split; vm_compute; reflexivity. }
  split; [exact H|].
  apply (size_counts_nodes sampleTree H).
Defined.

Lemma set_stored_key_changes_value_only_witness :
  llrb (root sampleTree)
  /\ bst (root sampleTree)
  /\ In 7 (keysOf (root sampleTree))
  /\ ((exists t',
          set sampleTree 7 700 = Ok t'
          /\ shape (root t') = shape (root sampleTree)
          /\ size t' = size sampleTree
          /\ get t' 7 = Some 700
          /\ forall k', k' <> 7 -> get t' k' = get sampleTree k')
      /\ forall (c : Color) (l : Node Z Z) (k v : Z) (r : Node Z Z),
          noRedRight (mkNode c l k v r) -> noRedLeftLeft (mkNode c l k v r) ->
          fixUp (mkNode c l k v r) = Ok (mkNode c l k v r)).
Proof.
  assert (H1 : llrb (root sampleTree)).
  { vm_compute. repeat split; try congruence.
    exists 2%nat. repeat constructor. }
  assert (H2 : bst (root sampleTree)) by (vm_compute; repeat split).
  assert (H3 : In 7 (keysOf (root sampleTree))).
  { vm_compute. right. left. reflexivity. }
  split; [exact H1|]. split; [exact H2|]. split; [exact H3|].
  apply (set_stored_key_changes_value_only sampleTree 7 700 H1 H2 H3).
Defined.

Lemma delete_stored_key_witness :
  reachable sampleTree
  /\ In 12 (keysOf (root sampleTree))
  /\ exists t',
      delete sampleTree 12 = Ok (true, t')
      /\ size t' = size sampleTree - 1
      /\ get t' 12 = None
      /\ (forall k', k' <> 12 -> get t' k' = get sampleTree k')
      /\ inorder (root t') = del_list 12 (inorder (root sampleTree)).
Proof.
  assert (H : reachable sampleTree).
  { exists [], sampleCalls, empty. split; vm_compute; reflexivity. }
  assert (Hin : In 12 (keysOf (root sampleTree))).
  { vm_compute. right. right. left. reflexivity. }
  split; [exact H|]. split; [exact Hin|].
  apply (delete_stored_key sampleTree 12 H Hin).
Defined.

Lemma delete_absent_key_outcome_witness :
  reachable sampleTree
  /\ ~ In 100 (keysOf (root sampleTree))
  /\ (delete sampleTree 100 = Throw AssertionError
      \/ exists t',
          delete sampleTree 100 = Ok (false, t')
          /\ inorder (root t') = inorder (root sampleTree)
          /\ size t' = size sampleTree).
Proof.
  assert (H : reachable sampleTree).
  { exists [], sampleCalls, empty. split; vm_compute; reflexivity. }
  assert (Hin : ~ In 100 (keysOf (root sampleTree))).
  { vm_compute. intros [Hk|[Hk|[Hk|[Hk|[]]]]]; discriminate Hk. }
  split; [exact H|]. split; [exact Hin|].
  apply (delete_absent_key_outcome sampleTree 100 H Hin).
Defined.

Lemma run_returns_or_asserts_witness :
  reachable sampleTree
  /\ ((exists t', run [CallDelete 12; CallDelete 100] sampleTree = Ok t')
      \/ run [CallDelete 12; CallDelete 100] sampleTree = Throw AssertionError).
Proof.
  assert (H : reachable sampleTree).
  { exists [], sampleCalls, empty. split; vm_compute; reflexivity. }
  split; [exact H|].
  apply (run_returns_or_asserts [CallDelete 12; CallDelete 100] sampleTree H).
Defined.

(** * The further properties on sample trees *)

Lemma flipColors_twice_witness :
  flipColors fourNode = Ok redNode
  /\ (flipColors redNode = Ok fourNode
      /\ inorder redNode = inorder fourNode
      /\ (isRed (left fourNode) = negb (isRed fourNode) ->
          isRed (right fourNode) = negb (isRed fourNode) ->
          blackLinks redNode = blackLinks fourNode)).
Proof.
  assert (H : flipColors fourNode = Ok redNode) by reflexivity.
  split; [exact H|].
  apply (flipColors_twice fourNode redNode H).
Defined.

Lemma moveRedLeft_spec_witness :
  rb 1 redNode /\ isRed redNode = true /\ left redNode <> null
  /\ isRed (left (left redNode)) = false
  /\ exists node',
      moveRedLeft redNode = Ok node'
      /\ (isRed (left node') = true \/ isRed (left (left node')) = true)
      /\ (exists h, delpre h (left node'))
      /\ inorder node' = inorder redNode
      /\ Forall (fun m => m = 1%nat) (blackLinks node').
Proof.
  assert (H1 : rb 1 redNode) by (repeat constructor).
  assert (H2 : isRed redNode = true) by reflexivity.
  assert (H3 : left redNode <> null) by (simpl; discriminate).
  assert (H4 : isRed (left (left redNode)) = false) by reflexivity.
  split; [exact H1|]. split; [exact H2|]. split; [exact H3|].
  split; [exact H4|].
  apply (moveRedLeft_spec 1 redNode H1 H2 H3 H4).
Defined.

Lemma moveRedRight_spec_witness :
  rb 1 redNode /\ isRed redNode = true /\ right redNode <> null
  /\ isRed (left (right redNode)) = false
  /\ exists node',
      moveRedRight redNode = Ok node'
      /\ (isRed (right node') = true \/ isRed (right (right node')) = true)
      /\ (exists h, delpre h (right node'))
      /\ inorder node' = inorder redNode
      /\ Forall (fun m => m = 1%nat) (blackLinks node').
Proof.
  assert (H1 : rb 1 redNode) by (repeat constructor).
  assert (H2 : isRed redNode = true) by reflexivity.
  assert (H3 : right redNode <> null) by (simpl; discriminate).
  assert (H4 : isRed (left (right redNode)) = false) by reflexivity.
  split; [exact H1|]. split; [exact H2|]. split; [exact H3|].
  split; [exact H4|].
  apply (moveRedRight_spec 1 redNode H1 H2 H3 H4).
Defined.

Lemma fixUp_repairs_witness :
  almost 0 redRed /\ rb 0 (@null Z Z)
  /\ (isRed (@null Z Z) = true -> rb 0 redRed)
  /\ exists node',
      fixUp (mkNode Black redRed 3 30 null) = Ok node'
      /\ rb 1 node'
      /\ inorder node' = inorder (mkNode Black redRed 3 30 null).
Proof.
  assert (H1 : almost 0 redRed).
  { apply almost_red; [repeat constructor|constructor|reflexivity]. }
  assert (H2 : rb 0 (@null Z Z)) by constructor.
  assert (H3 : isRed (@null Z Z) = true -> rb 0 redRed)
    by (simpl; discriminate).
  split; [exact H1|]. split; [exact H2|]. split; [exact H3|].
  apply (fixUp_repairs 0 redRed 3 30 null H1 H2 H3).
Defined.

Lemma min_max_bound_the_keys_witness :
  reachable sampleTree
  /\ (root sampleTree = null ->
      min sampleTree = Ok None /\ max sampleTree = Ok None)
  /\ (root sampleTree <> null ->
      exists lo hi,
        min sampleTree = Ok (Some lo) /\ max sampleTree = Ok (Some hi)
        /\ In lo (keysOf (root sampleTree))
        /\ In hi (keysOf (root sampleTree))
        /\ forall q, In q (keysOf (root sampleTree)) ->
                     lessThan q lo = false /\ lessThan hi q = false).
Proof.
  assert (H : reachable sampleTree).
  { exists [], sampleCalls, empty. split; vm_compute; reflexivity. }
  split; [exact H|].
  apply (min_max_bound_the_keys sampleTree H).
Defined.

Lemma get_agrees_with_entries_witness :
  reachable sampleTree
  /\ exists es,
      collect entriesNext (S (nodes (root sampleTree))) (entries sampleTree)
      = Ok es
      /\ forall key value,
          get sampleTree key = Some value <-> In (key, value) es.
Proof.
  assert (H : reachable sampleTree).
  { exists [], sampleCalls, empty. split; vm_compute; reflexivity. }
  split; [exact H|].
  apply (get_agrees_with_entries sampleTree H).
Defined.

Lemma construct_builds_the_map_witness :
  TotalOrder Z
  /\ exists t : RedBlackTree Z Z,
      construct sampleEntries = Ok t
      /\ (forall k, get t k = lookup k (rev sampleEntries))
      /\ (forall k, In k (keysOf (root t)) <-> In k (map fst sampleEntries))
      /\ NoDup (keysOf (root t))
      /\ size t = Z.of_nat (length (keysOf (root t))).
Proof.
  split; [exact TotalOrder_Z|].
  apply (construct_builds_the_map sampleEntries).
Defined.

Lemma entries_depend_on_content_only_witness :
  reachable tree1357 /\ reachable tree7531
  /\ root tree1357 <> root tree7531
  /\ (forall k, get tree1357 k = get tree7531 k)
  /\ inorder (root tree1357) = inorder (root tree7531)
  /\ size tree1357 = size tree7531.
Proof.
  assert (H1 : reachable tree1357).
  { exists [(1, 10); (3, 30); (5, 50); (7, 70)], [], tree1357.
    split; vm_compute; reflexivity. }
  assert (H2 : reachable tree7531).
  { exists [(7, 70); (5, 50); (3, 30); (1, 10)], [], tree7531.
    split; vm_compute; reflexivity. }
  assert (H3 : forall k, get tree1357 k = get tree7531 k).
  { intros k. unfold get. simpl. unfold equality, Equatable_Z.
    repeat match goal with
      | |- context [Z.eqb ?a ?b] => destruct (Z.eqb_spec a b)
      | |- context [Z.ltb ?a ?b] => destruct (Z.ltb_spec a b)
      end; simpl; (reflexivity || lia). }
  split; [exact H1|]. split; [exact H2|].
  split; [vm_compute; discriminate|]. split; [exact H3|].
  apply (entries_depend_on_content_only tree1357 tree7531 H1 H2 H3).
Defined.

Lemma next_previous_walk_the_keys_witness :
  reachable sampleTree
  /\ nth_error (keysOf (root sampleTree)) 1 = Some 7
  /\ next sampleTree 7 = nth_error (keysOf (root sampleTree)) 2
  /\ previous sampleTree 7 = nth_error (keysOf (root sampleTree)) 0.
Proof.
  assert (H : reachable sampleTree).
  { exists [], sampleCalls, empty. split; vm_compute; reflexivity. }
  assert (Hnth : nth_error (keysOf (root sampleTree)) 1 = Some 7)
    by (vm_compute; reflexivity).
  split; [exact H|]. split; [exact Hnth|].
  apply (next_previous_walk_the_keys sampleTree 1 7 H Hnth).
Defined.

Lemma deleteMax_removes_maximum_witness :
  reachable sampleTree /\ root sampleTree <> null
  /\ exists t' k v,
      deleteMax sampleTree = Ok (true, t')
      /\ size t' = size sampleTree - 1
      /\ max sampleTree = Ok (Some k)
      /\ inorder (root sampleTree) = inorder (root t') ++ [(k, v)]
      /\ (forall q, In q (keysOf (root t')) -> lessThan q k = true)
      /\ get t' k = None.
Proof.
  assert (H : reachable sampleTree).
  { exists [], sampleCalls, empty. split; vm_compute; reflexivity. }
  assert (Hnn : root sampleTree <> null) by (vm_compute; discriminate).
  split; [exact H|]. split; [exact Hnn|].
  apply (deleteMax_removes_maximum sampleTree H Hnn).
Defined.

Lemma set_and_delete_undo_each_other_witness :
  reachable sampleTree
  /\ get sampleTree 9 = None /\ get sampleTree 7 = Some 71
  /\ (exists t1 t2,
         set sampleTree 9 90 = Ok t1 /\ delete t1 9 = Ok (true, t2)
         /\ inorder (root t2) = inorder (root sampleTree)
         /\ size t2 = size sampleTree)
  /\ (exists t1 t2,
         delete sampleTree 7 = Ok (true, t1) /\ set t1 7 71 = Ok t2
         /\ inorder (root t2) = inorder (root sampleTree)
         /\ size t2 = size sampleTree).
Proof.
  assert (H : reachable sampleTree).
  { exists [], sampleCalls, empty. split; vm_compute; reflexivity. }
  assert (Hnone : get sampleTree 9 = None) by (vm_compute; reflexivity).
  assert (Hsome : get sampleTree 7 = Some 71) by (vm_compute; reflexivity).
  split; [exact H|]. split; [exact Hnone|]. split; [exact Hsome|]. split.
  - apply (proj1 (set_and_delete_undo_each_other sampleTree 9 90 H) Hnone).
  - apply (proj2 (set_and_delete_undo_each_other sampleTree 7 71 H) Hsome).
Defined.

Lemma delete_below_minimum_asserts_witness :
  reachable sampleTree /\ root sampleTree <> null
  /\ (forall q, In q (keysOf (root sampleTree)) -> lessThan 1 q = true)
  /\ delete sampleTree 1 = Throw AssertionError.
Proof.
  assert (H : reachable sampleTree).
  { exists [], sampleCalls, empty. split; vm_compute; reflexivity. }
  assert (Hnn : root sampleTree <> null) by (vm_compute; discriminate).
  assert (Hall : forall q, In q (keysOf (root sampleTree)) ->
                           lessThan 1 q = true).
  { vm_compute. intros q [<-|[<-|[<-|[<-|[]]]]]; reflexivity. }
  split; [exact H|]. split; [exact Hnn|]. split; [exact Hall|].
  apply (delete_below_minimum_asserts sampleTree 1 H Hnn Hall).
Defined.

Lemma delete_above_maximum_returns_false_witness :
  reachable sampleTree
  /\ (forall q, In q (keysOf (root sampleTree)) -> lessThan q 100 = true)
  /\ exists t',
      delete sampleTree 100 = Ok (false, t')
      /\ inorder (root t') = inorder (root sampleTree)
      /\ size t' = size sampleTree.
Proof.
  assert (H : reachable sampleTree).
  { exists [], sampleCalls, empty. split; vm_compute; reflexivity. }
  assert (Hall : forall q, In q (keysOf (root sampleTree)) ->
                           lessThan q 100 = true).
  { vm_compute. intros q [<-|[<-|[<-|[<-|[]]]]]; reflexivity. }
  split; [exact H|]. split; [exact Hall|].
  apply (delete_above_maximum_returns_false sampleTree 100 H Hall).
Defined.

Lemma empty_tree_behaviour_witness :
  reachable (clear sampleTree)
  /\ size (clear sampleTree) = 0
  /\ (get (clear sampleTree) 5 = None
      /\ min (clear sampleTree) = Ok None /\ max (clear sampleTree) = Ok None
      /\ previous (clear sampleTree) 5 = None
      /\ next (clear sampleTree) 5 = None
      /\ delete (clear sampleTree) 5 = Ok (false, clear sampleTree)
      /\ deleteMin (clear sampleTree) = Ok (false, clear sampleTree)
      /\ deleteMax (clear sampleTree) = Ok (false, clear sampleTree)
      /\ entriesNext (entries (clear sampleTree))
         = Ok (Done _, entries (clear sampleTree))).
Proof.
  assert (H : reachable (clear sampleTree)).
  { exists [], (sampleCalls ++ [CallClear]), empty.
    split; vm_compute; reflexivity. }
  assert (H0 : size (clear sampleTree) = 0) by reflexivity.
  split; [exact H|]. split; [exact H0|].
  apply (proj1 (proj2 (empty_tree_behaviour (clear sampleTree) 5 H)) H0).
Defined.

Lemma run_refines_sorted_list_witness :
  reachable (empty : RedBlackTree Z Z)
  /\ run sampleCalls empty = Ok sampleTree
  /\ inorder (root sampleTree) = run_list sampleCalls []
  /\ size sampleTree = Z.of_nat (length (run_list sampleCalls [])).
Proof.
  assert (H : reachable (empty : RedBlackTree Z Z)).
  { exists [], [], empty. split; reflexivity. }
  assert (Hrun : run sampleCalls empty = Ok sampleTree)
    by (vm_compute; reflexivity).
  split; [exact H|]. split; [exact Hrun|].
  apply (run_refines_sorted_list sampleCalls empty sampleTree H Hrun).
Defined.

Lemma height_is_logarithmic_witness :
  reachable sampleTree
  /\ (2 ^ height (root sampleTree) <= (S (nodes (root sampleTree))) ^ 2)%nat
  /\ size sampleTree = Z.of_nat (nodes (root sampleTree)).
Proof.
  assert (H : reachable sampleTree).
  { exists [], sampleCalls, empty. split; vm_compute; reflexivity. }
  split; [exact H|].
  apply (height_is_logarithmic sampleTree H).
Defined.

Lemma set_same_pair_changes_nothing_witness :
  reachable sampleTree /\ get sampleTree 7 = Some 71
  /\ set sampleTree 7 71 = Ok sampleTree.
Proof.
  assert (H : reachable sampleTree).
  { exists [], sampleCalls, empty. split; vm_compute; reflexivity. }
  assert (Hget : get sampleTree 7 = Some 71) by (vm_compute; reflexivity).
  split; [exact H|]. split; [exact Hget|].
  apply (set_same_pair_changes_nothing sampleTree 7 71 H Hget).
Defined.

(** * After a caught assertion error *)

(** On a run in which every call returns, the two models agree: the objects
    under [#root] form the tree of the functional model, and [#size] is its
    [size]. *)
Lemma objects_agree_on_sample_run :
  exists s : Objects.State Z Z,
    Objects.run sampleCalls Objects.empty = (Ok tt, s)
    /\ Objects.tree s = root sampleTree
    /\ Objects.size s = size sampleTree.
Proof. eexists. split; [cbv; reflexivity|]. split; reflexivity. Qed.

(** C1 fails on the code.  After [1], [3] and [5] are set the two models
    hold the same tree.  [delete(0)] fails the assertion
    [node.left !== null] of [#delete] only after [moveRedLeft] has recoloured
    the three nodes, and the node objects keep that.  When the caller catches
    the error and goes on, the next call, [set(0, 0)], returns, and leaves the
    node of key 3 with a red right child. *)
Theorem caught_assertion_breaks_llrb :
  exists s1 s2 s3 : Objects.State Z Z,
    Objects.construct [(1, 10); (3, 30); (5, 50)] = (Ok tt, s1)
    /\ construct [(1, 10); (3, 30); (5, 50)]
       = Ok {| root := Objects.tree s1; size := Objects.size s1 |}
    /\ Objects.delete 0 s1 = (Throw AssertionError, s2)
    /\ Objects.tree s2
       = mkNode Red (mkNode Red null 1 10 null) 3 30 (mkNode Red null 5 50 null)
    /\ Objects.set 0 0 s2 = (Ok tt, s3)
    /\ Objects.tree s3
       = mkNode Black (mkNode Black null 0 0 null) 1 10
           (mkNode Black null 3 30 (mkNode Red null 5 50 null))
    /\ ~ noRedRight (Objects.tree s3).
Proof.
  do 3 eexists.
  split; [cbv; reflexivity|]. split; [reflexivity|].
  split; [cbv; reflexivity|]. split; [reflexivity|].
  split; [cbv; reflexivity|]. split; [reflexivity|].
  cbv. intros (_ & _ & H & _). discriminate H.
Qed.

(** C7 fails on the code.  After [1], [3], [5] and [7] are set the two
    models hold the same tree, of [size] 4.  [delete(0)] rotates the node of
    key 5 above the root and then fails the assertion [node.left !== null] of
    [#delete]; [#root] still points at the node of key 3, which has kept the
    node of key 1 only, and [#size] is still 4.  When the caller catches the
    error and goes on, the next call, [set(9, 90)], returns: the tree holds
    three nodes and [size] is 5. *)
Theorem caught_assertion_breaks_size :
  exists s1 s2 s3 : Objects.State Z Z,
    Objects.construct [(1, 10); (3, 30); (5, 50); (7, 70)] = (Ok tt, s1)
    /\ construct [(1, 10); (3, 30); (5, 50); (7, 70)]
       = Ok {| root := Objects.tree s1; size := Objects.size s1 |}
    /\ Objects.delete 0 s1 = (Throw AssertionError, s2)
    /\ Objects.tree s2 = mkNode Black (mkNode Red null 1 10 null) 3 30 null
    /\ Objects.size s2 = 4
    /\ Objects.set 9 90 s2 = (Ok tt, s3)
    /\ Objects.tree s3
       = mkNode Black (mkNode Black null 1 10 null) 3 30
           (mkNode Black null 9 90 null)
    /\ Objects.size s3 = 5
    /\ Z.of_nat (nodes (Objects.tree s3)) = 3
    /\ Objects.size s3 <> Z.of_nat (nodes (Objects.tree s3)).
Proof.
  do 3 eexists.
  split; [cbv; reflexivity|]. split; [reflexivity|].
  split; [cbv; reflexivity|]. split; [reflexivity|]. split; [reflexivity|].
  split; [cbv; reflexivity|]. split; [reflexivity|]. split; [reflexivity|].
  split; [reflexivity|]. cbv. discriminate.
Qed.
